(** * Threaded comments: tree assembly, ranking and the comment engine

    A shallow embedding of the JavaScript sources

      - [utils.js]          ([buildTree], [flattenTree], [sortComments],
                             [calculateControversy], [countComments]),
      - [memoryAdapter.js]  (the in-memory storage adapter),
      - [CommentError.js]   and [CommentSystem.js] (the engine),

    followed by the properties of the specification, each one proved or
    refuted on the embedding.

    Conventions of the embedding.

      - A JavaScript string is a [string]; a character stands for one code
        unit.  A field that may be missing is an [option]: [None] stands for
        both [undefined] and [null], which every test of the sources
        ([!x], [x || y], [x ?? y]) treats alike.
      - Integer-valued numbers (depth, score, time stamps in milliseconds,
        lengths) are in [Z]; they stay far below 2^53, where binary64 is
        exact.  Vote counts enter a division, so they are kept as binary64
        numbers ([float], the kernel's IEEE 754 doubles).
      - The nodes that [buildTree] allocates are objects shared by reference:
        a node is named by its key in [commentMap] and a forest is the array
        of root references together with the store of nodes.
      - A recursive traversal carries the depth of call stack it may use as
        fuel and answers [None] when that is exhausted. *)

From Stdlib Require Import ZArith QArith Qabs PrimFloat.
From stdpp Require Import gmap strings list sorting pretty.

Local Open Scope Z_scope.

(** ** JavaScript values *)

(** [!!v] for a string-valued field: the empty string and a missing value are
    falsy. *)
Definition truthy (v : option string) : bool :=
  match v with
  | Some s => negb (String.eqb s "")
  | None => false
  end.

(** [a || b] *)
Definition js_or {A} (truth : A → bool) (a b : A) : A :=
  if truth a then a else b.

(** [a ?? b] *)
Definition nullish {A} (a : option A) (b : A) : A :=
  match a with
  | Some x => x
  | None => b
  end.

(** *** Numbers

    A score is a number that holds an integer; the model writes it as that
    integer.  Binary64 holds an integer of at most 53 significant bits as
    it is and every other one rounded to 53 significant bits, ties to even;
    from [2^1024] on it has only [Infinity], for which [infinity] (and
    [- infinity] for [-Infinity]) stands. *)

(** The number nearest to the integer [z]. *)
Definition binary64 (z : Z) : Z :=
  let magnitude := Z.abs z in
  let dropped := Z.log2 magnitude - 52 in
  if dropped <=? 0 then z
  else
    let unit := 2 ^ dropped in
    let quotient := magnitude / unit in
    let rest := magnitude mod unit in
    let up := (unit <? 2 * rest) || ((2 * rest =? unit) && Z.odd quotient) in
    Z.sgn z * ((if up then quotient + 1 else quotient) * unit).

Definition infinity : Z := 2 ^ 1024.

(** [x + y] for a number [x] and a finite number [y]. *)
Definition number_add (x y : Z) : Z :=
  if infinity <=? Z.abs x then x
  else
    let sum := binary64 (x + y) in
    if infinity <=? Z.abs sum then Z.sgn sum * infinity else sum.

(** [v || fallback] for a number-valued field: [0] and a missing value are
    falsy. *)
Definition number_or (v : option Z) (fallback : Z) : Z :=
  match v with
  | Some x => if x =? 0 then fallback else x
  | None => fallback
  end.

(** ** Comment records (index.d.ts, [interface Comment]) *)

Module Comment.

Record t := mk {
  id : string;
  postId : option string;
  post_id : option string;
  authorId : option string;
  author_id : option string;
  content : string;
  parentId : option string;
  parent_id : option string;
  depth : option Z;
  score : option Z;
  upvotes : option float;
  downvotes : option float;
  isDeleted : bool;
  (** a [Date] (always truthy), as milliseconds since the epoch *)
  createdAt : option Z;
  created_at : option Z
}.

End Comment.

Abbreviation Comment := Comment.t.

(** ** utils.js *)

(** A node [{...comment, replies: []}]; [replies] holds references. *)
Record Node := mkNode {
  data : Comment;
  replies : list string
}.

Record Forest := mkForest {
  roots : list string;
  nodes : gmap string Node
}.

(** [node.replies.push(child)] *)
Definition push_reply (child : string) (n : Node) : Node :=
  {| data := data n; replies := replies n ++ [child] |}.

(** First pass of [buildTree]: [commentMap.set(comment.id, {...})]. *)
Definition first_pass (comments : list Comment) : gmap string Node :=
  foldl (λ commentMap comment,
           <[Comment.id comment := {| data := comment; replies := [] |}]> commentMap)
        ∅ comments.

(** [const parentId = comment.parentId || comment.parent_id], kept when the
    test [parentId && ...] finds it truthy. *)
Definition parentKey (comment : Comment) : option string :=
  let parentId := js_or truthy (Comment.parentId comment) (Comment.parent_id comment) in
  if truthy parentId then parentId else None.

(** Body of the second loop of [buildTree]. *)
Definition second_pass_step (st : gmap string Node * list string)
    (comment : Comment) : gmap string Node * list string :=
  let '(commentMap, rootComments) := st in
  let node := Comment.id comment in
  match parentKey comment with
  | Some parentId =>
      if bool_decide (is_Some (commentMap !! parentId))
      then (alter (push_reply node) parentId commentMap, rootComments)
      else (commentMap, rootComments ++ [node])
  | None => (commentMap, rootComments ++ [node])
  end.

Definition buildTree (comments : list Comment) : Forest :=
  match comments with
  | [] => {| roots := []; nodes := ∅ |}
  | _ =>
      let '(commentMap, rootComments) :=
        foldl second_pass_step (first_pass comments, []) comments in
      {| roots := rootComments; nodes := commentMap |}
  end.

(** [for (const x of xs) { ... }] over a state that the body may fail to
    produce. *)
Fixpoint for_of {A S} (body : A → S → option S) (xs : list A) (s : S)
    : option S :=
  match xs with
  | [] => Some s
  | x :: xs' =>
      match body x s with
      | Some s' => for_of body xs' s'
      | None => None
      end
  end.

(** The inner [traverse] of [flattenTree]; [result] is the array being
    filled. *)
Fixpoint flatten_traverse (fuel : nat) (store : gmap string Node)
    (nodes : list string) (result : list Comment) : option (list Comment) :=
  match fuel with
  | O => None
  | S fuel' =>
      for_of (λ ref result,
                match store !! ref with
                | Some node =>
                    let result := result ++ [data node] in
                    match replies node with
                    | [] => Some result
                    | _ => flatten_traverse fuel' store (replies node) result
                    end
                | None => None
                end)
             nodes result
  end.

Definition flattenTree (fuel : nat) (tree : Forest) : option (list Comment) :=
  flatten_traverse fuel (nodes tree) (roots tree) [].

(** The inner [traverse] of [countComments]; [count] is the counter. *)
Fixpoint count_traverse (fuel : nat) (store : gmap string Node)
    (nodes : list string) (count : nat) : option nat :=
  match fuel with
  | O => None
  | S fuel' =>
      for_of (λ ref count,
                match store !! ref with
                | Some node =>
                    let count := S count in
                    match replies node with
                    | [] => Some count
                    | _ => count_traverse fuel' store (replies node) count
                    end
                | None => None
                end)
             nodes count
  end.

Definition countComments (fuel : nat) (tree : Forest) : option nat :=
  count_traverse fuel (nodes tree) (roots tree) 0%nat.

(** The [while] loop of [getDepth]: [current] and [depth] are its two
    variables, [fuel] the iterations it may make. *)
Fixpoint getDepth_loop (fuel : nat) (commentMap : gmap string Comment)
    (current : option Comment) (depth : Z) {struct fuel} : option Z :=
  match current with
  | None => Some depth
  | Some comment =>
      match fuel with
      | O => None
      | S fuel' =>
          match parentKey comment with
          | None => Some depth
          | Some parentId =>
              let current := commentMap !! parentId in
              let depth := depth + 1 in
              if depth >? 100 then Some depth
              else getDepth_loop fuel' commentMap current depth
          end
      end
  end.

Definition getDepth (fuel : nat) (commentId : string)
    (commentMap : gmap string Comment) : option Z :=
  getDepth_loop fuel commentMap (commentMap !! commentId) 0.

(** [calculateControversy], in binary64 arithmetic. *)
Definition calculateControversy (comment : Comment) : float :=
  let upvotes := nullish (Comment.upvotes comment) 0%float in
  let downvotes := nullish (Comment.downvotes comment) 0%float in
  let total := (upvotes + downvotes)%float in
  if (total =? 0)%float then 0%float
  else
    let balance := (1 - abs (upvotes - downvotes) / total)%float in
    (total * balance)%float.

(** *** Sorting *)

(** A [Date] is an object, hence truthy whenever present. *)
Definition date_truthy (v : option Z) : bool :=
  match v with
  | Some _ => true
  | None => false
  end.

(** [new Date(a.createdAt || a.created_at).getTime()]; [None] is [NaN], the
    time of [new Date(undefined)]. *)
Definition getTime (a : Comment) : option Z :=
  js_or date_truthy (Comment.createdAt a) (Comment.created_at a).

(** Subtraction of numbers that may be [NaN]. *)
Definition num_sub (x y : option Z) : option Z :=
  match x, y with
  | Some x, Some y => Some (x - y)
  | _, _ => None
  end.

(** What a sort observes of a binary64 comparator result: its sign, or
    [NaN]. *)
Definition float_sign (d : float) : option Z :=
  if (d <? 0)%float then Some (-1)
  else if (0 <? d)%float then Some 1
  else if (d =? 0)%float then Some 0
  else None.

Definition compare_new (a b : Comment) : option Z :=
  let aTime := getTime a in
  let bTime := getTime b in
  num_sub bTime aTime.

Definition compare_old (a b : Comment) : option Z :=
  let aTime := getTime a in
  let bTime := getTime b in
  num_sub aTime bTime.

Definition compare_controversial (a b : Comment) : option Z :=
  let aScore := calculateControversy a in
  let bScore := calculateControversy b in
  float_sign (bScore - aScore)%float.

Definition compare_top (a b : Comment) : option Z :=
  let aScore := nullish (Comment.score a) 0 in
  let bScore := nullish (Comment.score b) 0 in
  if negb (bScore =? aScore) then Some (bScore - aScore)
  else
    let aTime := getTime a in
    let bTime := getTime b in
    num_sub bTime aTime.

(** The [switch (sort)] of [sortComments]; a missing argument takes the
    default ['top']. *)
Definition compareFn (sort : option string) : Comment → Comment → option Z :=
  let sort := nullish sort "top" in
  if String.eqb sort "new" then compare_new
  else if String.eqb sort "old" then compare_old
  else if String.eqb sort "controversial" then compare_controversial
  else compare_top.

(** [Array.prototype.sort]: the comparator's [NaN] counts as [+0]
    (SortCompare), and the sort is stable.  For a comparator that is a
    consistent ordering the result is determined by these two facts; it is
    computed here by stable insertion from the end of the sorted run, the
    way engines insert: the new element goes behind the last element that
    does not have to follow it.  For a comparator that is not a consistent
    ordering the language leaves the order to the engine. *)
Definition SortCompare {A} (comparefn : A → A → option Z) (x y : A) : Z :=
  nullish (comparefn x y) 0.

Fixpoint sort_insert {A} (comparefn : A → A → option Z) (x : A) (l : list A)
    : list A :=
  match l with
  | [] => [x]
  | y :: l' =>
      if forallb (λ z, 0 <? SortCompare comparefn z x) l then x :: l
      else y :: sort_insert comparefn x l'
  end.

Definition array_sort {A} (comparefn : A → A → option Z) (l : list A)
    : list A :=
  foldl (λ sorted x, sort_insert comparefn x sorted) [] l.

(** [sortComments] on the contents of the arrays. *)
Definition sortComments (comments : list Comment) (sort : option string)
    : list Comment :=
  let sorted := comments in
  array_sort (compareFn sort) sorted.


(** ** CommentError.js *)

(** The two kinds of exception the sources construct: [new CommentError
    (message, code)], which carries a [code] property, and a plain
    [new Error(message)], which has none. *)
Inductive JsError :=
  | CommentError (message code : string)
  | Error (message : string).

Definition error_message (e : JsError) : string :=
  match e with
  | CommentError message _ => message
  | Error message => message
  end.

(** [e.code] *)
Definition error_code (e : JsError) : option string :=
  match e with
  | CommentError _ code => Some code
  | Error _ => None
  end.

(** ** The storage contract (index.d.ts, [interface CommentAdapter]) *)

(** The object literal handed to [saveComment] by the engine. *)
Record Draft := mkDraft {
  draft_postId : option string;
  draft_authorId : option string;
  draft_content : string;
  draft_parentId : option string;
  draft_depth : option Z;
  draft_score : option Z;
  draft_upvotes : option float;
  draft_downvotes : option float;
  draft_createdAt : option Z
}.

Record QueryOptions := mkQuery {
  sort : option string;
  limit : option Z;
  offset : option Z
}.

(** The calls made on the adapter, in the order they are made. *)
Inductive Call :=
  | call_getComment (commentId : string)
  | call_getComments (post : option string) (options : QueryOptions)
  | call_saveComment (comment : Draft)
  | call_deleteComment (commentId : string)
  | call_updateScore (commentId : string) (delta : Z)
  | call_getReplies (commentId : string) (options : QueryOptions)
  | call_getCount (post : option string).

(** An asynchronous storage operation: run at a time [now] on a storage
    state, it resolves ([inr]) or rejects ([inl]) and leaves a new state. *)
Definition AdapterOp (S A : Type) : Type := Z → S → (JsError + A) * S.

Module Adapter.

(** The adapter object as it is handed to the constructor: any method may
    be missing. *)
Record Object (S : Type) := mkObject {
  obj_getComment : option (string → AdapterOp S (option Comment));
  obj_getComments :
    option (option string → QueryOptions → AdapterOp S (list Comment));
  obj_saveComment : option (Draft → AdapterOp S Comment);
  obj_deleteComment : option (string → AdapterOp S unit);
  obj_updateScore : option (string → Z → AdapterOp S Z);
  obj_getReplies : option (string → QueryOptions → AdapterOp S (list Comment));
  obj_getCount : option (option string → AdapterOp S Z)
}.

(** The adapter once [_validateAdapter] has found the four required
    methods. *)
Record t (S : Type) := mk {
  getComment : string → AdapterOp S (option Comment);
  getComments : option string → QueryOptions → AdapterOp S (list Comment);
  saveComment : Draft → AdapterOp S Comment;
  deleteComment : string → AdapterOp S unit;
  updateScore : option (string → Z → AdapterOp S Z);
  getReplies : option (string → QueryOptions → AdapterOp S (list Comment));
  getCount : option (option string → AdapterOp S Z)
}.

Arguments mkObject {S}.
Arguments obj_getComment {S}.
Arguments obj_getComments {S}.
Arguments obj_saveComment {S}.
Arguments obj_deleteComment {S}.
Arguments obj_updateScore {S}.
Arguments obj_getReplies {S}.
Arguments obj_getCount {S}.
Arguments mk {S}.
Arguments getComment {S}.
Arguments getComments {S}.
Arguments saveComment {S}.
Arguments deleteComment {S}.
Arguments updateScore {S}.
Arguments getReplies {S}.
Arguments getCount {S}.

End Adapter.

(** ** The engine's effects *)

(** What the engine runs in: the storage state behind the adapter, the calls
    made on the adapter so far (latest last) and the clock. *)
Record World (S : Type) := mkWorld {
  storage : S;
  calls : list Call;
  now : Z
}.

Arguments mkWorld {S}.
Arguments storage {S}.
Arguments calls {S}.
Arguments now {S}.

(** How an operation of the engine ends: it returns, it throws an error of
    its own, or a storage operation rejected and the rejection propagates. *)
Inductive Outcome (A : Type) :=
  | Returned (a : A)
  | Thrown (e : JsError)
  | Rejected (e : JsError).

Arguments Returned {A}.
Arguments Thrown {A}.
Arguments Rejected {A}.

Definition Async (S A : Type) : Type := World S → Outcome A * World S.

Definition ret {S A} (a : A) : Async S A := λ w, (Returned a, w).

Definition throw {S A} (e : JsError) : Async S A := λ w, (Thrown e, w).

Definition bind {S A B} (m : Async S A) (k : A → Async S B) : Async S B :=
  λ w,
    match m w with
    | (Returned a, w') => k a w'
    | (Thrown e, w') => (Thrown e, w')
    | (Rejected e, w') => (Rejected e, w')
    end.

Notation "'let*' x := m 'in' k" := (bind m (λ x, k))
  (at level 10, x pattern, k at level 200).

(** [new Date()] *)
Definition new_Date {S} : Async S Z := λ w, (Returned (now w), w).

(** [await this.adapter.op(...)]: the call is recorded and run on the
    storage. *)
Definition await {S A} (c : Call) (op : AdapterOp S A) : Async S A :=
  λ w,
    let w := {| storage := storage w; calls := calls w ++ [c]; now := now w |} in
    match op (now w) (storage w) with
    | (inr a, st) => (Returned a, {| storage := st; calls := calls w; now := now w |})
    | (inl e, st) => (Rejected e, {| storage := st; calls := calls w; now := now w |})
    end.

(** ** Strings and arrays of the standard library *)

(** White space in the sense of [String.prototype.trim], among the code units
    below 256: TAB, LF, VT, FF, CR, SP and NBSP. *)
Definition is_white_space (a : Ascii.ascii) : bool :=
  let n := Ascii.nat_of_ascii a in
  ((9 <=? n) && (n <=? 13) || (n =? 32) || (n =? 160))%nat.

Fixpoint trimStart (s : string) : string :=
  match s with
  | String a s' => if is_white_space a then trimStart s' else s
  | EmptyString => EmptyString
  end.

Definition trim (s : string) : string :=
  String.rev (trimStart (String.rev (trimStart s))).

(** [l.slice(start, end)] for integer arguments. *)
Definition slice_index (len k : Z) : nat :=
  Z.to_nat (if k <? 0 then Z.max (len + k) 0 else Z.min k len).

Definition slice {A} (l : list A) (start stop : Z) : list A :=
  let len := Z.of_nat (length l) in
  let from := slice_index len start in
  let to := slice_index len stop in
  take (to - from)%nat (drop from l).

(** ** CommentSystem.js *)

Module CommentSystem.

Record Options := mkOptions {
  maxDepth : Z;
  maxLength : Z
}.

Definition DEFAULT_OPTIONS : Options :=
  {| maxDepth := 10; maxLength := 10000 |}.

(** The [options] argument of the constructor: either key may be missing. *)
Record OptionsArg := mkOptionsArg {
  arg_maxDepth : option Z;
  arg_maxLength : option Z
}.

Definition no_options : OptionsArg :=
  {| arg_maxDepth := None; arg_maxLength := None |}.

Record t (S : Type) := mk {
  adapter : Adapter.t S;
  options : Options
}.

Arguments mk {S}.
Arguments adapter {S}.
Arguments options {S}.

(** A value passed as [content]: missing, a string, or anything else
    (falsy or truthy). *)
Inductive ContentArg :=
  | content_missing
  | content_string (s : string)
  | content_other (truth : bool).

Section Engine.
Context {S : Type}.

Definition missing_method (method : string) : JsError :=
  Error ("Adapter must implement " +:+ method +:+ "() method").

(** [_validateAdapter]: the required methods are looked for in the order
    of the array [required]; the adapter that passes has all four. *)
Definition _validateAdapter (adapter : Adapter.Object S)
    : JsError + Adapter.t S :=
  match Adapter.obj_getComment adapter with
  | None => inl (missing_method "getComment")
  | Some getComment =>
  match Adapter.obj_getComments adapter with
  | None => inl (missing_method "getComments")
  | Some getComments =>
  match Adapter.obj_saveComment adapter with
  | None => inl (missing_method "saveComment")
  | Some saveComment =>
  match Adapter.obj_deleteComment adapter with
  | None => inl (missing_method "deleteComment")
  | Some deleteComment =>
      inr {| Adapter.getComment := getComment;
             Adapter.getComments := getComments;
             Adapter.saveComment := saveComment;
             Adapter.deleteComment := deleteComment;
             Adapter.updateScore := Adapter.obj_updateScore adapter;
             Adapter.getReplies := Adapter.obj_getReplies adapter;
             Adapter.getCount := Adapter.obj_getCount adapter |}
  end end end end.

(** [new CommentSystem(adapter, options)] *)
Definition constructor (adapter : Adapter.Object S) (options : OptionsArg)
    : JsError + t S :=
  match _validateAdapter adapter with
  | inl e => inl e
  | inr adapter =>
      inr {| adapter := adapter;
             options :=
               {| maxDepth :=
                    nullish (arg_maxDepth options) (maxDepth DEFAULT_OPTIONS);
                  maxLength :=
                    nullish (arg_maxLength options) (maxLength DEFAULT_OPTIONS)
               |} |}
  end.

Variable this : t S.

Definition _validateContent (content : ContentArg) : JsError + string :=
  match content with
  | content_missing | content_other _ | content_string "" =>
      inl (CommentError "Content is required" "EMPTY_CONTENT")
  | content_string content =>
      let trimmed := trim content in
      if (String.length trimmed =? 0)%nat
      then inl (CommentError "Content cannot be empty" "EMPTY_CONTENT")
      else if Z.of_nat (String.length trimmed) >? maxLength (options this)
      then inl (CommentError
                  ("Content exceeds maximum length of "
                     +:+ pretty (maxLength (options this)))
                  "MAX_LENGTH")
      else inr trimmed
  end.

(** A call of [_validateContent] inside an operation. *)
Definition validated (content : ContentArg) : Async S string :=
  match _validateContent content with
  | inl e => throw e
  | inr trimmed => ret trimmed
  end.

Definition create (postId authorId : option string) (content : ContentArg)
    : Async S Comment :=
  if negb (truthy postId)
  then throw (CommentError "Post ID is required" "MISSING_POST")
  else if negb (truthy authorId)
  then throw (CommentError "Author ID is required" "MISSING_AUTHOR")
  else
    let* validatedContent := validated content in
    let* createdAt := new_Date in
    let draft :=
      {| draft_postId := postId;
         draft_authorId := authorId;
         draft_content := validatedContent;
         draft_parentId := None;
         draft_depth := Some 0;
         draft_score := Some 0;
         draft_upvotes := Some 0%float;
         draft_downvotes := Some 0%float;
         draft_createdAt := Some createdAt |} in
    let* comment :=
      await (call_saveComment draft) (Adapter.saveComment (adapter this) draft) in
    ret comment.

Definition reply (postId parentId authorId : option string)
    (content : ContentArg) : Async S Comment :=
  if negb (truthy postId)
  then throw (CommentError "Post ID is required" "MISSING_POST")
  else if negb (truthy parentId)
  then throw (CommentError "Parent ID is required for replies" "MISSING_PARENT")
  else if negb (truthy authorId)
  then throw (CommentError "Author ID is required" "MISSING_AUTHOR")
  else
    let parentRef := nullish parentId "" in
    let* parent :=
      await (call_getComment parentRef)
            (Adapter.getComment (adapter this) parentRef) in
    match parent with
    | None => throw (CommentError "Parent comment not found" "PARENT_NOT_FOUND")
    | Some parent =>
        if bool_decide (Comment.postId parent ≠ postId)
           && bool_decide (Comment.post_id parent ≠ postId)
        then throw (CommentError "Parent comment belongs to different post"
                                 "INVALID_PARENT")
        else
          let parentDepth := nullish (Comment.depth parent) 0 in
          let newDepth := parentDepth + 1 in
          if newDepth >? maxDepth (options this)
          then throw (CommentError
                        ("Maximum comment depth of "
                           +:+ pretty (maxDepth (options this)) +:+ " exceeded")
                        "MAX_DEPTH")
          else
            let* validatedContent := validated content in
            let* createdAt := new_Date in
            let draft :=
              {| draft_postId := postId;
                 draft_authorId := authorId;
                 draft_content := validatedContent;
                 draft_parentId := parentId;
                 draft_depth := Some newDepth;
                 draft_score := Some 0;
                 draft_upvotes := Some 0%float;
                 draft_downvotes := Some 0%float;
                 draft_createdAt := Some createdAt |} in
            let* comment :=
              await (call_saveComment draft)
                    (Adapter.saveComment (adapter this) draft) in
            ret comment
    end.

Definition getThread (postId : option string) (query : QueryOptions)
    : Async S Forest :=
  let query :=
    {| sort := Some (nullish (sort query) "top");
       limit := Some (nullish (limit query) 100);
       offset := Some (nullish (offset query) 0) |} in
  let* comments :=
    await (call_getComments postId query)
          (Adapter.getComments (adapter this) postId query) in
  let sorted := sortComments comments (sort query) in
  ret (buildTree sorted).

Definition getComment (id : string) : Async S Comment :=
  let* comment :=
    await (call_getComment id) (Adapter.getComment (adapter this) id) in
  match comment with
  | None => throw (CommentError "Comment not found" "NOT_FOUND")
  | Some comment => ret comment
  end.

Definition delete (commentId agentId : string) : Async S unit :=
  let* comment :=
    await (call_getComment commentId)
          (Adapter.getComment (adapter this) commentId) in
  match comment with
  | None => throw (CommentError "Comment not found" "NOT_FOUND")
  | Some comment =>
      let authorId :=
        js_or truthy (Comment.authorId comment) (Comment.author_id comment) in
      if bool_decide (authorId ≠ Some agentId)
      then throw (CommentError "Cannot delete another agent's comment"
                               "FORBIDDEN")
      else
        await (call_deleteComment commentId)
              (Adapter.deleteComment (adapter this) commentId)
  end.

Definition getReplies (commentId : string) (query : QueryOptions)
    : Async S (list Comment) :=
  let sort := Some (nullish (sort query) "top") in
  let limit := nullish (limit query) 25 in
  match Adapter.getReplies (adapter this) with
  | Some adapter_getReplies =>
      let query := {| sort := sort; limit := Some limit; offset := None |} in
      await (call_getReplies commentId query)
            (adapter_getReplies commentId query)
  | None =>
      let* comment :=
        await (call_getComment commentId)
              (Adapter.getComment (adapter this) commentId) in
      match comment with
      | None => throw (CommentError "Comment not found" "NOT_FOUND")
      | Some comment =>
          let postId :=
            js_or truthy (Comment.postId comment) (Comment.post_id comment) in
          let query := {| sort := None; limit := Some 1000; offset := None |} in
          let* allComments :=
            await (call_getComments postId query)
                  (Adapter.getComments (adapter this) postId query) in
          let replies :=
            filter (λ c, js_or truthy (Comment.parentId c) (Comment.parent_id c)
                         = Some commentId)
                   allComments in
          ret (slice (sortComments replies sort) 0 limit)
      end
  end.

Definition getCount (postId : option string) : Async S Z :=
  match Adapter.getCount (adapter this) with
  | Some adapter_getCount =>
      await (call_getCount postId) (adapter_getCount postId)
  | None =>
      let query := {| sort := None; limit := Some 10000; offset := None |} in
      let* comments :=
        await (call_getComments postId query)
              (Adapter.getComments (adapter this) postId query) in
      ret (Z.of_nat (length comments))
  end.

Definition updateScore (commentId : string) (delta : Z) : Async S Z :=
  match Adapter.updateScore (adapter this) with
  | None => throw (Error "Adapter does not support updateScore")
  | Some adapter_updateScore =>
      await (call_updateScore commentId delta)
            (adapter_updateScore commentId delta)
  end.

End Engine.

End CommentSystem.

(** ** memoryAdapter.js *)

Module MemoryAdapter.

(** The closure state of [createMemoryAdapter]: the [Map] of comments, in
    insertion order, and [idCounter]. *)
Record State := mkState {
  comments : list (string * Comment);
  idCounter : nat
}.

(** [createMemoryAdapter()] starts from an empty map. *)
Definition initial : State := {| comments := []; idCounter := 0 |}.

(** [comments.get(id)] *)
Fixpoint map_get (k : string) (m : list (string * Comment)) : option Comment :=
  match m with
  | [] => None
  | (k', v) :: m' => if String.eqb k' k then Some v else map_get k m'
  end.

(** [comments.set(id, value)]: a key that is present keeps its place. *)
Fixpoint map_set (k : string) (v : Comment) (m : list (string * Comment))
    : list (string * Comment) :=
  match m with
  | [] => [(k, v)]
  | (k', v') :: m' =>
      if String.eqb k' k then (k, v) :: m' else (k', v') :: map_set k v m'
  end.

(** [comments.values()] *)
Definition map_values (m : list (string * Comment)) : list Comment := m.*2.

Definition getComment (id : string) : AdapterOp State (option Comment) :=
  λ _ st, (inr (map_get id (comments st)), st).

Definition getComments (postId : option string) (query : QueryOptions)
    : AdapterOp State (list Comment) :=
  λ _ st,
    let sort := Some (nullish (sort query) "top") in
    let limit := nullish (limit query) 100 in
    let offset := nullish (offset query) 0 in
    let postComments :=
      filter (λ comment, Comment.postId comment = postId)
             (map_values (comments st)) in
    let sorted := sortComments postComments sort in
    (inr (slice sorted offset (offset + limit)), st).

Definition saveComment (comment : Draft) : AdapterOp State Comment :=
  λ now st,
    let idCounter := S (idCounter st) in
    let id := "comment_" +:+ pretty idCounter in
    let saved :=
      {| Comment.id := id;
         Comment.postId := draft_postId comment;
         Comment.post_id := None;
         Comment.authorId := draft_authorId comment;
         Comment.author_id := None;
         Comment.content := draft_content comment;
         Comment.parentId := draft_parentId comment;
         Comment.parent_id := None;
         Comment.depth := draft_depth comment;
         Comment.score := draft_score comment;
         Comment.upvotes := draft_upvotes comment;
         Comment.downvotes := draft_downvotes comment;
         Comment.isDeleted := false;
         Comment.createdAt :=
           js_or date_truthy (draft_createdAt comment) (Some now);
         Comment.created_at := None |} in
    (inr saved,
     {| comments := map_set id saved (comments st); idCounter := idCounter |}).

(** The soft delete: the stored object is updated in place. *)
Definition mark_deleted (comment : Comment) : Comment :=
  {| Comment.id := Comment.id comment;
     Comment.postId := Comment.postId comment;
     Comment.post_id := Comment.post_id comment;
     Comment.authorId := Comment.authorId comment;
     Comment.author_id := Comment.author_id comment;
     Comment.content := "[deleted]";
     Comment.parentId := Comment.parentId comment;
     Comment.parent_id := Comment.parent_id comment;
     Comment.depth := Comment.depth comment;
     Comment.score := Comment.score comment;
     Comment.upvotes := Comment.upvotes comment;
     Comment.downvotes := Comment.downvotes comment;
     Comment.isDeleted := true;
     Comment.createdAt := Comment.createdAt comment;
     Comment.created_at := Comment.created_at comment |}.

Definition deleteComment (id : string) : AdapterOp State unit :=
  λ _ st,
    match map_get id (comments st) with
    | Some comment =>
        (inr tt,
         {| comments := map_set id (mark_deleted comment) (comments st);
            idCounter := idCounter st |})
    | None => (inr tt, st)
    end.

Definition set_score (score : Z) (comment : Comment) : Comment :=
  {| Comment.id := Comment.id comment;
     Comment.postId := Comment.postId comment;
     Comment.post_id := Comment.post_id comment;
     Comment.authorId := Comment.authorId comment;
     Comment.author_id := Comment.author_id comment;
     Comment.content := Comment.content comment;
     Comment.parentId := Comment.parentId comment;
     Comment.parent_id := Comment.parent_id comment;
     Comment.depth := Comment.depth comment;
     Comment.score := Some score;
     Comment.upvotes := Comment.upvotes comment;
     Comment.downvotes := Comment.downvotes comment;
     Comment.isDeleted := Comment.isDeleted comment;
     Comment.createdAt := Comment.createdAt comment;
     Comment.created_at := Comment.created_at comment |}.

Definition updateScore (id : string) (delta : Z) : AdapterOp State Z :=
  λ _ st,
    match map_get id (comments st) with
    | Some comment =>
        let score := number_add (number_or (Comment.score comment) 0) delta in
        (inr score,
         {| comments := map_set id (set_score score comment) (comments st);
            idCounter := idCounter st |})
    | None => (inr 0, st)
    end.

Definition getReplies (commentId : string) (query : QueryOptions)
    : AdapterOp State (list Comment) :=
  λ _ st,
    let sort := Some (nullish (sort query) "top") in
    let limit := nullish (limit query) 25 in
    let replies :=
      filter (λ comment, Comment.parentId comment = Some commentId)
             (map_values (comments st)) in
    (inr (slice (sortComments replies sort) 0 limit), st).

Definition getCount (postId : option string) : AdapterOp State Z :=
  λ _ st,
    (inr (Z.of_nat
            (length (filter (λ comment, Comment.postId comment = postId)
                            (map_values (comments st))))),
     st).

Definition clear : AdapterOp State unit :=
  λ _ _, (inr tt, initial).

Definition _getAll (st : State) : list Comment := map_values (comments st).

(** The object that [createMemoryAdapter] returns. *)
Definition createMemoryAdapter : Adapter.Object State :=
  {| Adapter.obj_getComment := Some getComment;
     Adapter.obj_getComments := Some getComments;
     Adapter.obj_saveComment := Some saveComment;
     Adapter.obj_deleteComment := Some deleteComment;
     Adapter.obj_updateScore := Some updateScore;
     Adapter.obj_getReplies := Some getReplies;
     Adapter.obj_getCount := Some getCount |}.

End MemoryAdapter.

(** * The vocabulary of the properties *)

(** ** Collections and forests *)

Definition ids (C : list Comment) : list string := Comment.id <$> C.

(** The comments of [C] whose parent reference is [p], in the order of [C]. *)
Definition children (C : list Comment) (p : string) : list Comment :=
  filter (λ c, parentKey c = Some p) C.

(** [c] has a parent reference that some comment of [C] answers. *)
Definition attached (C : list Comment) (c : Comment) : Prop :=
  match parentKey c with
  | Some p => p ∈ ids C
  | None => False
  end.

Global Instance attached_dec C c : Decision (attached C c).
Proof. unfold attached. destruct (parentKey c); apply _. Defined.

(** The comments of [C] that are not attached, in the order of [C]. *)
Definition root_comments (C : list Comment) : list Comment :=
  filter (λ c, ¬ attached C c) C.

(** The node that the first pass leaves under the key [k]: built from the
    last comment of [C] that has this id. *)
Definition latest (C : list Comment) (k : string) : option Comment :=
  last (filter (λ c, Comment.id c = k) C).

(** [commentMap.has(parentId)] for the parent reference of [c]. *)
Definition answered (m : gmap string Node) (c : Comment) : Prop :=
  match parentKey c with
  | Some p => is_Some (m !! p)
  | None => False
  end.

Global Instance answered_dec m c : Decision (answered m c).
Proof. unfold answered. destruct (parentKey c); apply _. Defined.

(** The pre-order listing of [rs] and their descendants in [C], cut below
    [n] generations. *)
Fixpoint preorder (C : list Comment) (n : nat) (rs : list Comment)
    : list Comment :=
  match n with
  | O => []
  | S n' => rs ≫= (λ r, r :: preorder C n' (children C (Comment.id r)))
  end.

Global Instance preorder_Permutation C n :
  Proper ((≡ₚ) ==> (≡ₚ)) (preorder C n).
Proof. destruct n; intros l1 l2 Hl; [done|]. simpl. by rewrite Hl. Qed.

(** [lvl] gives every comment of [C] its generation: 0 for a root, one more
    than its parent's for an attached comment. *)
Definition generations (C : list Comment) (lvl : string → nat) : Prop :=
  ∀ c, c ∈ C →
    lvl (Comment.id c)
    = match parentKey c with
      | Some p => if decide (p ∈ ids C) then S (lvl p) else O
      | None => O
      end.

(** The parent references of [C] are well founded: [rank] decreases from
    every attached comment to its parent. *)
Definition acyclic (C : list Comment) (rank : string → nat) : Prop :=
  ∀ c p, c ∈ C → parentKey c = Some p → p ∈ ids C →
    (rank p < rank (Comment.id c))%nat.

(** The number of parent references to follow from the id [k] up to a root,
    at most [n]. *)
Fixpoint level_upto (C : list Comment) (n : nat) (k : string) : nat :=
  match n with
  | O => O
  | S n' =>
      match latest C k with
      | Some c =>
          match parentKey c with
          | Some p => if decide (p ∈ ids C) then S (level_upto C n' p) else O
          | None => O
          end
      | None => O
      end
  end.

(** A rank that stays below the number of comments. *)
Definition compact_rank (C : list Comment) (rank : string → nat) (k : string)
    : nat :=
  length (filter (λ c, (rank (Comment.id c) < rank k)%nat) C).

(** ** Relative order *)

(** [a] stands at an earlier position of [l] than [b]. *)
Definition precedes {A} (l : list A) (a b : A) : Prop :=
  ∃ i j, l !! i = Some a ∧ l !! j = Some b ∧ (i < j)%nat.


(** ** Concrete collections *)

(** The object literal [{ id, parentId }]. *)
Definition bare (id : string) (parentId : option string) : Comment :=
  {| Comment.id := id;
     Comment.postId := None;
     Comment.post_id := None;
     Comment.authorId := None;
     Comment.author_id := None;
     Comment.content := "";
     Comment.parentId := parentId;
     Comment.parent_id := None;
     Comment.depth := None;
     Comment.score := None;
     Comment.upvotes := None;
     Comment.downvotes := None;
     Comment.isDeleted := false;
     Comment.createdAt := None;
     Comment.created_at := None |}.

(** The collection of the test [buildTree creates nested structure],
    extended by a reply that stands before its parent and by a second reply
    to the first root. *)
Definition small_thread : list Comment :=
  [bare "4" (Some "3"); bare "1" None; bare "2" (Some "1"); bare "3" None;
   bare "5" (Some "1")].

(** A rank for [small_thread]: replies above roots. *)
Definition small_rank (k : string) : nat :=
  if bool_decide (k ∈ ["2"; "4"; "5"]) then 1%nat else 0%nat.

(** A comment that names itself as parent. *)
Definition self_reply : list Comment := [bare "1" (Some "1")].


(** The condition of [acyclic] on one comment, in a form that computes. *)
Definition parent_ranked (C : list Comment) (rank : string → nat)
    (c : Comment) : Prop :=
  match parentKey c with
  | Some p => p ∈ ids C → (rank p < rank (Comment.id c))%nat
  | None => True
  end.

Global Instance parent_ranked_dec C rank c : Decision (parent_ranked C rank c).
Proof. unfold parent_ranked. destruct (parentKey c); apply _. Defined.

(** ** Votes *)








(** ** The order of [top] *)

(** The comment carries a creation time. *)
Definition has_time (c : Comment) : Prop := is_Some (getTime c).

Global Instance has_time_dec c : Decision (has_time c).
Proof. unfold has_time. apply _. Defined.

(** [a] may stand before [b] under ['top']: a higher score or, at equal
    scores, a creation time that is not older. *)
Definition top_order (a b : Comment) : Prop :=
  nullish (Comment.score b) 0 < nullish (Comment.score a) 0
  ∨ (nullish (Comment.score a) 0 = nullish (Comment.score b) 0
     ∧ nullish (getTime b) 0 ≤ nullish (getTime a) 0).

(** [a] and [b] are alike for the tie-break: when they tie on score, both
    carry a creation time or neither does. *)
Definition alike (a b : Comment) : Prop :=
  nullish (Comment.score a) 0 = nullish (Comment.score b) 0 →
  (has_time a ↔ has_time b).

Global Instance alike_dec a b : Decision (alike a b).
Proof. unfold alike. apply _. Defined.

(** [a] is alike to every comment of [comments]. *)
Definition alike_all (comments : list Comment) (a : Comment) : Prop :=
  Forall (alike a) comments.

Global Instance alike_all_dec comments a : Decision (alike_all comments a).
Proof. unfold alike_all. apply _. Defined.


(** The object literal [{ id, score, createdAt }]. *)
Definition timed (id : string) (score createdAt : Z) : Comment :=
  {| Comment.id := id;
     Comment.postId := None;
     Comment.post_id := None;
     Comment.authorId := None;
     Comment.author_id := None;
     Comment.content := "";
     Comment.parentId := None;
     Comment.parent_id := None;
     Comment.depth := None;
     Comment.score := Some score;
     Comment.upvotes := None;
     Comment.downvotes := None;
     Comment.isDeleted := false;
     Comment.createdAt := Some createdAt;
     Comment.created_at := None |}.

(** The comments of the test [sortComments by top]: scores and no creation
    time. *)
Definition scored (id : string) (score : Z) : Comment :=
  {| Comment.id := id;
     Comment.postId := None;
     Comment.post_id := None;
     Comment.authorId := None;
     Comment.author_id := None;
     Comment.content := "";
     Comment.parentId := None;
     Comment.parent_id := None;
     Comment.depth := None;
     Comment.score := Some score;
     Comment.upvotes := None;
     Comment.downvotes := None;
     Comment.isDeleted := false;
     Comment.createdAt := None;
     Comment.created_at := None |}.

(** ** Runs of the engine *)

Local Abbreviation max_depth this :=
  (CommentSystem.maxDepth (CommentSystem.options this)).
Local Abbreviation max_length this :=
  (CommentSystem.maxLength (CommentSystem.options this)).

(** The world after the call [c] has run and left the storage [st]. *)
Definition called {S} (c : Call) (st : S) (w : World S) : World S :=
  {| storage := st; calls := calls w ++ [c]; now := now w |}.

(** The outcome of an awaited storage operation. *)
Definition settled {A} (r : JsError + A) : Outcome A :=
  match r with
  | inr a => Returned a
  | inl e => Rejected e
  end.

(** The record that the adapter hands out for [commentId]. *)
Definition fetch {S} (this : CommentSystem.t S) (commentId : string)
    (w : World S) : (JsError + option Comment) * S :=
  Adapter.getComment (CommentSystem.adapter this) commentId (now w) (storage w).

(** [parent.postId !== postId && parent.post_id !== postId] is false. *)
Definition belongs_to (parent : Comment) (postId : string) : Prop :=
  Comment.postId parent = Some postId ∨ Comment.post_id parent = Some postId.

Global Instance belongs_to_dec parent postId : Decision (belongs_to parent postId).
Proof. unfold belongs_to. apply _. Defined.

(** The object literal that [reply] hands to [saveComment]. *)
Definition reply_draft (postId parentId authorId validatedContent : string)
    (newDepth createdAt : Z) : Draft :=
  {| draft_postId := Some postId;
     draft_authorId := Some authorId;
     draft_content := validatedContent;
     draft_parentId := Some parentId;
     draft_depth := Some newDepth;
     draft_score := Some 0;
     draft_upvotes := Some 0%float;
     draft_downvotes := Some 0%float;
     draft_createdAt := Some createdAt |}.

Definition max_depth_error (maxDepth : Z) : JsError :=
  CommentError ("Maximum comment depth of " +:+ pretty maxDepth +:+ " exceeded")
               "MAX_DEPTH".

(** ** The engine on the in-memory adapter *)

(** The adapter of [createMemoryAdapter], with its seven methods. *)
Definition memory_adapter : Adapter.t MemoryAdapter.State :=
  {| Adapter.getComment := MemoryAdapter.getComment;
     Adapter.getComments := MemoryAdapter.getComments;
     Adapter.saveComment := MemoryAdapter.saveComment;
     Adapter.deleteComment := MemoryAdapter.deleteComment;
     Adapter.updateScore := Some MemoryAdapter.updateScore;
     Adapter.getReplies := Some MemoryAdapter.getReplies;
     Adapter.getCount := Some MemoryAdapter.getCount |}.

(** [new CommentSystem(createMemoryAdapter(), { maxDepth, maxLength })] *)
Definition memory_system (maxDepth maxLength : Z)
    : CommentSystem.t MemoryAdapter.State :=
  {| CommentSystem.adapter := memory_adapter;
     CommentSystem.options :=
       {| CommentSystem.maxDepth := maxDepth;
          CommentSystem.maxLength := maxLength |} |}.

(** A world in which the adapter has just been created. *)
Definition fresh_world : World MemoryAdapter.State :=
  {| storage := MemoryAdapter.initial; calls := []; now := 0 |}.

(** The object literal that [create] hands to [saveComment]. *)
Definition create_draft (postId authorId validatedContent : string)
    (createdAt : Z) : Draft :=
  {| draft_postId := Some postId;
     draft_authorId := Some authorId;
     draft_content := validatedContent;
     draft_parentId := None;
     draft_depth := Some 0;
     draft_score := Some 0;
     draft_upvotes := Some 0%float;
     draft_downvotes := Some 0%float;
     draft_createdAt := Some createdAt |}.

(** [n] replies in a row: each one answers the one before, the first one
    answers [root]. *)
Fixpoint reply_chain {S} (this : CommentSystem.t S) (postId authorId : string)
    (content : CommentSystem.ContentArg) (n : nat) (root : Comment)
    : Async S Comment :=
  match n with
  | O => ret root
  | S n' =>
      let* parent := reply_chain this postId authorId content n' root in
      CommentSystem.reply this (Some postId) (Some (Comment.id parent))
        (Some authorId) content
  end.

(** A root comment and then [n] replies in a row. *)
Definition reply_thread {S} (this : CommentSystem.t S) (postId authorId : string)
    (content : CommentSystem.ContentArg) (n : nat) : Async S Comment :=
  let* root := CommentSystem.create this (Some postId) (Some authorId) content in
  reply_chain this postId authorId content n root.

(** A comment as the in-memory adapter holds it after the engine stored
    it. *)
Definition stored_at (c : Comment) (postId : string) (d : Z)
    (w : World MemoryAdapter.State) : Prop :=
  MemoryAdapter.map_get (Comment.id c) (MemoryAdapter.comments (storage w)) = Some c
  ∧ Comment.id c ≠ ""
  ∧ Comment.postId c = Some postId
  ∧ Comment.depth c = Some d.

(** A stored comment of [post_1] that carries no [depth]. *)
Definition legacy_parent : Comment :=
  {| Comment.id := "c1";
     Comment.postId := Some "post_1";
     Comment.post_id := None;
     Comment.authorId := Some "agent_1";
     Comment.author_id := None;
     Comment.content := "Parent comment";
     Comment.parentId := None;
     Comment.parent_id := None;
     Comment.depth := None;
     Comment.score := None;
     Comment.upvotes := None;
     Comment.downvotes := None;
     Comment.isDeleted := false;
     Comment.createdAt := None;
     Comment.created_at := None |}.

Definition legacy_world : World MemoryAdapter.State :=
  {| storage :=
       {| MemoryAdapter.comments := [("c1", legacy_parent)];
          MemoryAdapter.idCounter := 1 |};
     calls := [];
     now := 0 |}.

(** The content that [_validateContent] rejects as empty: missing, not a
    string, or a string that trims to the empty one. *)
Definition empty_content (content : CommentSystem.ContentArg) : Prop :=
  match content with
  | CommentSystem.content_string s => trim s = ""
  | _ => True
  end.

(** [comment.authorId || comment.author_id] *)
Definition effective_author (comment : Comment) : option string :=
  js_or truthy (Comment.authorId comment) (Comment.author_id comment).

(** The comment resolves and its author is [agentId]. *)
Definition deletable {S} (this : CommentSystem.t S) (commentId agentId : string)
    (w : World S) : bool :=
  match (fetch this commentId w).1 with
  | inr (Some comment) => bool_decide (effective_author comment = Some agentId)
  | _ => false
  end.

(** What deletion must leave alone: identity, post, author, links, depth. *)
Definition links (c : Comment)
    : string * option string * option string * option string * option string
      * option string * option string * option Z :=
  (Comment.id c, Comment.postId c, Comment.post_id c, Comment.authorId c,
   Comment.author_id c, Comment.parentId c, Comment.parent_id c,
   Comment.depth c).

(** The thread of the test [delete rejects wrong author]: the comment of
    [agent_1] is not deleted for [agent_2], and is for [agent_1]. *)
Definition one_comment_world : World MemoryAdapter.State :=
  (CommentSystem.create (memory_system 10 10000) (Some "post_1")
     (Some "agent_1") (CommentSystem.content_string "My comment")
     fresh_world).2.

(** ** Error codes *)

(** The codes of the errors that the engine throws. *)
Definition engine_codes : list string :=
  ["MISSING_POST"; "MISSING_AUTHOR"; "MISSING_PARENT"; "EMPTY_CONTENT";
   "MAX_LENGTH"; "PARENT_NOT_FOUND"; "INVALID_PARENT"; "MAX_DEPTH";
   "NOT_FOUND"; "FORBIDDEN"].

(** The error carries one of the engine's codes, and the code is not its
    message. *)
Definition coded (e : JsError) : Prop :=
  match e with
  | CommentError message code => code ∈ engine_codes ∧ message ≠ code
  | Error _ => False
  end.

(** The object literal [{}]: an adapter with no method. *)
Definition empty_adapter : Adapter.Object unit :=
  {| Adapter.obj_getComment := None;
     Adapter.obj_getComments := None;
     Adapter.obj_saveComment := None;
     Adapter.obj_deleteComment := None;
     Adapter.obj_updateScore := None;
     Adapter.obj_getReplies := None;
     Adapter.obj_getCount := None |}.

(** The in-memory adapter cut down to the four required methods. *)
Definition required_only : Adapter.t MemoryAdapter.State :=
  {| Adapter.getComment := MemoryAdapter.getComment;
     Adapter.getComments := MemoryAdapter.getComments;
     Adapter.saveComment := MemoryAdapter.saveComment;
     Adapter.deleteComment := MemoryAdapter.deleteComment;
     Adapter.updateScore := None;
     Adapter.getReplies := None;
     Adapter.getCount := None |}.

Definition required_only_system : CommentSystem.t MemoryAdapter.State :=
  {| CommentSystem.adapter := required_only;
     CommentSystem.options := CommentSystem.DEFAULT_OPTIONS |}.

(** ** Stores, sessions and orders *)

(** [a] may stand before [b] under ['new']: [a] is not older. *)
Definition new_order (a b : Comment) : Prop :=
  nullish (getTime b) 0 ≤ nullish (getTime a) 0.

(** [a] may stand before [b] under ['old']: [a] is not newer. *)
Definition old_order (a b : Comment) : Prop :=
  nullish (getTime a) 0 ≤ nullish (getTime b) 0.

(** The comments of a post in the in-memory store, in the order of the
    map. *)
Definition post_comments (st : MemoryAdapter.State) (postId : option string)
    : list Comment :=
  filter (λ comment, Comment.postId comment = postId)
         (MemoryAdapter.map_values (MemoryAdapter.comments st)).

(** The page that the in-memory [getComments] resolves to. *)
Definition page (st : MemoryAdapter.State) (postId : option string)
    (sort : option string) (offset limit : Z) : list Comment :=
  match (MemoryAdapter.getComments postId
           {| sort := sort; limit := Some limit; offset := Some offset |}
           0 st).1 with
  | inr comments => comments
  | inl _ => []
  end.

(** The store is well formed: the keys of the map are distinct, every
    comment is stored under its own id, and every id is [comment_n] for some
    [n] from 1 to [idCounter]. *)
Definition wf_store (st : MemoryAdapter.State) : Prop :=
  NoDup (MemoryAdapter.comments st).*1
  ∧ ∀ k c,
      MemoryAdapter.map_get k (MemoryAdapter.comments st) = Some c →
      Comment.id c = k
      ∧ ∃ n, k = "comment_" +:+ pretty n
             ∧ (1 ≤ n ≤ MemoryAdapter.idCounter st)%nat.

(** [c.parentId || c.parent_id] is [commentId]. *)
Definition answers (commentId : string) (c : Comment) : Prop :=
  js_or truthy (Comment.parentId c) (Comment.parent_id c) = Some commentId.

Global Instance answers_dec commentId c : Decision (answers commentId c).
Proof. unfold answers. apply _. Defined.

(** A root comment and one reply to it, in the in-memory store. *)
Definition one_reply_world : World MemoryAdapter.State :=
  (reply_thread (memory_system 10 10000) "post_1" "agent_1"
     (CommentSystem.content_string "Hello") 1 fresh_world).2.

(** What a client asks of the engine. *)
Inductive Request :=
  | request_create (postId authorId : option string)
      (content : CommentSystem.ContentArg)
  | request_reply (postId parentId authorId : option string)
      (content : CommentSystem.ContentArg)
  | request_getThread (postId : option string) (query : QueryOptions)
  | request_getComment (id : string)
  | request_delete (commentId agentId : string)
  | request_getReplies (commentId : string) (query : QueryOptions)
  | request_getCount (postId : option string)
  | request_updateScore (commentId : string) (delta : Z).

(** The world after a request, whether it returned or failed. *)
Definition perform {S} (this : CommentSystem.t S) (request : Request)
    (w : World S) : World S :=
  match request with
  | request_create postId authorId content =>
      (CommentSystem.create this postId authorId content w).2
  | request_reply postId parentId authorId content =>
      (CommentSystem.reply this postId parentId authorId content w).2
  | request_getThread postId query =>
      (CommentSystem.getThread this postId query w).2
  | request_getComment id => (CommentSystem.getComment this id w).2
  | request_delete commentId agentId =>
      (CommentSystem.delete this commentId agentId w).2
  | request_getReplies commentId query =>
      (CommentSystem.getReplies this commentId query w).2
  | request_getCount postId => (CommentSystem.getCount this postId w).2
  | request_updateScore commentId delta =>
      (CommentSystem.updateScore this commentId delta w).2
  end.

Definition at_time {S} (time : Z) (w : World S) : World S :=
  {| storage := storage w; calls := calls w; now := time |}.

(** A session: requests made one after the other, each at its time; a
    request that fails is caught and the session goes on. *)
Fixpoint session {S} (this : CommentSystem.t S) (requests : list (Z * Request))
    (w : World S) : World S :=
  match requests with
  | [] => w
  | (time, request) :: requests =>
      session this requests (perform this request (at_time time w))
  end.

(** A comment as the engine stores it in [st]: camel-case fields only, a
    post and an author, a score and a creation time, a content that is not
    empty and within [maxLength] unless deleted; a root has depth 0, a reply
    has a stored parent of the same post, one level up, and a depth from 1 to
    [maxDepth]. *)
Definition engine_made (maxDepth maxLength : Z) (st : MemoryAdapter.State)
    (c : Comment) : Prop :=
  Comment.post_id c = None ∧ Comment.author_id c = None
  ∧ Comment.parent_id c = None
  ∧ truthy (Comment.postId c) = true ∧ truthy (Comment.authorId c) = true
  ∧ is_Some (Comment.score c) ∧ is_Some (Comment.createdAt c)
  ∧ Comment.content c ≠ ""
  ∧ (if Comment.isDeleted c then Comment.content c = "[deleted]"
     else Z.of_nat (String.length (Comment.content c)) ≤ maxLength)
  ∧ ∃ d, Comment.depth c = Some d
         ∧ match Comment.parentId c with
           | None => d = 0
           | Some p =>
               p ≠ "" ∧ 1 ≤ d ≤ maxDepth
               ∧ ∃ parent,
                   MemoryAdapter.map_get p (MemoryAdapter.comments st)
                   = Some parent
                   ∧ Comment.depth parent = Some (d - 1)
                   ∧ Comment.postId parent = Comment.postId c
           end.

Definition thread_inv (maxDepth maxLength : Z) (st : MemoryAdapter.State)
    : Prop :=
  wf_store st
  ∧ ∀ k c,
      MemoryAdapter.map_get k (MemoryAdapter.comments st) = Some c →
      engine_made maxDepth maxLength st c.

(** The depth that the store holds for the id [k]. *)
Definition stored_depth (st : MemoryAdapter.State) (k : string) : nat :=
  match MemoryAdapter.map_get k (MemoryAdapter.comments st) with
  | Some c => Z.to_nat (nullish (Comment.depth c) 0)
  | None => 0
  end.

(** The requests of a small session: a comment, a reply to it, and a second
    comment. *)
Definition small_session : list (Z * Request) :=
  [(1, request_create (Some "post_1") (Some "agent_1")
         (CommentSystem.content_string "Comment 1"));
   (2, request_reply (Some "post_1") (Some "comment_1") (Some "agent_2")
         (CommentSystem.content_string "Reply to 1"));
   (3, request_create (Some "post_1") (Some "agent_3")
         (CommentSystem.content_string "Comment 2"))].

(** The [Map] of id to comment that the store holds, as [getDepth] takes
    it. *)
Definition comment_map (st : MemoryAdapter.State) : gmap string Comment :=
  list_to_map (MemoryAdapter.comments st).

(** The order of a policy other than ['controversial']. *)
Definition policy_order (sort : option string) : relation Comment :=
  let sort := nullish sort "top" in
  if String.eqb sort "new" then new_order
  else if String.eqb sort "old" then old_order
  else top_order.



(** How a stored comment may change: its identity, post, author, parent
    links, depth and creation time stay; once deleted it stays deleted; its
    content stays or becomes [[deleted]]. *)
Definition evolves (c c' : Comment) : Prop :=
  links c' = links c
  ∧ Comment.createdAt c' = Comment.createdAt c
  ∧ (Comment.isDeleted c = true → Comment.isDeleted c' = true)
  ∧ (Comment.content c' = Comment.content c
     ∨ Comment.content c' = "[deleted]").

(** The store [st'] holds the comments of [st] under the same keys, in the
    same order, possibly followed by new ones. *)
Definition store_extends (st st' : MemoryAdapter.State) : Prop :=
  (MemoryAdapter.comments st).*1 `prefix_of` (MemoryAdapter.comments st').*1
  ∧ ∀ k c,
      MemoryAdapter.map_get k (MemoryAdapter.comments st) = Some c →
      ∃ c', MemoryAdapter.map_get k (MemoryAdapter.comments st') = Some c'
            ∧ evolves c c'.

(** * Properties *)

(** ** The shape of the forest that [buildTree] returns *)

Lemma parentKey_truthy c p : parentKey c = Some p → p ≠ "".
Proof.
  unfold parentKey. destruct (truthy _) eqn:E; [|done].
  intros H. rewrite H in E. simpl in E. intros ->. done.
Qed.

Lemma first_pass_fold (C : list Comment) (m : gmap string Node) k :
  foldl (λ commentMap comment,
           <[Comment.id comment := {| data := comment; replies := [] |}]> commentMap)
        m C !! k
  = match latest C k with
    | Some c => Some {| data := c; replies := [] |}
    | None => m !! k
    end.
Proof.
  revert m. induction C as [|c C IH]; intros m; [done|].
  simpl. rewrite IH. unfold latest. rewrite filter_cons.
  destruct (decide (Comment.id c = k)) as [->|Hne].
  - rewrite last_cons. destruct (last _); [done|]. by rewrite lookup_insert_eq.
  - destruct (last _); [done|]. by rewrite lookup_insert_ne.
Qed.

Lemma first_pass_lookup C k :
  first_pass C !! k = (λ c, {| data := c; replies := [] |}) <$> latest C k.
Proof.
  unfold first_pass. rewrite first_pass_fold.
  destruct (latest C k); [done|]. by rewrite lookup_empty.
Qed.

Lemma latest_is_Some C k : is_Some (latest C k) ↔ k ∈ ids C.
Proof.
  unfold latest, ids. rewrite list_elem_of_fmap. split.
  - intros [c Hc]. apply last_Some_elem_of in Hc.
    apply list_elem_of_filter in Hc as [<- Hc]. eauto.
  - intros (c & -> & Hc).
    destruct (last (filter (λ c0, Comment.id c0 = Comment.id c) C)) eqn:E; [eauto|].
    apply last_None in E.
    assert (c ∈ filter (λ c0, Comment.id c0 = Comment.id c) C) as Hin
      by (by apply list_elem_of_filter).
    rewrite E in Hin. by apply elem_of_nil in Hin.
Qed.

Lemma latest_NoDup C c :
  NoDup (ids C) → c ∈ C → latest C (Comment.id c) = Some c.
Proof.
  unfold latest, ids. induction C as [|x C IH]; intros Hnd Hin.
  - by apply elem_of_nil in Hin.
  - rewrite fmap_cons in Hnd. apply NoDup_cons in Hnd as [Hx Hnd].
    rewrite filter_cons. apply elem_of_cons in Hin as [->|Hin].
    + rewrite decide_True by done. rewrite last_cons.
      destruct (last _) as [y|] eqn:E; [|done].
      apply last_Some_elem_of, list_elem_of_filter in E as [Hy E].
      exfalso. apply Hx. rewrite <- Hy. by apply list_elem_of_fmap_2.
    + destruct (decide (Comment.id x = Comment.id c)) as [Heq|Hne]; [|by apply IH].
      exfalso. apply Hx. rewrite Heq. by apply list_elem_of_fmap_2.
Qed.

(** The second pass, started on any map and any array of roots. *)
Lemma second_pass_fold (l : list Comment) (m : gmap string Node) (rs : list string) :
  ∃ m',
    foldl second_pass_step (m, rs) l
    = (m', rs ++ ids (filter (λ c, ¬ answered m c) l))
    ∧ ∀ p, m' !! p
           = (λ n, {| data := data n;
                      replies := replies n ++ ids (children l p) |}) <$> m !! p.
Proof.
  revert m rs. induction l as [|c l IH]; intros m rs.
  - exists m. split; [by rewrite app_nil_r|].
    intros p. destruct (m !! p) as [[d r]|]; simpl; [|done].
    by rewrite app_nil_r.
  - simpl.
    assert (∀ p, ids (children (c :: l) p)
                 = (if decide (parentKey c = Some p) then [Comment.id c] else [])
                   ++ ids (children l p)) as Hch.
    { intros p. unfold children. rewrite filter_cons. by case_decide. }
    destruct (parentKey c) as [q|] eqn:Hq.
    + case_bool_decide as Hs.
      * destruct (IH (alter (push_reply (Comment.id c)) q m) rs) as (m' & -> & Hm').
        exists m'. split.
        -- rewrite filter_cons, decide_False
             by (unfold answered; rewrite Hq; intros Hn; by apply Hn).
           do 3 f_equal. apply list_filter_iff. intros x. unfold answered.
           destruct (parentKey x) as [p|]; [|done].
           rewrite lookup_alter. case_decide; [subst|done].
           by rewrite !fmap_is_Some.
        -- intros p. rewrite Hm', lookup_alter, Hch.
           case_decide as Hp.
           ++ subst p. rewrite decide_True by done.
              destruct (m !! q) as [[d r]|]; simpl; [|done].
              by rewrite <- app_assoc.
           ++ rewrite decide_False by congruence. done.
      * destruct (IH m (rs ++ [Comment.id c])) as (m' & -> & Hm').
        exists m'. split.
        -- rewrite filter_cons, decide_True by (unfold answered; by rewrite Hq).
           unfold ids. by rewrite fmap_cons, <- app_assoc.
        -- intros p. rewrite Hm', Hch.
           destruct (decide (Some q = Some p)) as [[= ->]|]; [|done].
           destruct (m !! p); [|done]. exfalso. apply Hs. eauto.
    + destruct (IH m (rs ++ [Comment.id c])) as (m' & -> & Hm').
      exists m'. split.
      * rewrite filter_cons, decide_True by (unfold answered; rewrite Hq; tauto).
        unfold ids. by rewrite fmap_cons, <- app_assoc.
      * intros p. rewrite Hm', Hch. by rewrite decide_False by done.
Qed.

(** The forest in closed form: the roots are the unattached comments, and
    the node of each id holds the latest comment of that id and the
    references of the comments that name it as parent, all in the order of
    the input. *)
Lemma buildTree_shape (C : list Comment) :
  roots (buildTree C) = ids (root_comments C)
  ∧ ∀ p, nodes (buildTree C) !! p
         = (λ c, {| data := c; replies := ids (children C p) |}) <$> latest C p.
Proof.
  destruct C as [|c C']; [done|].
  set (C := c :: C').
  destruct (second_pass_fold C (first_pass C) []) as (m' & Hf & Hm').
  assert (buildTree C
          = let '(commentMap, rootComments) :=
              foldl second_pass_step (first_pass C, []) C in
            {| roots := rootComments; nodes := commentMap |}) as -> by done.
  rewrite Hf. simpl. split.
  - unfold root_comments. f_equal. apply list_filter_iff. intros x.
    unfold answered, attached. destruct (parentKey x) as [p|]; [|done].
    by rewrite first_pass_lookup, fmap_is_Some, latest_is_Some.
  - intros p. rewrite Hm', first_pass_lookup. by destruct (latest C p).
Qed.

(** ** Lists: filters and positions *)

Lemma filter_ext_elem {A} (P Q : A → Prop) `{∀ x, Decision (P x)}
    `{∀ x, Decision (Q x)} (l : list A) :
  (∀ x, x ∈ l → P x ↔ Q x) → filter P l = filter Q l.
Proof.
  induction l as [|x l IH]; intros HPQ; [done|].
  rewrite !filter_cons, IH by (intros y Hy; apply HPQ; by right).
  destruct (decide (P x)) as [HP|HP], (decide (Q x)) as [HQ|HQ]; try done.
  - exfalso. apply HQ, HPQ; [by left|done].
  - exfalso. apply HP, HPQ; [by left|done].
Qed.

Lemma filter_none {A} (P : A → Prop) `{∀ x, Decision (P x)} (l : list A) :
  (∀ x, x ∈ l → ¬ P x) → filter P l = [].
Proof.
  induction l as [|x l IH]; intros HP; [done|].
  rewrite filter_cons_False by (apply HP; by left).
  apply IH. intros y Hy. apply HP. by right.
Qed.

Lemma filter_all {A} (P : A → Prop) `{∀ x, Decision (P x)} (l : list A) :
  (∀ x, x ∈ l → P x) → filter P l = l.
Proof.
  induction l as [|x l IH]; intros HP; [done|].
  rewrite filter_cons_True by (apply HP; by left).
  f_equal. apply IH. intros y Hy. apply HP. by right.
Qed.

(** Two filters that exclude each other add up to the filter of the
    disjunction. *)
Lemma filter_disjoint_union {A} (P Q : A → Prop) `{∀ x, Decision (P x)}
    `{∀ x, Decision (Q x)} (l : list A) :
  (∀ x, x ∈ l → P x → Q x → False) →
  filter P l ++ filter Q l ≡ₚ filter (λ x, P x ∨ Q x) l.
Proof.
  induction l as [|x l IH]; intros Hd; [done|].
  assert (filter P l ++ filter Q l ≡ₚ filter (λ x, P x ∨ Q x) l) as IH'
    by (apply IH; intros y Hy; apply Hd; by right).
  rewrite !filter_cons.
  destruct (decide (P x)) as [HP|HP], (decide (Q x)) as [HQ|HQ].
  - exfalso. apply (Hd x); [by left|done..].
  - rewrite decide_True by tauto. simpl. by rewrite IH'.
  - rewrite decide_True by tauto. rewrite <- Permutation_middle. by rewrite IH'.
  - rewrite decide_False by tauto. done.
Qed.

Lemma NoDup_ids_filter (P : Comment → Prop) `{∀ x, Decision (P x)} C :
  NoDup (ids C) → NoDup (ids (filter P C)).
Proof.
  unfold ids. intros Hnd. eapply sublist_NoDup; [exact Hnd|].
  apply fmap_sublist, sublist_filter.
Qed.

Lemma elem_of_ids_inv C k : k ∈ ids C → ∃ c, c ∈ C ∧ Comment.id c = k.
Proof. unfold ids. intros (c & -> & Hc)%list_elem_of_fmap. eauto. Qed.

Lemma NoDup_ids_inj C a b :
  NoDup (ids C) → a ∈ C → b ∈ C → Comment.id a = Comment.id b → a = b.
Proof.
  intros Hnd Ha Hb Hab.
  pose proof (latest_NoDup C a Hnd Ha) as H1.
  pose proof (latest_NoDup C b Hnd Hb) as H2.
  rewrite Hab in H1. congruence.
Qed.

(** ** Pre-order of the comments themselves *)

Lemma preorder_nil C n : preorder C n [] = [].
Proof. by destruct n. Qed.

Lemma preorder_cons C n r rs :
  preorder C (S n) (r :: rs)
  = r :: preorder C n (children C (Comment.id r)) ++ preorder C (S n) rs.
Proof. done. Qed.

Lemma preorder_app C n l1 l2 :
  preorder C n (l1 ++ l2) = preorder C n l1 ++ preorder C n l2.
Proof. destruct n; [done|]. simpl. apply bind_app. Qed.

(** One generation after the other: the roots, then the pre-order of all
    their children. *)
Lemma preorder_generations C n rs :
  preorder C (S n) rs ≡ₚ rs ++ preorder C n (rs ≫= λ r, children C (Comment.id r)).
Proof.
  induction rs as [|r rs IH]; [simpl; by rewrite preorder_nil|].
  rewrite preorder_cons, IH, bind_cons, preorder_app. simpl.
  f_equiv. rewrite !app_assoc. f_equiv. apply Permutation_app_comm.
Qed.

(** The children of a list of parents with distinct ids are the comments
    whose parent reference is among them. *)
Lemma children_of_list C (R : list Comment) :
  NoDup (ids R) →
  R ≫= (λ r, children C (Comment.id r))
  ≡ₚ filter (λ c, parentKey c ∈ (Some <$> ids R)) C.
Proof.
  induction R as [|r R IH]; intros Hnd.
  - simpl. symmetry. rewrite filter_none; [done|].
    intros x _ Hx. by apply elem_of_nil in Hx.
  - unfold ids in Hnd. rewrite fmap_cons in Hnd.
    apply NoDup_cons in Hnd as [Hr Hnd].
    rewrite bind_cons, IH by done. unfold children.
    rewrite filter_disjoint_union.
    + apply reflexive_eq, list_filter_iff. intros x.
      unfold ids. rewrite !fmap_cons, elem_of_cons. naive_solver.
    + intros x _ Hx1 Hx2. rewrite Hx1 in Hx2.
      apply list_elem_of_fmap in Hx2 as (k & [= <-] & Hk). by apply Hr.
Qed.

(** ** Generations *)

Section generations.
Variable C : list Comment.
Variable lvl : string → nat.
Hypothesis Hnd : NoDup (ids C).
Hypothesis Hlvl : generations C lvl.

Lemma root_generation c : c ∈ C → ¬ attached C c ↔ lvl (Comment.id c) = O.
Proof.
  intros Hc. rewrite (Hlvl c Hc). unfold attached.
  destruct (parentKey c) as [p|]; [|tauto].
  case_decide; [|tauto]. split; [tauto|done].
Qed.

Lemma child_generation c p :
  c ∈ C → parentKey c = Some p → p ∈ ids C → lvl (Comment.id c) = S (lvl p).
Proof. intros Hc Hp Hin. rewrite (Hlvl c Hc), Hp. by rewrite decide_True. Qed.

Lemma next_generation k :
  filter (λ c, lvl (Comment.id c) = k) C ≫= (λ r, children C (Comment.id r))
  ≡ₚ filter (λ c, lvl (Comment.id c) = S k) C.
Proof.
  rewrite children_of_list by by apply NoDup_ids_filter.
  apply reflexive_eq, filter_ext_elem. intros c Hc. split.
  - intros (q & Hq & (r & -> & [Hr Hin]%list_elem_of_filter)%list_elem_of_fmap)%list_elem_of_fmap.
    rewrite <- Hr. apply child_generation; [done..|]. by apply list_elem_of_fmap_2.
  - intros Hk. rewrite (Hlvl c Hc) in Hk.
    destruct (parentKey c) as [p|]; [|done]. case_decide as Hp; [|done].
    apply list_elem_of_fmap_2.
    destruct (elem_of_ids_inv _ _ Hp) as (r & Hr & <-).
    apply list_elem_of_fmap_2, list_elem_of_filter. split; [congruence|done].
Qed.

(** [n] generations from generation [k] on. *)
Lemma preorder_band n : ∀ k rs,
  rs ≡ₚ filter (λ c, lvl (Comment.id c) = k) C →
  preorder C n rs ≡ₚ filter (λ c, (k ≤ lvl (Comment.id c) < k + n)%nat) C.
Proof.
  induction n as [|n IH]; intros k rs Hrs.
  - simpl. rewrite filter_none; [done|]. intros; lia.
  - rewrite preorder_generations.
    rewrite (IH (S k)) by (by rewrite Hrs, next_generation).
    rewrite Hrs, filter_disjoint_union by (intros; lia).
    apply reflexive_eq, list_filter_iff. intros c. lia.
Qed.

Lemma preorder_roots n :
  (∀ c, c ∈ C → (lvl (Comment.id c) < n)%nat) →
  preorder C n (root_comments C) ≡ₚ C.
Proof.
  intros Hn. rewrite (preorder_band n O).
  - rewrite filter_all; [done|]. intros c Hc. specialize (Hn c Hc). lia.
  - unfold root_comments. apply reflexive_eq, filter_ext_elem.
    intros c Hc. by apply root_generation.
Qed.

End generations.

(** ** Parent references without cycles *)

Section acyclic.
Variable C : list Comment.
Variable rank : string → nat.
Hypothesis Hnd : NoDup (ids C).
Hypothesis Hrank : acyclic C rank.

Lemma level_upto_le n k : (level_upto C n k ≤ n)%nat.
Proof.
  revert k. induction n as [|n IH]; intros k; simpl; [done|].
  destruct (latest C k) as [c|]; [|lia].
  destruct (parentKey c) as [p|]; [|lia].
  case_decide; [|lia]. specialize (IH p). lia.
Qed.

Lemma level_upto_stable r : ∀ n m k,
  k ∈ ids C → (rank k ≤ r)%nat → (r ≤ n)%nat → (r ≤ m)%nat →
  level_upto C n k = level_upto C m k.
Proof.
  induction r as [|r IH]; intros n m k Hk Hr Hn Hm.
  - destruct (elem_of_ids_inv _ _ Hk) as (c & Hc & <-).
    assert (∀ j, level_upto C j (Comment.id c) = O) as H0.
    { intros [|j]; simpl; [done|]. rewrite latest_NoDup by done.
      destruct (parentKey c) as [p|] eqn:Hp; [|done].
      case_decide as Hin; [|done]. pose proof (Hrank c p Hc Hp Hin). lia. }
    by rewrite !H0.
  - destruct n as [|n]; [lia|]. destruct m as [|m]; [lia|]. simpl.
    destruct (elem_of_ids_inv _ _ Hk) as (c & Hc & <-).
    rewrite latest_NoDup by done.
    destruct (parentKey c) as [p|] eqn:Hp; [|done].
    case_decide as Hin; [|done]. f_equal.
    pose proof (Hrank c p Hc Hp Hin). apply IH; [done|lia..].
Qed.

Lemma level_generations :
  generations C (λ k, level_upto C (rank k) k).
Proof.
  intros c Hc. simpl.
  destruct (parentKey c) as [p|] eqn:Hp.
  - case_decide as Hin.
    + pose proof (Hrank c p Hc Hp Hin) as Hlt.
      destruct (rank (Comment.id c)) as [|n] eqn:En; [lia|]. simpl.
      rewrite latest_NoDup, Hp, decide_True by done. f_equal.
      apply (level_upto_stable (rank p)); [done|lia..].
    + destruct (rank (Comment.id c)); simpl; [done|].
      by rewrite latest_NoDup, Hp, decide_False by done.
  - destruct (rank (Comment.id c)); simpl; [done|].
    by rewrite latest_NoDup, Hp by done.
Qed.

Lemma compact_rank_lt c : c ∈ C → (compact_rank C rank (Comment.id c) < length C)%nat.
Proof. intros Hc. unfold compact_rank. apply (length_filter_lt _ _ c); [done|lia]. Qed.

Lemma compact_rank_acyclic : acyclic C (compact_rank C rank).
Proof.
  intros c p Hc Hp Hin. pose proof (Hrank c p Hc Hp Hin) as Hlt.
  destruct (elem_of_ids_inv _ _ Hin) as (r & Hr & <-).
  unfold compact_rank.
  rewrite <- (list_filter_filter_l
                (λ x, (rank (Comment.id x) < rank (Comment.id r))%nat)
                (λ x, (rank (Comment.id x) < rank (Comment.id c))%nat))
    by (intros; lia).
  apply (length_filter_lt _ _ r); [|lia].
  by apply list_elem_of_filter.
Qed.

End acyclic.

(** Comments with distinct ids and well-founded parent references fall into
    generations, fewer than there are comments. *)
Lemma generations_exist C rank :
  NoDup (ids C) → acyclic C rank →
  ∃ lvl, generations C lvl ∧ ∀ c, c ∈ C → (lvl (Comment.id c) < length C)%nat.
Proof.
  intros Hnd Hrank.
  exists (λ k, level_upto C (compact_rank C rank k) k). split.
  - apply level_generations; [done|]. by apply compact_rank_acyclic.
  - intros c Hc. eapply Nat.le_lt_trans; [apply level_upto_le|].
    by apply compact_rank_lt.
Qed.

(** ** The two traversals *)

Lemma flatten_traverse_nil fuel store result :
  flatten_traverse (S fuel) store [] result = Some result.
Proof. done. Qed.

Lemma flatten_traverse_cons fuel store ref refs result :
  flatten_traverse (S fuel) store (ref :: refs) result
  = match store !! ref with
    | Some node =>
        match
          match replies node with
          | [] => Some (result ++ [data node])
          | _ => flatten_traverse fuel store (replies node) (result ++ [data node])
          end
        with
        | Some result' => flatten_traverse (S fuel) store refs result'
        | None => None
        end
    | None => None
    end.
Proof. simpl. by destruct (store !! ref). Qed.

Lemma count_traverse_nil fuel store count :
  count_traverse (S fuel) store [] count = Some count.
Proof. done. Qed.

Lemma count_traverse_cons fuel store ref refs count :
  count_traverse (S fuel) store (ref :: refs) count
  = match store !! ref with
    | Some node =>
        match
          match replies node with
          | [] => Some (S count)
          | _ => count_traverse fuel store (replies node) (S count)
          end
        with
        | Some count' => count_traverse (S fuel) store refs count'
        | None => None
        end
    | None => None
    end.
Proof. simpl. by destruct (store !! ref). Qed.

(** The counter of [countComments] follows the length of the array of
    [flattenTree]: the two functions walk the forest alike. *)
Lemma count_traverse_length fuel store : ∀ refs result,
  count_traverse fuel store refs (length result)
  = length <$> flatten_traverse fuel store refs result.
Proof.
  induction fuel as [|fuel IH]; [done|].
  induction refs as [|ref refs IHrefs]; intros result; [done|].
  rewrite count_traverse_cons, flatten_traverse_cons.
  destruct (store !! ref) as [node|]; [|done].
  assert (S (length result) = length (result ++ [data node])) as ->
    by (rewrite length_app; simpl; lia).
  destruct (replies node) as [|child more] eqn:E.
  - apply IHrefs.
  - rewrite IH.
    destruct (flatten_traverse fuel store (child :: more) _); [apply IHrefs|done].
Qed.

Lemma countComments_length fuel tree :
  countComments fuel tree = length <$> flattenTree fuel tree.
Proof. apply (count_traverse_length fuel (nodes tree) (roots tree) []). Qed.

(** On the forest of [buildTree], with call stack to spare, [flattenTree]
    lists the pre-order of the comments. *)
Section traversal.
Variable C : list Comment.
Variable lvl : string → nat.
Hypothesis Hnd : NoDup (ids C).
Hypothesis Hlvl : generations C lvl.
Hypothesis Hbound : ∀ c, c ∈ C → (lvl (Comment.id c) < length C)%nat.

Lemma node_of_comment c :
  c ∈ C →
  nodes (buildTree C) !! Comment.id c
  = Some {| data := c; replies := ids (children C (Comment.id c)) |}.
Proof.
  intros Hc. destruct (buildTree_shape C) as [_ ->].
  by rewrite latest_NoDup.
Qed.

Lemma flatten_traverse_preorder fuel : ∀ rs result,
  (0 < fuel)%nat →
  (∀ r, r ∈ rs → r ∈ C ∧ (length C < lvl (Comment.id r) + fuel)%nat) →
  flatten_traverse fuel (nodes (buildTree C)) (ids rs) result
  = Some (result ++ preorder C fuel rs).
Proof.
  induction fuel as [|fuel IH]; [lia|]. intros rs.
  induction rs as [|r rs IHrs]; intros result Hpos Hrs.
  - simpl. by rewrite app_nil_r.
  - destruct (Hrs r) as [Hr Hfuel]; [by left|].
    unfold ids. rewrite fmap_cons. fold (ids rs).
    rewrite flatten_traverse_cons, node_of_comment by done. simpl replies.
    simpl data. rewrite preorder_cons.
    destruct (children C (Comment.id r)) as [|k ks] eqn:Ek.
    + assert (∀ a b : option (list Comment),
                match ids [] with [] => a | _ :: _ => b end = a) as ->
        by done.
      rewrite IHrs; [|done|intros; apply Hrs; by right].
      rewrite preorder_nil. by rewrite <- app_assoc.
    + assert (∀ a b : option (list Comment),
                match ids (k :: ks) with [] => a | _ :: _ => b end = b) as ->
        by done.
      rewrite <- Ek.
      assert (∀ x, x ∈ children C (Comment.id r) →
                x ∈ C ∧ lvl (Comment.id x) = S (lvl (Comment.id r))) as Hkids.
      { intros x [Hx Hin]%list_elem_of_filter. split; [done|].
        apply (child_generation C lvl Hlvl); [done..|].
        by apply list_elem_of_fmap_2. }
      rewrite IH.
      * rewrite IHrs; [|done|intros; apply Hrs; by right].
        f_equal. rewrite <- !app_assoc. done.
      * destruct (Hkids k) as [Hk Hlk]; [rewrite Ek; by left|].
        specialize (Hbound k Hk). lia.
      * intros x Hx. destruct (Hkids x Hx) as [HxC Hlx]. split; [done|lia].
Qed.

Lemma flattenTree_preorder fuel :
  (length C < fuel)%nat →
  flattenTree fuel (buildTree C) = Some (preorder C fuel (root_comments C)).
Proof.
  intros Hfuel. unfold flattenTree.
  destruct (buildTree_shape C) as [-> _].
  rewrite flatten_traverse_preorder; [done|lia|].
  intros r [_ Hr]%list_elem_of_filter. split; [done|lia].
Qed.

Lemma flattenTree_Permutation fuel :
  (length C < fuel)%nat →
  ∃ flat, flattenTree fuel (buildTree C) = Some flat ∧ flat ≡ₚ C.
Proof.
  intros Hfuel. eexists. split; [by apply flattenTree_preorder|].
  apply (preorder_roots C lvl); [done..|].
  intros c Hc. specialize (Hbound c Hc). lia.
Qed.

End traversal.

(** ** Relative order *)

Lemma precedes_split {A} (l : list A) a b :
  precedes l a b ↔ ∃ l1 l2 l3, l = l1 ++ a :: l2 ++ b :: l3.
Proof.
  split.
  - intros (i & j & Hi & Hj & Hij).
    apply list_elem_of_split_length in Hi as (l1 & k & -> & ->).
    rewrite lookup_app_r in Hj by lia.
    destruct (j - length l1)%nat as [|j'] eqn:Ej; [lia|]. simpl in Hj.
    apply list_elem_of_split_length in Hj as (l2 & l3 & -> & _).
    by exists l1, l2, l3.
  - intros (l1 & l2 & l3 & ->).
    exists (length l1), (length l1 + S (length l2))%nat. split_and!.
    + by rewrite list_lookup_middle.
    + rewrite lookup_app_r by lia.
      replace (length l1 + S (length l2) - length l1)%nat with (S (length l2)) by lia.
      simpl. by rewrite list_lookup_middle.
    + lia.
Qed.


Lemma precedes_filter {A} (P : A → Prop) `{∀ x, Decision (P x)} (l : list A) a b :
  precedes l a b → P a → P b → precedes (filter P l) a b.
Proof.
  rewrite !precedes_split. intros (l1 & l2 & l3 & ->) Ha Hb.
  exists (filter P l1), (filter P l2), (filter P l3).
  rewrite filter_app, filter_cons_True, filter_app, filter_cons_True by done.
  done.
Qed.

Lemma precedes_fmap {A B} (f : A → B) (l : list A) a b :
  precedes l a b → precedes (f <$> l) (f a) (f b).
Proof.
  intros (i & j & Hi & Hj & Hij). exists i, j.
  by rewrite !list_lookup_fmap, Hi, Hj.
Qed.



Section order.
Variable C : list Comment.
Variable lvl : string → nat.
Hypothesis Hnd : NoDup (ids C).
Hypothesis Hlvl : generations C lvl.
Hypothesis Hbound : ∀ c, c ∈ C → (lvl (Comment.id c) < length C)%nat.







End order.

(** ** Checks on a concrete collection *)

Lemma acyclic_Forall C rank : Forall (parent_ranked C rank) C → acyclic C rank.
Proof.
  rewrite Forall_forall. intros H c p Hc Hp Hin.
  specialize (H c Hc). unfold parent_ranked in H. rewrite Hp in H. by apply H.
Qed.

Lemma small_thread_NoDup : NoDup (ids small_thread).
Proof. by apply (bool_decide_unpack _). Qed.

Lemma small_thread_acyclic : acyclic small_thread small_rank.
Proof. apply acyclic_Forall. by apply (bool_decide_unpack _). Qed.

Lemma attached_iff C c : parentKey c ∈ (Some <$> ids C) ↔ attached C c.
Proof.
  unfold attached. rewrite list_elem_of_fmap. destruct (parentKey c) as [p|].
  - split; [by intros (k & [= ->] & Hk)|eauto].
  - split; [by intros (k & [=] & _)|done].
Qed.

(** The roots and the children of every comment together are the whole
    collection. *)
Lemma roots_children_partition C :
  NoDup (ids C) →
  root_comments C ++ (C ≫= λ p, children C (Comment.id p)) ≡ₚ C.
Proof.
  intros Hnd. rewrite children_of_list by done.
  rewrite (list_filter_iff _ (attached C)) by (intros; apply attached_iff).
  unfold root_comments. rewrite Permutation_app_comm.
  apply filter_app_complement.
Qed.

(** ** C1: partition and count *)

(** C1, refuted as stated: for the collection made of one comment that names
    itself as parent, [buildTree] returns no root at all and
    [countComments] answers 0, not the size 1 of the collection. *)
Lemma buildTree_count_self_reply :
  roots (buildTree self_reply) = []
  ∧ (∀ fuel, countComments (S fuel) (buildTree self_reply) = Some 0%nat)
  ∧ length self_reply = 1%nat.
Proof. by split_and!. Qed.

(** C1, as amended: for every collection [C] whose ids are pairwise distinct
    and whose parent references have no cycle, the roots of [buildTree C]
    are the comments of [C] whose parent reference is falsy or names no id of
    [C], the node of every comment holds as replies the comments that name
    it as parent, roots and replies together are exactly [C], and
    [countComments] returns the size of [C] (given a call stack deeper than
    [C] is long). *)
Theorem buildTree_partition_count (C : list Comment) (rank : string → nat)
    (fuel : nat) :
  NoDup (ids C) → acyclic C rank → (length C < fuel)%nat →
  roots (buildTree C) = ids (root_comments C)
  ∧ (∀ c, c ∈ C →
       nodes (buildTree C) !! Comment.id c
       = Some {| data := c; replies := ids (children C (Comment.id c)) |})
  ∧ root_comments C ++ (C ≫= λ p, children C (Comment.id p)) ≡ₚ C
  ∧ countComments fuel (buildTree C) = Some (length C).
Proof.
  intros Hnd Hrank Hfuel.
  destruct (generations_exist C rank Hnd Hrank) as (lvl & Hlvl & Hbound).
  split_and!.
  - apply buildTree_shape.
  - intros c Hc. by apply node_of_comment.
  - by apply roots_children_partition.
  - rewrite countComments_length.
    destruct (flattenTree_Permutation C lvl Hnd Hlvl Hbound fuel Hfuel)
      as (flat & -> & Hflat).
    simpl. by rewrite Hflat.
Qed.

Lemma buildTree_partition_count_witness :
  NoDup (ids small_thread) ∧ acyclic small_thread small_rank
  ∧ roots (buildTree small_thread) = ["1"; "3"]
  ∧ countComments 6 (buildTree small_thread) = Some 5%nat.
Proof.
  pose proof (buildTree_partition_count small_thread small_rank 6
                small_thread_NoDup small_thread_acyclic) as H.
  split_and!.
  - exact small_thread_NoDup.
  - exact small_thread_acyclic.
  - apply H. simpl. lia.
  - apply H. simpl. lia.
Defined.

(** ** C2: sibling order *)

(** C2: in the forest of [buildTree C], the replies of the node with id [p]
    are the references of the comments of [C] whose parent reference is [p],
    in the order in which [C] lists them; so two children of [p] stand in
    the replies in the order they have in [C]. *)
Theorem buildTree_sibling_order (C : list Comment) (p : string) :
  replies <$> nodes (buildTree C) !! p
  = (if decide (p ∈ ids C)
     then Some (ids (filter (λ c, parentKey c = Some p) C))
     else None)
  ∧ ∀ a b,
      parentKey a = Some p → parentKey b = Some p → p ∈ ids C →
      precedes C a b →
      ∃ node, nodes (buildTree C) !! p = Some node
              ∧ precedes (replies node) (Comment.id a) (Comment.id b).
Proof.
  destruct (buildTree_shape C) as [_ Hnodes]. rewrite Hnodes. split.
  - case_decide as Hp.
    + apply latest_is_Some in Hp as [c ->]. done.
    + destruct (latest C p) as [c|] eqn:E; [|done].
      exfalso. apply Hp, latest_is_Some. eauto.
  - intros a b Ha Hb Hp Hab.
    apply latest_is_Some in Hp as [c ->]. eexists. split; [done|]. simpl.
    apply precedes_fmap. by apply precedes_filter.
Qed.

Lemma buildTree_sibling_order_witness :
  precedes small_thread (bare "2" (Some "1")) (bare "5" (Some "1"))
  ∧ replies <$> nodes (buildTree small_thread) !! "1" = Some ["2"; "5"]
  ∧ ∃ node, nodes (buildTree small_thread) !! "1" = Some node
            ∧ precedes (replies node) "2" "5".
Proof.
  assert (precedes small_thread (bare "2" (Some "1")) (bare "5" (Some "1")))
    as Hab by (exists 2%nat, 4%nat; split_and!; [done|done|lia]).
  destruct (buildTree_sibling_order small_thread "1") as [Hreplies Horder].
  split_and!; [exact Hab|exact Hreplies|].
  apply (Horder (bare "2" (Some "1")) (bare "5" (Some "1")));
    [done|done|by apply (bool_decide_unpack _)|exact Hab].
Defined.

(** ** C3: flattening *)




(** ** C6: the controversy score *)

Lemma forallb_true_elem {A} (f : A → bool) (l : list A) z :
  forallb f l = true → z ∈ l → f z = true.
Proof.
  induction l as [|y l IH]; simpl; intros Hall Hz.
  - by apply elem_of_nil in Hz.
  - apply andb_true_iff in Hall as [Hy Hall].
    apply elem_of_cons in Hz as [->|Hz]; [done|by apply IH].
Qed.

Lemma forallb_false_elem {A} (f : A → bool) (l : list A) :
  forallb f l = false → ∃ z, z ∈ l ∧ f z = false.
Proof.
  induction l as [|y l IH]; simpl; [done|].
  destruct (f y) eqn:Ey; simpl.
  - intros (z & Hz & Hfz)%IH. exists z. split; [by right|done].
  - intros _. exists y. split; [by left|done].
Qed.




(** ** C7: sorting *)

Lemma sort_insert_Permutation {A} (comparefn : A → A → option Z) x l :
  sort_insert comparefn x l ≡ₚ x :: l.
Proof.
  induction l as [|y l IH]; [done|]. cbn [sort_insert].
  destruct (forallb _ (y :: l)); [done|].
  rewrite IH. apply Permutation_swap.
Qed.

Lemma array_sort_fold_Permutation {A} (comparefn : A → A → option Z) l :
  ∀ sorted,
    foldl (λ sorted x, sort_insert comparefn x sorted) sorted l ≡ₚ sorted ++ l.
Proof.
  induction l as [|x l IH]; intros sorted; simpl; [by rewrite app_nil_r|].
  rewrite IH, sort_insert_Permutation. simpl. apply Permutation_middle.
Qed.

Lemma array_sort_Permutation {A} (comparefn : A → A → option Z) l :
  array_sort comparefn l ≡ₚ l.
Proof. apply (array_sort_fold_Permutation comparefn l []). Qed.

(** A comparator that decides, on the elements that satisfy [P], a total and
    transitive order [R]: the sort puts them in that order. *)
Section consistent_comparator.
Context {A : Type}.
Variable comparefn : A → A → option Z.
Variable P : A → Prop.
Variable R : relation A.
Hypothesis HR : ∀ a b, P a → P b → SortCompare comparefn a b ≤ 0 ↔ R a b.
Hypothesis Htotal : ∀ a b, P a → P b → R a b ∨ R b a.
Hypothesis Htrans : ∀ a b c, R a b → R b c → R a c.

Lemma sort_insert_sorted x l :
  P x → Forall P l → StronglySorted R l →
  StronglySorted R (sort_insert comparefn x l).
Proof.
  intros Hx. induction l as [|y l IH]; intros HP Hs; cbn [sort_insert].
  - by repeat constructor.
  - destruct (forallb _ (y :: l)) eqn:E.
    + constructor; [done|].
      apply Forall_forall. intros z Hz.
      apply (forallb_true_elem _ _ z) in E; [|done]. apply Z.ltb_lt in E.
      rewrite Forall_forall in HP. specialize (HP z Hz).
      destruct (Htotal x z Hx HP) as [?|Hzx]; [done|].
      apply HR in Hzx; [lia|done..].
    + assert (∃ z, z ∈ y :: l ∧ R z x) as (z & Hz & Hzx).
      { destruct (forallb_false_elem _ _ E) as (z & Hz & Hcmp).
        exists z. split; [done|].
        rewrite Forall_forall in HP. apply HR; [by apply HP|done|].
        apply Z.ltb_ge in Hcmp. done. }
      apply Forall_cons in HP as [Hy HP].
      apply StronglySorted_inv in Hs as [Hs Hyl].
      assert (R y x) as Hyx.
      { apply elem_of_cons in Hz as [->|Hz]; [done|].
        rewrite Forall_forall in Hyl. by apply (Htrans _ z); [apply Hyl|]. }
      constructor; [by apply IH|].
      rewrite sort_insert_Permutation. by constructor.
Qed.

Lemma array_sort_fold_sorted l : ∀ sorted,
  Forall P sorted → StronglySorted R sorted → Forall P l →
  StronglySorted R (foldl (λ sorted x, sort_insert comparefn x sorted) sorted l).
Proof.
  induction l as [|x l IH]; intros sorted HPs Hs HPl; simpl; [done|].
  apply Forall_cons in HPl as [Hx HPl]. apply IH; [|by apply sort_insert_sorted|done].
  rewrite sort_insert_Permutation. by constructor.
Qed.

Lemma array_sort_sorted l : Forall P l → StronglySorted R (array_sort comparefn l).
Proof. intros HP. apply array_sort_fold_sorted; [done|constructor|done]. Qed.

End consistent_comparator.

Lemma compare_top_order a b :
  has_time a → has_time b →
  SortCompare compare_top a b ≤ 0 ↔ top_order a b.
Proof.
  intros [ta Ha] [tb Hb]. unfold SortCompare, compare_top, top_order.
  rewrite Ha, Hb. simpl.
  destruct (nullish (Comment.score b) 0 =? nullish (Comment.score a) 0) eqn:E; simpl.
  - apply Z.eqb_eq in E. lia.
  - apply Z.eqb_neq in E. lia.
Qed.



Example sortComments_by_top :
  ids (sortComments [scored "1" 5; scored "2" 10; scored "3" 3] (Some "top"))
  = ["2"; "1"; "3"].
Proof. reflexivity. Qed.


(** C7, refuted as stated: three comments of equal score, the first created
    at 5, the second without creation time, the third created at 9.  The
    comparator holds the first equal to the second and the second equal to
    the third, so the sort leaves them as they are, although it would put the
    third before the first: the tie is not broken towards the newer
    comment. *)
Lemma sortComments_top_mixed_tie :
  sortComments [timed "1" 1 5; scored "2" 1; timed "3" 1 9] (Some "top")
  = [timed "1" 1 5; scored "2" 1; timed "3" 1 9]
  ∧ SortCompare compare_top (timed "1" 1 5) (scored "2" 1) = 0
  ∧ SortCompare compare_top (scored "2" 1) (timed "3" 1 9) = 0
  ∧ SortCompare compare_top (timed "1" 1 5) (timed "3" 1 9) = 4.
Proof. split_and!; reflexivity. Qed.



(** ** The engine: how an operation unfolds *)

Lemma await_run {S A} (c : Call) (op : AdapterOp S A) (w : World S) :
  await c op w
  = (settled (op (now w) (storage w)).1, called c (op (now w) (storage w)).2 w).
Proof. unfold await. simpl. by destruct (op _ _) as [[e|a] st]. Qed.

(** [reply] with its three identifiers present, step by step. *)
Lemma reply_run {S} (this : CommentSystem.t S) (postId parentId authorId : string)
    (content : CommentSystem.ContentArg) (w : World S) :
  postId ≠ "" → parentId ≠ "" → authorId ≠ "" →
  CommentSystem.reply this (Some postId) (Some parentId) (Some authorId) content w
  = let w1 := called (call_getComment parentId) (fetch this parentId w).2 w in
    match (fetch this parentId w).1 with
    | inl e => (Rejected e, w1)
    | inr None =>
        (Thrown (CommentError "Parent comment not found" "PARENT_NOT_FOUND"), w1)
    | inr (Some parent) =>
        if decide (belongs_to parent postId)
        then
          let newDepth := nullish (Comment.depth parent) 0 + 1 in
          if decide (newDepth > max_depth this)
          then (Thrown (max_depth_error (max_depth this)), w1)
          else
            match CommentSystem._validateContent this content with
            | inl e => (Thrown e, w1)
            | inr trimmed =>
                let draft :=
                  reply_draft postId parentId authorId trimmed newDepth (now w) in
                let saved :=
                  Adapter.saveComment (CommentSystem.adapter this) draft (now w)
                                      (storage w1) in
                (settled saved.1, called (call_saveComment draft) saved.2 w1)
            end
        else
          (Thrown (CommentError "Parent comment belongs to different post"
                                "INVALID_PARENT"), w1)
    end.
Proof.
  intros Hpost Hparent Hauthor. unfold CommentSystem.reply, truthy.
  rewrite !(proj2 (String.eqb_neq _ _)) by done. cbn [negb nullish].
  unfold bind at 1. rewrite await_run. fold (fetch this parentId w).
  destruct (fetch this parentId w) as [[e|[parent|]] st]; simpl; [done| |done].
  unfold throw.
  destruct (decide (belongs_to parent postId)) as [Hb|Hb].
  - assert (bool_decide (Comment.postId parent ≠ Some postId)
            && bool_decide (Comment.post_id parent ≠ Some postId) = false) as ->.
    { apply andb_false_iff. destruct Hb as [Hb|Hb]; [left|right];
        by apply bool_decide_eq_false; intros H; apply H. }
    destruct (decide (nullish (Comment.depth parent) 0 + 1 > max_depth this))
      as [Hd|Hd].
    + by rewrite (proj2 (Z.gtb_gt _ _)) by done.
    + assert ((nullish (Comment.depth parent) 0 + 1 >? max_depth this) = false)
        as -> by (rewrite Z.gtb_ltb; apply Z.ltb_ge; lia).
      unfold bind, CommentSystem.validated.
      destruct (CommentSystem._validateContent this content) as [e|trimmed]; [done|].
      unfold ret, new_Date. rewrite await_run. simpl.
      by destruct (Adapter.saveComment _ _ _ _) as [[e|c] st'].
  - assert (bool_decide (Comment.postId parent ≠ Some postId)
            && bool_decide (Comment.post_id parent ≠ Some postId) = true) as ->; [|done].
    apply andb_true_iff. unfold belongs_to in Hb.
    split; apply bool_decide_eq_true; intros H; apply Hb; tauto.
Qed.

(** The two codes of [_validateContent]. *)
Lemma validateContent_code {S} (this : CommentSystem.t S) content e :
  CommentSystem._validateContent this content = inl e →
  error_code e = Some "EMPTY_CONTENT" ∨ error_code e = Some "MAX_LENGTH".
Proof.
  unfold CommentSystem._validateContent.
  destruct content as [|[|a s]|b]; try (intros [= <-]; by left).
  destruct (String.length _ =? 0)%nat; [intros [= <-]; by left|].
  destruct (_ >? _); [intros [= <-]; by right|done].
Qed.

Lemma settled_not_thrown {A} (r : JsError + A) e : settled r ≠ Thrown e.
Proof. by destruct r. Qed.

(** The depth check of [reply], once the parent is fetched and found in the
    post: [MAX_DEPTH] is thrown exactly when [parent.depth + 1] exceeds
    [maxDepth]; otherwise, if the content is valid, [saveComment] receives
    the draft with that depth and its result is the result of [reply]. *)
Lemma reply_depth_check {S} (this : CommentSystem.t S)
    (postId parentId authorId : string) (content : CommentSystem.ContentArg)
    (w : World S) (parent : Comment) :
  postId ≠ "" → parentId ≠ "" → authorId ≠ "" →
  (fetch this parentId w).1 = inr (Some parent) →
  belongs_to parent postId →
  ((∃ message,
      (CommentSystem.reply this (Some postId) (Some parentId) (Some authorId)
         content w).1
      = Thrown (CommentError message "MAX_DEPTH"))
   ↔ nullish (Comment.depth parent) 0 + 1 > max_depth this)
  ∧ ∀ trimmed,
      nullish (Comment.depth parent) 0 + 1 ≤ max_depth this →
      CommentSystem._validateContent this content = inr trimmed →
      CommentSystem.reply this (Some postId) (Some parentId) (Some authorId)
        content w
      = (settled
           (Adapter.saveComment (CommentSystem.adapter this)
              (reply_draft postId parentId authorId trimmed
                 (nullish (Comment.depth parent) 0 + 1) (now w))
              (now w) (fetch this parentId w).2).1,
         called
           (call_saveComment
              (reply_draft postId parentId authorId trimmed
                 (nullish (Comment.depth parent) 0 + 1) (now w)))
           (Adapter.saveComment (CommentSystem.adapter this)
              (reply_draft postId parentId authorId trimmed
                 (nullish (Comment.depth parent) 0 + 1) (now w))
              (now w) (fetch this parentId w).2).2
           (called (call_getComment parentId) (fetch this parentId w).2 w)).
Proof.
  intros Hpost Hparent Hauthor Hfetch Hbelongs.
  rewrite reply_run by done. cbv zeta. rewrite Hfetch.
  rewrite decide_True by done. split.
  - case_decide as Hd.
    + split; [done|]. intros _. by eexists.
    + split; [|lia]. intros [message Hm]. exfalso.
      destruct (CommentSystem._validateContent this content) as [e|trimmed] eqn:Hv.
      * simpl in Hm. injection Hm as ->.
        by destruct (validateContent_code _ _ _ Hv).
      * simpl in Hm. by apply settled_not_thrown in Hm.
  - intros trimmed Hd Hv. rewrite decide_False by lia. by rewrite Hv.
Qed.

(** ** The engine on the in-memory adapter *)

Lemma map_get_set_eq k v m :
  MemoryAdapter.map_get k (MemoryAdapter.map_set k v m) = Some v.
Proof.
  induction m as [|[k' v'] m IH]; simpl.
  - by rewrite String.eqb_refl.
  - destruct (String.eqb_spec k' k) as [->|Hne]; simpl.
    + by rewrite String.eqb_refl.
    + by rewrite (proj2 (String.eqb_neq _ _)) by done.
Qed.

Lemma map_get_set_ne k k' v m :
  k ≠ k' →
  MemoryAdapter.map_get k' (MemoryAdapter.map_set k v m)
  = MemoryAdapter.map_get k' m.
Proof.
  intros Hne. induction m as [|[k0 v0] m IH]; simpl.
  - by rewrite (proj2 (String.eqb_neq _ _)) by done.
  - destruct (String.eqb_spec k0 k) as [->|Hne0]; simpl.
    + by rewrite !(proj2 (String.eqb_neq _ _)) by done.
    + by rewrite IH.
Qed.

Lemma constructor_memory maxDepth maxLength :
  CommentSystem.constructor MemoryAdapter.createMemoryAdapter
    {| CommentSystem.arg_maxDepth := Some maxDepth;
       CommentSystem.arg_maxLength := Some maxLength |}
  = inr (memory_system maxDepth maxLength).
Proof. reflexivity. Qed.

Lemma constructor_memory_default :
  CommentSystem.constructor MemoryAdapter.createMemoryAdapter
    CommentSystem.no_options
  = inr (memory_system 10 10000).
Proof. reflexivity. Qed.

Lemma create_run {S} (this : CommentSystem.t S) (postId authorId : string)
    (content : CommentSystem.ContentArg) (w : World S) trimmed :
  postId ≠ "" → authorId ≠ "" →
  CommentSystem._validateContent this content = inr trimmed →
  CommentSystem.create this (Some postId) (Some authorId) content w
  = (settled
       (Adapter.saveComment (CommentSystem.adapter this)
          (create_draft postId authorId trimmed (now w)) (now w) (storage w)).1,
     called (call_saveComment (create_draft postId authorId trimmed (now w)))
       (Adapter.saveComment (CommentSystem.adapter this)
          (create_draft postId authorId trimmed (now w)) (now w) (storage w)).2
       w).
Proof.
  intros Hpost Hauthor Hv. unfold CommentSystem.create, truthy.
  rewrite !(proj2 (String.eqb_neq _ _)) by done. cbn [negb].
  unfold bind, CommentSystem.validated. rewrite Hv.
  unfold ret, new_Date. rewrite await_run. fold (create_draft postId authorId trimmed (now w)).
  by destruct (Adapter.saveComment _ _ _ _) as [[e|c] st'].
Qed.

(** The record that the in-memory [saveComment] stores and returns. *)
Lemma memory_saveComment draft now st :
  ∃ saved,
    MemoryAdapter.saveComment draft now st
    = (inr saved,
       {| MemoryAdapter.comments :=
            MemoryAdapter.map_set (Comment.id saved) saved
              (MemoryAdapter.comments st);
          MemoryAdapter.idCounter := S (MemoryAdapter.idCounter st) |})
    ∧ Comment.id saved = "comment_" +:+ pretty (S (MemoryAdapter.idCounter st))
    ∧ Comment.postId saved = draft_postId draft
    ∧ Comment.authorId saved = draft_authorId draft
    ∧ Comment.content saved = draft_content draft
    ∧ Comment.parentId saved = draft_parentId draft
    ∧ Comment.depth saved = draft_depth draft.
Proof.
  exists (match (MemoryAdapter.saveComment draft now st).1 with
          | inr saved => saved
          | inl _ => bare "" None
          end).
  split; [reflexivity|]. by split_and!.
Qed.

Section memory_chain.
Variables maxDepth maxLength : Z.
Variables postId authorId trimmed : string.
Variable content : CommentSystem.ContentArg.
Hypothesis Hpost : postId ≠ "".
Hypothesis Hauthor : authorId ≠ "".
Hypothesis Hcontent :
  CommentSystem._validateContent (memory_system maxDepth maxLength) content
  = inr trimmed.

Lemma memory_fetch commentId w :
  fetch (memory_system maxDepth maxLength) commentId w
  = (inr (MemoryAdapter.map_get commentId (MemoryAdapter.comments (storage w))),
     storage w).
Proof. done. Qed.

Lemma memory_create w :
  ∃ root w',
    CommentSystem.create (memory_system maxDepth maxLength) (Some postId)
      (Some authorId) content w = (Returned root, w')
    ∧ stored_at root postId 0 w'.
Proof.
  rewrite (create_run _ _ _ _ _ trimmed) by done.
  destruct (memory_saveComment (create_draft postId authorId trimmed (now w))
              (now w) (storage w)) as (saved & Hs & Hid & Hp & _ & _ & _ & Hd).
  change (Adapter.saveComment
            (CommentSystem.adapter (memory_system maxDepth maxLength)))
    with MemoryAdapter.saveComment.
  rewrite Hs. eexists _, _. split; [done|].
  split_and!; simpl.
  - apply map_get_set_eq.
  - by rewrite Hid.
  - by rewrite Hp.
  - by rewrite Hd.
Qed.

Lemma memory_reply parent d w :
  stored_at parent postId d w → d + 1 ≤ maxDepth →
  ∃ c w',
    CommentSystem.reply (memory_system maxDepth maxLength) (Some postId)
      (Some (Comment.id parent)) (Some authorId) content w = (Returned c, w')
    ∧ stored_at c postId (d + 1) w'
    ∧ Comment.parentId c = Some (Comment.id parent).
Proof.
  intros (Hget & Hid & Hp & Hd) Hmax.
  destruct (reply_depth_check (memory_system maxDepth maxLength) postId
              (Comment.id parent) authorId content w parent) as [_ Hrun];
    [done..|by rewrite memory_fetch, Hget|by left|].
  rewrite (Hrun trimmed); [|by rewrite Hd|done]. clear Hrun.
  rewrite Hd, memory_fetch. cbn [nullish snd].
  change (Adapter.saveComment
            (CommentSystem.adapter (memory_system maxDepth maxLength)))
    with MemoryAdapter.saveComment.
  destruct (memory_saveComment
              (reply_draft postId (Comment.id parent) authorId trimmed (d + 1)
                 (now w)) (now w) (storage w))
    as (saved & Hs & Hsid & Hsp & _ & _ & Hspar & Hsd).
  rewrite Hs.
  eexists _, _. split; [done|]. split; [|by rewrite Hspar].
  split_and!; simpl.
  - apply map_get_set_eq.
  - by rewrite Hsid.
  - by rewrite Hsp.
  - by rewrite Hsd.
Qed.

Lemma memory_reply_too_deep parent d w :
  stored_at parent postId d w → d + 1 > maxDepth →
  ∃ message,
    (CommentSystem.reply (memory_system maxDepth maxLength) (Some postId)
       (Some (Comment.id parent)) (Some authorId) content w).1
    = Thrown (CommentError message "MAX_DEPTH").
Proof.
  intros (Hget & Hid & Hp & Hd) Hmax.
  destruct (reply_depth_check (memory_system maxDepth maxLength) postId
              (Comment.id parent) authorId content w parent) as [Hiff _];
    [done..|by rewrite memory_fetch, Hget|by left|].
  apply Hiff. by rewrite Hd.
Qed.

Lemma memory_reply_chain n : ∀ root w,
  stored_at root postId 0 w → Z.of_nat n ≤ maxDepth →
  ∃ c w',
    reply_chain (memory_system maxDepth maxLength) postId authorId content n
      root w = (Returned c, w')
    ∧ stored_at c postId (Z.of_nat n) w'.
Proof.
  induction n as [|n IH]; intros root w Hroot Hn.
  - by exists root, w.
  - destruct (IH root w Hroot) as (parent & w1 & Hchain & Hparent); [lia|].
    destruct (memory_reply parent (Z.of_nat n) w1 Hparent) as (c & w2 & Hr & Hc & _);
      [lia|].
    exists c, w2. split.
    + simpl. unfold bind. by rewrite Hchain.
    + by rewrite Nat2Z.inj_succ.
Qed.

End memory_chain.

(** ** C4: the depth of a reply *)

(** C4: for a reply whose identifiers are present and whose parent is found
    in the given post, [MAX_DEPTH] is thrown exactly when
    [parent.depth + 1] exceeds [maxDepth], and otherwise (the content being
    valid) the comment handed to storage has depth [parent.depth + 1]; on
    the in-memory adapter the [n]-th reply in a row from a root has depth
    [n] as long as [n ≤ maxDepth], and the reply after the [maxDepth]-th
    fails with [MAX_DEPTH]. *)
Theorem reply_depth :
  (∀ S (this : CommentSystem.t S) postId parentId authorId content w parent,
     postId ≠ "" → parentId ≠ "" → authorId ≠ "" →
     (fetch this parentId w).1 = inr (Some parent) →
     belongs_to parent postId →
     ((∃ message,
         (CommentSystem.reply this (Some postId) (Some parentId)
            (Some authorId) content w).1
         = Thrown (CommentError message "MAX_DEPTH"))
      ↔ nullish (Comment.depth parent) 0 + 1 > max_depth this)
     ∧ ∀ trimmed,
         nullish (Comment.depth parent) 0 + 1 ≤ max_depth this →
         CommentSystem._validateContent this content = inr trimmed →
         ∃ draft,
           draft_depth draft = Some (nullish (Comment.depth parent) 0 + 1)
           ∧ draft_parentId draft = Some parentId
           ∧ CommentSystem.reply this (Some postId) (Some parentId)
               (Some authorId) content w
             = (settled
                  (Adapter.saveComment (CommentSystem.adapter this) draft
                     (now w) (fetch this parentId w).2).1,
                called (call_saveComment draft)
                  (Adapter.saveComment (CommentSystem.adapter this) draft
                     (now w) (fetch this parentId w).2).2
                  (called (call_getComment parentId)
                     (fetch this parentId w).2 w)))
  ∧ (∀ maxDepth maxLength postId authorId content trimmed (n : nat) w,
       postId ≠ "" → authorId ≠ "" → 0 ≤ maxDepth →
       CommentSystem._validateContent (memory_system maxDepth maxLength) content
       = inr trimmed →
       (Z.of_nat n ≤ maxDepth →
        ∃ c w',
          reply_thread (memory_system maxDepth maxLength) postId authorId
            content n w = (Returned c, w')
          ∧ Comment.depth c = Some (Z.of_nat n))
       ∧ (Z.of_nat n = maxDepth + 1 →
          ∃ message w',
            reply_thread (memory_system maxDepth maxLength) postId authorId
              content n w
            = (Thrown (CommentError message "MAX_DEPTH"), w'))).
Proof.
  split.
  - intros S this postId parentId authorId content w parent Hp Hq Ha Hf Hb.
    destruct (reply_depth_check this postId parentId authorId content w parent)
      as [Hiff Hrun]; [done..|].
    split; [done|]. intros trimmed Hd Hv. eexists. split_and!; [| |by apply Hrun]; done.
  - intros maxDepth maxLength postId authorId content trimmed n w Hp Ha Hmax Hv.
    destruct (memory_create maxDepth maxLength postId authorId trimmed content
                Hp Ha Hv w) as (root & w1 & Hcreate & Hroot).
    unfold reply_thread, bind. rewrite Hcreate. split.
    + intros Hn.
      destruct (memory_reply_chain maxDepth maxLength postId authorId trimmed
                  content Hp Ha Hv n root w1 Hroot Hn) as (c & w' & -> & Hc).
      exists c, w'. split; [done|]. apply Hc.
    + intros Hn. destruct n as [|n]; [lia|].
      destruct (memory_reply_chain maxDepth maxLength postId authorId trimmed
                  content Hp Ha Hv n root w1 Hroot) as (c & w2 & Hchain & Hc);
        [lia|].
      destruct (memory_reply_too_deep maxDepth maxLength postId authorId
                  content Hp Ha c (Z.of_nat n) w2 Hc) as [message Hm]; [lia|].
      simpl. unfold bind. rewrite Hchain.
      destruct (CommentSystem.reply _ _ _ _ _ w2) as [o w3]. simpl in Hm. subst o.
      by exists message, w3.
Qed.

(** The thread of the test [rejects reply exceeding max depth]:
    [maxDepth] is 2; two replies in a row succeed, the third fails. *)
Lemma reply_depth_witness :
  (∃ c w',
     reply_thread (memory_system 2 10000) "post_1" "agent_1"
       (CommentSystem.content_string "Depth") 2 fresh_world = (Returned c, w')
     ∧ Comment.depth c = Some 2)
  ∧ ∃ message w',
      reply_thread (memory_system 2 10000) "post_1" "agent_1"
        (CommentSystem.content_string "Depth") 3 fresh_world
      = (Thrown (CommentError message "MAX_DEPTH"), w').
Proof.
  destruct reply_depth as [_ H]. split.
  - apply (H 2 10000 "post_1" "agent_1" (CommentSystem.content_string "Depth")
             "Depth" 2%nat fresh_world); done.
  - apply (H 2 10000 "post_1" "agent_1" (CommentSystem.content_string "Depth")
             "Depth" 3%nat fresh_world); done.
Defined.

(** ** C10: a parent without depth *)

(** C10: when the parent record carries no [depth], [reply] checks
    [0 + 1] against [maxDepth]: it throws [MAX_DEPTH] exactly when
    [maxDepth] is below 1, and otherwise (the content being valid) hands to
    [saveComment] a comment of depth 1. *)
Theorem reply_parent_without_depth {S} (this : CommentSystem.t S)
    (postId parentId authorId : string) (content : CommentSystem.ContentArg)
    (w : World S) (parent : Comment) :
  postId ≠ "" → parentId ≠ "" → authorId ≠ "" →
  (fetch this parentId w).1 = inr (Some parent) →
  belongs_to parent postId →
  Comment.depth parent = None →
  ((∃ message,
      (CommentSystem.reply this (Some postId) (Some parentId) (Some authorId)
         content w).1
      = Thrown (CommentError message "MAX_DEPTH"))
   ↔ max_depth this < 1)
  ∧ ∀ trimmed,
      1 ≤ max_depth this →
      CommentSystem._validateContent this content = inr trimmed →
      CommentSystem.reply this (Some postId) (Some parentId) (Some authorId)
        content w
      = (settled
           (Adapter.saveComment (CommentSystem.adapter this)
              (reply_draft postId parentId authorId trimmed 1 (now w))
              (now w) (fetch this parentId w).2).1,
         called
           (call_saveComment
              (reply_draft postId parentId authorId trimmed 1 (now w)))
           (Adapter.saveComment (CommentSystem.adapter this)
              (reply_draft postId parentId authorId trimmed 1 (now w))
              (now w) (fetch this parentId w).2).2
           (called (call_getComment parentId) (fetch this parentId w).2 w)).
Proof.
  intros Hp Hq Ha Hf Hb Hd.
  destruct (reply_depth_check this postId parentId authorId content w parent)
    as [Hiff Hrun]; [done..|].
  rewrite Hd in Hiff, Hrun. simpl in Hiff, Hrun. split.
  - rewrite Hiff. lia.
  - intros trimmed Hmax Hv. by apply Hrun.
Qed.

Lemma reply_parent_without_depth_witness :
  Comment.depth legacy_parent = None
  ∧ ∃ c w',
      CommentSystem.reply (memory_system 10 10000) (Some "post_1") (Some "c1")
        (Some "agent_2") (CommentSystem.content_string "Reply comment")
        legacy_world
      = (Returned c, w')
      ∧ Comment.depth c = Some 1
      ∧ MemoryAdapter.map_get (Comment.id c)
          (MemoryAdapter.comments (storage w')) = Some c.
Proof.
  split; [done|].
  destruct (reply_parent_without_depth (memory_system 10 10000) "post_1" "c1"
              "agent_2" (CommentSystem.content_string "Reply comment")
              legacy_world legacy_parent) as [_ H]; [done..|by left|done|].
  rewrite (H "Reply comment") by done.
  eexists _, _. split; [reflexivity|]. split; reflexivity.
Defined.

(** ** C8: the order of the checks in [reply] *)

Lemma validateContent_empty {S} (this : CommentSystem.t S) content :
  (∃ message,
     CommentSystem._validateContent this content
     = inl (CommentError message "EMPTY_CONTENT"))
  ↔ empty_content content.
Proof.
  unfold CommentSystem._validateContent, empty_content.
  destruct content as [|[|a s]|b]; try (split; [done|by eexists]).
  destruct (trim (String a s)) as [|a' s'] eqn:E; simpl.
  - split; [done|by eexists].
  - split; [|done]. intros [message Hm]. by destruct (_ >? _).
Qed.

(** C8, refuted as stated: a reply to a parent that storage does not know
    fails with [PARENT_NOT_FOUND] although its content is empty, missing or
    blank: the parent is fetched (the one call made) before the content is
    looked at. *)
Lemma reply_unknown_parent_empty_content :
  CommentSystem.reply (memory_system 10 10000) (Some "post_1") (Some "fake_id")
    (Some "agent_1") (CommentSystem.content_string "") fresh_world
  = (Thrown (CommentError "Parent comment not found" "PARENT_NOT_FOUND"),
     called (call_getComment "fake_id") MemoryAdapter.initial fresh_world)
  ∧ CommentSystem.reply (memory_system 10 10000) (Some "post_1") (Some "fake_id")
      (Some "agent_1") CommentSystem.content_missing fresh_world
    = (Thrown (CommentError "Parent comment not found" "PARENT_NOT_FOUND"),
       called (call_getComment "fake_id") MemoryAdapter.initial fresh_world)
  ∧ CommentSystem.reply (memory_system 10 10000) (Some "post_1") (Some "fake_id")
      (Some "agent_1") (CommentSystem.content_string "   ") fresh_world
    = (Thrown (CommentError "Parent comment not found" "PARENT_NOT_FOUND"),
       called (call_getComment "fake_id") MemoryAdapter.initial fresh_world).
Proof. split_and!; reflexivity. Qed.

#[local] Set Warnings "-clear-no-such-hyp".

(** C8, as amended: in [reply] the checks of the identifiers ([MISSING_POST],
    [MISSING_PARENT], [MISSING_AUTHOR], in this order) are applied before
    the parent is fetched, and fail without any call on storage; the checks
    of the content ([EMPTY_CONTENT], [MAX_LENGTH]) are applied after the
    parent has been fetched, found in the post and within depth, and before
    anything is saved.  With the identifiers present, whatever the content:
    a parent that does not resolve gives [PARENT_NOT_FOUND], a parent of
    another post [INVALID_PARENT], a parent too deep [MAX_DEPTH]; only for a
    parent that resolves, belongs to the post and is within depth is the
    content looked at, and then a content error is thrown before
    [saveComment] is called.  So [EMPTY_CONTENT] is thrown exactly when the
    parent is good and the content is missing, not a string or blank, and
    [MAX_LENGTH] exactly when the parent is good and the content is too
    long; in every failure the only call on storage is the [getComment] of
    the parent. *)
Theorem reply_check_order {S} (this : CommentSystem.t S)
    (postId parentId authorId : option string)
    (content : CommentSystem.ContentArg) (w : World S) :
  (truthy postId = false →
   CommentSystem.reply this postId parentId authorId content w
   = (Thrown (CommentError "Post ID is required" "MISSING_POST"), w))
  ∧ (truthy postId = true → truthy parentId = false →
     CommentSystem.reply this postId parentId authorId content w
     = (Thrown (CommentError "Parent ID is required for replies" "MISSING_PARENT"),
        w))
  ∧ (truthy postId = true → truthy parentId = true → truthy authorId = false →
     CommentSystem.reply this postId parentId authorId content w
     = (Thrown (CommentError "Author ID is required" "MISSING_AUTHOR"), w))
  ∧ (∀ p q a,
       postId = Some p → parentId = Some q → authorId = Some a →
       p ≠ "" → q ≠ "" → a ≠ "" →
       let r := CommentSystem.reply this postId parentId authorId content w in
       let w1 := called (call_getComment q) (fetch this q w).2 w in
       let good parent :=
         (fetch this q w).1 = inr (Some parent)
         ∧ belongs_to parent p
         ∧ nullish (Comment.depth parent) 0 + 1 ≤ max_depth this in
       (∀ e, (fetch this q w).1 = inl e → r = (Rejected e, w1))
       ∧ ((fetch this q w).1 = inr None →
          r = (Thrown (CommentError "Parent comment not found"
                                    "PARENT_NOT_FOUND"), w1))
       ∧ (∀ parent,
            (fetch this q w).1 = inr (Some parent) →
            ¬ belongs_to parent p →
            r = (Thrown (CommentError "Parent comment belongs to different post"
                                      "INVALID_PARENT"), w1))
       ∧ (∀ parent,
            (fetch this q w).1 = inr (Some parent) →
            belongs_to parent p →
            nullish (Comment.depth parent) 0 + 1 > max_depth this →
            r = (Thrown (max_depth_error (max_depth this)), w1))
       ∧ (∀ parent e,
            good parent →
            CommentSystem._validateContent this content = inl e →
            r = (Thrown e, w1))
       ∧ (∀ parent trimmed,
            good parent →
            CommentSystem._validateContent this content = inr trimmed →
            let draft :=
              reply_draft p q a trimmed
                (nullish (Comment.depth parent) 0 + 1) (now w) in
            let saved :=
              Adapter.saveComment (CommentSystem.adapter this) draft (now w)
                (storage w1) in
            r = (settled saved.1, called (call_saveComment draft) saved.2 w1))
       ∧ ((∃ message, r.1 = Thrown (CommentError message "EMPTY_CONTENT"))
          ↔ (∃ parent, good parent) ∧ empty_content content)
       ∧ ((∃ message, r.1 = Thrown (CommentError message "MAX_LENGTH"))
          ↔ (∃ parent, good parent)
            ∧ ∃ message,
                CommentSystem._validateContent this content
                = inl (CommentError message "MAX_LENGTH"))
       ∧ ((∃ e, r.1 = Thrown e) → calls r.2 = calls w ++ [call_getComment q]))
  ∧ ((∃ message,
        CommentSystem._validateContent this content
        = inl (CommentError message "EMPTY_CONTENT"))
     ↔ empty_content content).
Proof.
  split_and!.
  - intros Hp. unfold CommentSystem.reply. by rewrite Hp.
  - intros Hp Hq. unfold CommentSystem.reply. by rewrite Hp, Hq.
  - intros Hp Hq Ha. unfold CommentSystem.reply. by rewrite Hp, Hq, Ha.
  - intros p q a -> -> -> Hp Hq Ha r w1 good. subst r good.
    rewrite reply_run by done. cbv zeta. fold w1.
    destruct (fetch this q w).1 as [e|[parent|]] eqn:Hfetch;
      [split_and!; naive_solver| |split_and!; naive_solver].
    destruct (decide (belongs_to parent p)) as [Hb|Hb];
      [|split_and!; naive_solver].
    destruct (decide (nullish (Comment.depth parent) 0 + 1 > max_depth this))
      as [Hd|Hd]; [split_and!; naive_solver lia|].
    assert (nullish (Comment.depth parent) 0 + 1 ≤ max_depth this) as Hd'
      by lia.
    pose proof (validateContent_empty this content) as Hempty.
    destruct (CommentSystem._validateContent this content) as [e|trimmed]
      eqn:Hv; cbn [fst snd].
    + split_and!; try naive_solver lia.
    + pose proof (settled_not_thrown
                    (Adapter.saveComment (CommentSystem.adapter this)
                       (reply_draft p q a trimmed
                          (nullish (Comment.depth parent) 0 + 1) (now w))
                       (now w) (storage w1)).1) as Hsettled.
      split_and!; try naive_solver lia.
  - apply validateContent_empty.
Qed.

#[local] Set Warnings "clear-no-such-hyp".

Lemma reply_check_order_witness :
  (fetch (memory_system 10 10000) "c1" legacy_world).1 = inr (Some legacy_parent)
  ∧ CommentSystem.reply (memory_system 10 10000) (Some "post_1") (Some "c1")
      (Some "agent_2") (CommentSystem.content_string "   ") legacy_world
    = (Thrown (CommentError "Content cannot be empty" "EMPTY_CONTENT"),
       called (call_getComment "c1") (storage legacy_world) legacy_world)
  ∧ CommentSystem.reply (memory_system 10 10000) (Some "post_2") (Some "c1")
      (Some "agent_2") (CommentSystem.content_string "   ") legacy_world
    = (Thrown (CommentError "Parent comment belongs to different post"
                            "INVALID_PARENT"),
       called (call_getComment "c1") (storage legacy_world) legacy_world)
  ∧ CommentSystem.reply (memory_system 0 10000) (Some "post_1") (Some "c1")
      (Some "agent_2") (CommentSystem.content_string "   ") legacy_world
    = (Thrown (max_depth_error 0),
       called (call_getComment "c1") (storage legacy_world) legacy_world).
Proof.
  split; [reflexivity|]. split_and!.
  - destruct (reply_check_order (memory_system 10 10000) (Some "post_1")
                (Some "c1") (Some "agent_2")
                (CommentSystem.content_string "   ") legacy_world)
      as (_ & _ & _ & H & _).
    destruct (H "post_1" "c1" "agent_2") as (_ & _ & _ & _ & Hcontent & _);
      [done..|].
    apply (Hcontent legacy_parent); [|reflexivity].
    split_and!; [reflexivity|by left|done].
  - destruct (reply_check_order (memory_system 10 10000) (Some "post_2")
                (Some "c1") (Some "agent_2")
                (CommentSystem.content_string "   ") legacy_world)
      as (_ & _ & _ & H & _).
    destruct (H "post_2" "c1" "agent_2") as (_ & _ & Hpost & _); [done..|].
    apply (Hpost legacy_parent); [reflexivity|]. by intros [[= ?]|[= ?]].
  - destruct (reply_check_order (memory_system 0 10000) (Some "post_1")
                (Some "c1") (Some "agent_2")
                (CommentSystem.content_string "   ") legacy_world)
      as (_ & _ & _ & H & _).
    destruct (H "post_1" "c1" "agent_2") as (_ & _ & _ & Hdepth & _); [done..|].
    apply (Hdepth legacy_parent); [reflexivity|by left|done].
Defined.

(** ** C5: deletion *)

Lemma delete_run {S} (this : CommentSystem.t S) (commentId agentId : string)
    (w : World S) :
  CommentSystem.delete this commentId agentId w
  = let w1 := called (call_getComment commentId) (fetch this commentId w).2 w in
    match (fetch this commentId w).1 with
    | inl e => (Rejected e, w1)
    | inr None => (Thrown (CommentError "Comment not found" "NOT_FOUND"), w1)
    | inr (Some comment) =>
        if decide (effective_author comment = Some agentId)
        then
          (settled
             (Adapter.deleteComment (CommentSystem.adapter this) commentId
                (now w) (storage w1)).1,
           called (call_deleteComment commentId)
             (Adapter.deleteComment (CommentSystem.adapter this) commentId
                (now w) (storage w1)).2 w1)
        else
          (Thrown (CommentError "Cannot delete another agent's comment"
                                "FORBIDDEN"), w1)
    end.
Proof.
  unfold CommentSystem.delete, bind. rewrite await_run.
  fold (fetch this commentId w).
  destruct (fetch this commentId w) as [[e|[comment|]] st]; simpl; [done| |done].
  fold (effective_author comment).
  destruct (decide (effective_author comment = Some agentId)) as [Ha|Ha].
  - rewrite bool_decide_eq_false_2 by (intros H; by apply H).
    rewrite await_run. done.
  - by rewrite bool_decide_eq_true_2 by done.
Qed.

Lemma memory_map_set_links k c m :
  MemoryAdapter.map_get k m = Some c →
  links <$> MemoryAdapter.map_values
              (MemoryAdapter.map_set k (MemoryAdapter.mark_deleted c) m)
  = links <$> MemoryAdapter.map_values m.
Proof.
  unfold MemoryAdapter.map_values.
  induction m as [|[k' v'] m IH]; simpl; [done|].
  destruct (String.eqb_spec k' k) as [->|Hne]; simpl.
  - by intros [= ->].
  - intros Hget. f_equal. by apply IH.
Qed.

(** The soft delete of the in-memory adapter. *)
Lemma memory_deleteComment commentId now st comment :
  MemoryAdapter.map_get commentId (MemoryAdapter.comments st) = Some comment →
  ∃ st',
    MemoryAdapter.deleteComment commentId now st = (inr tt, st')
    ∧ MemoryAdapter.map_get commentId (MemoryAdapter.comments st')
      = Some (MemoryAdapter.mark_deleted comment)
    ∧ (∀ k, k ≠ commentId →
         MemoryAdapter.map_get k (MemoryAdapter.comments st')
         = MemoryAdapter.map_get k (MemoryAdapter.comments st))
    ∧ links <$> MemoryAdapter._getAll st' = links <$> MemoryAdapter._getAll st.
Proof.
  intros Hget. unfold MemoryAdapter.deleteComment. rewrite Hget.
  eexists. split; [done|]. simpl. split_and!.
  - apply map_get_set_eq.
  - intros k Hk. by apply map_get_set_ne.
  - by apply memory_map_set_links.
Qed.

(** C5: [delete] throws [NOT_FOUND] when the comment does not resolve and
    [FORBIDDEN] when its author is not [agentId]; it calls the adapter's
    [deleteComment] exactly when the comment resolves and its author is
    [agentId], and on the two failures nothing but the read has touched
    storage; the in-memory [deleteComment] sets the content to [[deleted]]
    and the deletion flag, and leaves identity, post, author, parent links
    and depth of every stored comment as they were. *)
Theorem delete_guarded {S} (this : CommentSystem.t S)
    (commentId agentId : string) (w : World S) :
  ((fetch this commentId w).1 = inr None →
   (CommentSystem.delete this commentId agentId w).1
   = Thrown (CommentError "Comment not found" "NOT_FOUND"))
  ∧ (∀ comment,
       (fetch this commentId w).1 = inr (Some comment) →
       effective_author comment ≠ Some agentId →
       (CommentSystem.delete this commentId agentId w).1
       = Thrown (CommentError "Cannot delete another agent's comment"
                              "FORBIDDEN"))
  ∧ calls (CommentSystem.delete this commentId agentId w).2
    = calls w ++ call_getComment commentId
        :: (if deletable this commentId agentId w
            then [call_deleteComment commentId] else [])
  ∧ storage (CommentSystem.delete this commentId agentId w).2
    = (if deletable this commentId agentId w
       then (Adapter.deleteComment (CommentSystem.adapter this) commentId
               (now w) (fetch this commentId w).2).2
       else (fetch this commentId w).2)
  ∧ (deletable this commentId agentId w = true →
     (CommentSystem.delete this commentId agentId w).1
     = settled (Adapter.deleteComment (CommentSystem.adapter this) commentId
                  (now w) (fetch this commentId w).2).1)
  ∧ (∀ now st comment,
       MemoryAdapter.map_get commentId (MemoryAdapter.comments st) = Some comment →
       ∃ st',
         MemoryAdapter.deleteComment commentId now st = (inr tt, st')
         ∧ MemoryAdapter.map_get commentId (MemoryAdapter.comments st')
           = Some (MemoryAdapter.mark_deleted comment)
         ∧ Comment.content (MemoryAdapter.mark_deleted comment) = "[deleted]"
         ∧ Comment.isDeleted (MemoryAdapter.mark_deleted comment) = true
         ∧ (∀ k, k ≠ commentId →
              MemoryAdapter.map_get k (MemoryAdapter.comments st')
              = MemoryAdapter.map_get k (MemoryAdapter.comments st))
         ∧ links <$> MemoryAdapter._getAll st' = links <$> MemoryAdapter._getAll st).
Proof.
  assert (∀ now st comment,
       MemoryAdapter.map_get commentId (MemoryAdapter.comments st) = Some comment →
       ∃ st',
         MemoryAdapter.deleteComment commentId now st = (inr tt, st')
         ∧ MemoryAdapter.map_get commentId (MemoryAdapter.comments st')
           = Some (MemoryAdapter.mark_deleted comment)
         ∧ Comment.content (MemoryAdapter.mark_deleted comment) = "[deleted]"
         ∧ Comment.isDeleted (MemoryAdapter.mark_deleted comment) = true
         ∧ (∀ k, k ≠ commentId →
              MemoryAdapter.map_get k (MemoryAdapter.comments st')
              = MemoryAdapter.map_get k (MemoryAdapter.comments st))
         ∧ links <$> MemoryAdapter._getAll st' = links <$> MemoryAdapter._getAll st)
    as Hmemory.
  { intros now' st0 c Hget.
    destruct (memory_deleteComment commentId now' st0 c Hget)
      as (st' & Hd & Hg & Ho & Hl).
    exists st'. by split_and!. }
  rewrite delete_run. cbv zeta. unfold deletable.
  destruct (fetch this commentId w) as [[e|[comment|]] st] eqn:Hf; simpl.
  - by split_and!.
  - split_and!; [done| | | | |done].
    + intros c [= <-] Ha. by rewrite decide_False.
    + case_decide as Ha.
      * rewrite bool_decide_eq_true_2 by done. simpl. by rewrite <- app_assoc.
      * by rewrite bool_decide_eq_false_2 by done.
    + case_decide as Ha.
      * by rewrite bool_decide_eq_true_2 by done.
      * by rewrite bool_decide_eq_false_2 by done.
    + intros Ha%bool_decide_eq_true. by rewrite decide_True.
  - by split_and!.
Qed.

Lemma delete_guarded_witness :
  deletable (memory_system 10 10000) "comment_1" "agent_2" one_comment_world
  = false
  ∧ calls (CommentSystem.delete (memory_system 10 10000) "comment_1" "agent_2"
             one_comment_world).2
    = calls one_comment_world ++ [call_getComment "comment_1"]
  ∧ calls (CommentSystem.delete (memory_system 10 10000) "comment_1" "agent_1"
             one_comment_world).2
    = calls one_comment_world
        ++ [call_getComment "comment_1"; call_deleteComment "comment_1"].
Proof.
  split; [reflexivity|]. split.
  - destruct (delete_guarded (memory_system 10 10000) "comment_1" "agent_2"
                one_comment_world) as (_ & _ & Hcalls & _).
    exact Hcalls.
  - destruct (delete_guarded (memory_system 10 10000) "comment_1" "agent_1"
                one_comment_world) as (_ & _ & Hcalls & _).
    exact Hcalls.
Defined.

Example delete_by_author :
  (CommentSystem.delete (memory_system 10 10000) "comment_1" "agent_2"
     one_comment_world).1
  = Thrown (CommentError "Cannot delete another agent's comment" "FORBIDDEN")
  ∧ (CommentSystem.delete (memory_system 10 10000) "comment_1" "agent_1"
       one_comment_world).1
    = Returned tt
  ∧ Comment.content
      <$> MemoryAdapter.map_get "comment_1"
            (MemoryAdapter.comments
               (storage
                  (CommentSystem.delete (memory_system 10 10000) "comment_1"
                     "agent_1" one_comment_world).2))
    = Some "[deleted]".
Proof. split_and!; reflexivity. Qed.

(** ** C9: error codes *)

(** C9, refuted as stated: the error of the constructor on an adapter
    without methods, and the error of [updateScore] on an adapter without
    score update, are plain errors: they carry a message and no code. *)
Lemma configuration_errors_have_no_code :
  CommentSystem.constructor empty_adapter CommentSystem.no_options
  = inl (Error "Adapter must implement getComment() method")
  ∧ CommentSystem.updateScore required_only_system "comment_1" 1 fresh_world
    = (Thrown (Error "Adapter does not support updateScore"), fresh_world)
  ∧ error_code (Error "Adapter must implement getComment() method") = None
  ∧ error_code (Error "Adapter does not support updateScore") = None.
Proof. split_and!; reflexivity. Qed.

Lemma validateContent_coded {S} (this : CommentSystem.t S) content e :
  CommentSystem._validateContent this content = inl e → coded e.
Proof.
  unfold CommentSystem._validateContent.
  destruct content as [|[|a s]|b];
    try (intros [= <-]; split; [set_solver|done]).
  destruct (String.length _ =? 0)%nat; [intros [= <-]; split; [set_solver|done]|].
  destruct (_ >? _); [|done]. intros [= <-]. split; [set_solver|done].
Qed.

Lemma await_not_thrown {S A} (c : Call) (op : AdapterOp S A) w e :
  (await c op w).1 ≠ Thrown e.
Proof. rewrite await_run. simpl. apply settled_not_thrown. Qed.

Lemma bind_thrown {S A B} (m : Async S A) (k : A → Async S B) w e :
  (bind m k w).1 = Thrown e →
  (m w).1 = Thrown e ∨ ∃ a w', m w = (Returned a, w') ∧ (k a w').1 = Thrown e.
Proof.
  unfold bind. destruct (m w) as [[a|e'|e'] w']; simpl;
    [|intros [= ->]; by left|intros; discriminate].
  intros Hk. right. by exists a, w'.
Qed.

Lemma throw_coded {S A} (e' e : JsError) (w : World S) :
  (throw (A:=A) e' w).1 = Thrown e → coded e' → coded e.
Proof. unfold throw. simpl. by intros [= <-]. Qed.

Lemma validated_thrown {S} (this : CommentSystem.t S) content w e :
  (CommentSystem.validated this content w).1 = Thrown e → coded e.
Proof.
  unfold CommentSystem.validated.
  destruct (CommentSystem._validateContent this content) as [e'|t] eqn:Hv; [|done].
  intros [= <-]. by eapply validateContent_coded.
Qed.

(** Reads a thrown error off an operation: a [throw] statement of the
    engine, a content check, or nothing (an awaited call never throws). *)
Local Ltac thrown :=
  repeat match goal with
    | H : (bind _ _ _).1 = Thrown _ |- _ =>
        apply bind_thrown in H as [H|(? & ? & ? & H)]
    | H : (await _ _ _).1 = Thrown _ |- _ => by apply await_not_thrown in H
    | H : (CommentSystem.validated _ _ _).1 = Thrown _ |- _ =>
        by apply validated_thrown in H
    | H : (throw _ _).1 = Thrown _ |- _ =>
        apply throw_coded in H; [exact H|]; split; [set_solver|by cbn]
    | H : (ret _ _).1 = Thrown _ |- _ => done
    | H : (new_Date _).1 = Thrown _ |- _ => done
    | H : (if ?b then _ else _) _ = _ |- _ => destruct b
    | H : ((if ?b then _ else _) _).1 = _ |- _ => destruct b
    | H : (match ?o with Some _ => _ | None => _ end _).1 = _ |- _ => destruct o
    end.

(** C9, as amended: every error thrown by [create], [reply], [getComment],
    [delete] and [getReplies] is a [CommentError] whose code is one of the
    ten codes of the engine and differs from its message; [getThread] and
    [getCount] throw nothing of their own; the error of [updateScore] on an
    adapter without score update, and the error of the constructor on an
    adapter that lacks a required method, are plain errors with a message
    and no code. *)
Theorem engine_errors_coded {S} (this : CommentSystem.t S) (w : World S)
    (e : JsError) :
  (∀ postId authorId content,
     (CommentSystem.create this postId authorId content w).1 = Thrown e →
     coded e)
  ∧ (∀ postId parentId authorId content,
       (CommentSystem.reply this postId parentId authorId content w).1 = Thrown e →
       coded e)
  ∧ (∀ commentId,
       (CommentSystem.getComment this commentId w).1 = Thrown e → coded e)
  ∧ (∀ commentId agentId,
       (CommentSystem.delete this commentId agentId w).1 = Thrown e → coded e)
  ∧ (∀ commentId query,
       (CommentSystem.getReplies this commentId query w).1 = Thrown e → coded e)
  ∧ (∀ postId query, (CommentSystem.getThread this postId query w).1 ≠ Thrown e)
  ∧ (∀ postId, (CommentSystem.getCount this postId w).1 ≠ Thrown e)
  ∧ (∀ commentId delta,
       (CommentSystem.updateScore this commentId delta w).1 = Thrown e →
       e = Error "Adapter does not support updateScore" ∧ error_code e = None)
  ∧ (∀ (adapter : Adapter.Object S) options,
       CommentSystem.constructor adapter options = inl e →
       error_code e = None
       ∧ ∃ method, e = Error ("Adapter must implement " +:+ method +:+ "() method")).
Proof.
  split_and!.
  - intros postId authorId content H. unfold CommentSystem.create in H.
    destruct (negb (truthy postId)); [thrown|].
    destruct (negb (truthy authorId)); thrown.
  - intros postId parentId authorId content H. unfold CommentSystem.reply in H.
    destruct (negb (truthy postId)); [thrown|].
    destruct (negb (truthy parentId)); [thrown|].
    destruct (negb (truthy authorId)); thrown.
  - intros commentId H. unfold CommentSystem.getComment in H. thrown.
  - intros commentId agentId H. unfold CommentSystem.delete in H. thrown.
  - intros commentId query H. unfold CommentSystem.getReplies in H.
    destruct (Adapter.getReplies (CommentSystem.adapter this)); thrown.
  - intros postId query H. unfold CommentSystem.getThread in H. thrown.
  - intros postId H. unfold CommentSystem.getCount in H.
    destruct (Adapter.getCount (CommentSystem.adapter this)); thrown.
  - intros commentId delta H. unfold CommentSystem.updateScore in H.
    destruct (Adapter.updateScore (CommentSystem.adapter this)).
    + by apply await_not_thrown in H.
    + by injection H as <-.
  - intros adapter options H.
    unfold CommentSystem.constructor, CommentSystem._validateAdapter in H.
    repeat case_match; simplify_eq; (split; [done|]); by eexists.
Qed.

Lemma engine_errors_coded_witness :
  (CommentSystem.create (memory_system 10 10000) (Some "post_1")
     (Some "agent_1") (CommentSystem.content_string "") fresh_world).1
  = Thrown (CommentError "Content is required" "EMPTY_CONTENT")
  ∧ coded (CommentError "Content is required" "EMPTY_CONTENT").
Proof.
  split; [reflexivity|].
  destruct (engine_errors_coded (memory_system 10 10000) fresh_world
              (CommentError "Content is required" "EMPTY_CONTENT")) as [H _].
  apply (H (Some "post_1") (Some "agent_1") (CommentSystem.content_string "")).
  reflexivity.
Defined.

(** * Further properties of the code *)

(** ** [countComments] and [flattenTree] walk alike *)

(** X1: on every forest, cyclic or not, and with every depth of call stack,
    [countComments] returns the length of what [flattenTree] returns, and
    exhausts the stack exactly when [flattenTree] does. *)
Theorem countComments_flattenTree (fuel : nat) (tree : Forest) :
  countComments fuel tree = length <$> flattenTree fuel tree.
Proof. apply countComments_length. Qed.

(** ** [getDepth] *)

Lemma getDepth_loop_lower fuel commentMap : ∀ current depth d,
  getDepth_loop fuel commentMap current depth = Some d → depth ≤ d.
Proof.
  induction fuel as [|fuel IH]; intros [c|] depth d; simpl; try (intros [= <-]; lia).
  destruct (parentKey c) as [p|]; [|intros [= <-]; lia].
  destruct (depth + 1 >? 100); [intros [= <-]; lia|].
  intros H%IH. lia.
Qed.

(** The safety limit bounds the loop: 101 iterations are enough from depth
    0, and fewer from further on. *)
Lemma getDepth_loop_total fuel commentMap : ∀ current depth,
  0 ≤ depth ≤ 100 → 101 - depth ≤ Z.of_nat fuel →
  ∃ d, getDepth_loop fuel commentMap current depth = Some d ∧ d ≤ 101.
Proof.
  induction fuel as [|fuel IH]; intros [c|] depth H0 Hfuel; simpl;
    try (eexists; split; [done|lia]); [lia|].
  destruct (parentKey c) as [p|]; [|eexists; split; [done|lia]].
  destruct (depth + 1 >? 100) eqn:E; [eexists; split; [done|lia]|].
  rewrite Z.gtb_ltb in E. apply Z.ltb_ge in E.
  destruct (IH (commentMap !! p) (depth + 1)) as (d & -> & Hd); [lia..|].
  exists d. split; [done|lia].
Qed.

Lemma getDepth_loop_more fuel commentMap : ∀ fuel' current depth d,
  getDepth_loop fuel commentMap current depth = Some d → (fuel ≤ fuel')%nat →
  getDepth_loop fuel' commentMap current depth = Some d.
Proof.
  induction fuel as [|fuel IH]; intros fuel' [c|] depth d Hd Hle;
    try (by destruct fuel').
  destruct fuel' as [|fuel']; [lia|]. simpl in Hd |- *.
  destruct (parentKey c) as [p|]; [|done].
  destruct (depth + 1 >? 100); [done|]. apply IH; [done|lia].
Qed.

(** Started later, the loop ends as much later, up to the limit. *)
Lemma getDepth_loop_shift fuel commentMap : ∀ current a b da,
  0 ≤ a → a ≤ b → b ≤ 100 →
  getDepth_loop fuel commentMap current a = Some da →
  getDepth_loop fuel commentMap current b = Some (Z.min 101 (da + (b - a))).
Proof.
  induction fuel as [|fuel IH]; intros [c|] a b da H0 Hab Hb; simpl;
    try (intros [= <-]; f_equal; lia); try done.
  destruct (parentKey c) as [p|]; [|intros [= <-]; f_equal; lia].
  destruct (a + 1 >? 100) eqn:Ea.
  - apply Z.gtb_lt in Ea. intros [= <-].
    rewrite (proj2 (Z.gtb_lt _ _)) by lia. f_equal. lia.
  - rewrite Z.gtb_ltb in Ea. apply Z.ltb_ge in Ea. intros Hda.
    destruct (b + 1 >? 100) eqn:Eb.
    + apply Z.gtb_lt in Eb. apply getDepth_loop_lower in Hda. f_equal. lia.
    + rewrite Z.gtb_ltb in Eb. apply Z.ltb_ge in Eb.
      rewrite (IH _ (a + 1) (b + 1) da) by (done || lia). f_equal. lia.
Qed.

Lemma getDepth_parent fuel commentId commentMap c p d :
  (101 ≤ fuel)%nat →
  commentMap !! commentId = Some c → parentKey c = Some p →
  getDepth fuel p commentMap = Some d →
  getDepth fuel commentId commentMap = Some (Z.min 101 (d + 1)).
Proof.
  intros Hfuel Hc Hp Hd. unfold getDepth in *. rewrite Hc.
  destruct fuel as [|fuel]; [lia|]. cbn [getDepth_loop]. rewrite Hp.
  change (0 + 1) with 1. simpl.
  destruct (getDepth_loop_total fuel commentMap (commentMap !! p) 1)
    as (d1 & Hd1 & _); [lia..|].
  rewrite Hd1.
  apply (getDepth_loop_more _ _ (S fuel)) in Hd1; [|lia].
  rewrite (getDepth_loop_shift _ _ _ 0 1 d) in Hd1 by (done || lia).
  injection Hd1 as <-. done.
Qed.

(** X2: the safety limit makes [getDepth] end on every map, cyclic ones
    included: with room for 101 iterations it returns a depth between 0 and
    101, and more room does not change the result. *)
Theorem getDepth_terminates (fuel : nat) (commentId : string)
    (commentMap : gmap string Comment) :
  (101 ≤ fuel)%nat →
  ∃ d, getDepth fuel commentId commentMap = Some d
       ∧ 0 ≤ d ≤ 101
       ∧ getDepth 101 commentId commentMap = Some d.
Proof.
  intros Hfuel. unfold getDepth.
  destruct (getDepth_loop_total 101 commentMap (commentMap !! commentId) 0)
    as (d & Hd & Hmax); [lia..|].
  exists d. split_and!.
  - by apply (getDepth_loop_more 101).
  - by apply getDepth_loop_lower in Hd.
  - lia.
  - done.
Qed.

(** A map in which two comments name each other as parent. *)
Lemma getDepth_terminates_witness :
  (101 ≤ 150)%nat
  ∧ getDepth 150 "a" (<["a" := bare "a" (Some "b")]> {["b" := bare "b" (Some "a")]})
    = Some 101.
Proof.
  split; [lia|].
  destruct (getDepth_terminates 150 "a"
              (<["a" := bare "a" (Some "b")]> {["b" := bare "b" (Some "a")]}))
    as (d & -> & _ & Hd); [lia|].
  rewrite <- Hd. vm_compute. reflexivity.
Defined.

(** X3: [getDepth] counts parent references: 0 for an id that is not in the
    map and for a comment whose parent reference is falsy; for a comment
    whose parent reference is [p], one more than the depth of [p], capped at
    101, also when [p] itself is not in the map (depth 1, where [buildTree]
    makes such a comment a root). *)
Theorem getDepth_step (fuel : nat) (commentId : string)
    (commentMap : gmap string Comment) :
  (101 ≤ fuel)%nat →
  match commentMap !! commentId with
  | None => getDepth fuel commentId commentMap = Some 0
  | Some comment =>
      match parentKey comment with
      | None => getDepth fuel commentId commentMap = Some 0
      | Some p =>
          ∃ d, getDepth fuel p commentMap = Some d
               ∧ getDepth fuel commentId commentMap = Some (Z.min 101 (d + 1))
               ∧ (commentMap !! p = None → d = 0)
      end
  end.
Proof.
  intros Hfuel. unfold getDepth.
  destruct (commentMap !! commentId) as [c|] eqn:Hc; [|by destruct fuel].
  destruct fuel as [|fuel]; [lia|]. simpl.
  destruct (parentKey c) as [p|] eqn:Hp; [|done].
  destruct (getDepth_loop_total (S fuel) commentMap (commentMap !! p) 0)
    as (d & Hd & _); [lia..|].
  exists d. split; [done|]. split.
  - change (0 + 1) with 1.
    destruct (getDepth_loop_total fuel commentMap (commentMap !! p) 1)
      as (d1 & Hd1 & _); [lia..|].
    rewrite Hd1.
    apply (getDepth_loop_more _ _ (S fuel)) in Hd1; [|lia].
    rewrite (getDepth_loop_shift _ _ _ 0 1 d) in Hd1 by (done || lia).
    injection Hd1 as <-. done.
  - intros Hnone. rewrite Hnone in Hd. by injection Hd as <-.
Qed.

Lemma getDepth_step_witness :
  (101 ≤ 101)%nat
  ∧ ∃ d,
      getDepth 101 "gone" {["2" := bare "2" (Some "gone")]} = Some d
      ∧ getDepth 101 "2" {["2" := bare "2" (Some "gone")]}
        = Some (Z.min 101 (d + 1))
      ∧ (({["2" := bare "2" (Some "gone")]} : gmap string Comment) !! "gone" = None
         → d = 0).
Proof.
  split; [lia|].
  exact (getDepth_step 101 "2" {["2" := bare "2" (Some "gone")]} (le_n 101)).
Defined.

(** ** Sorting under every policy *)

(** X4: whatever the policy name, [sortComments] returns the comments of its
    argument, each as often as it occurs there: nothing is dropped and
    nothing is added, so the length is kept. *)
Theorem sortComments_Permutation (comments : list Comment)
    (sort : option string) :
  sortComments comments sort ≡ₚ comments
  ∧ length (sortComments comments sort) = length comments.
Proof.
  assert (sortComments comments sort ≡ₚ comments) as H
    by apply array_sort_Permutation.
  split; [done|]. by rewrite H.
Qed.

Lemma compare_new_order a b :
  has_time a → has_time b → SortCompare compare_new a b ≤ 0 ↔ new_order a b.
Proof.
  intros [ta Ha] [tb Hb]. unfold SortCompare, compare_new, new_order.
  rewrite Ha, Hb. simpl. lia.
Qed.

Lemma compare_old_order a b :
  has_time a → has_time b → SortCompare compare_old a b ≤ 0 ↔ old_order a b.
Proof.
  intros [ta Ha] [tb Hb]. unfold SortCompare, compare_old, old_order.
  rewrite Ha, Hb. simpl. lia.
Qed.

(** X5: for comments that carry a creation time, ['new'] orders by
    descending and ['old'] by ascending creation time. *)
Theorem sortComments_new_old (comments : list Comment) :
  Forall has_time comments →
  StronglySorted new_order (sortComments comments (Some "new"))
  ∧ StronglySorted old_order (sortComments comments (Some "old")).
Proof.
  intros Ht. split.
  - apply (array_sort_sorted compare_new has_time new_order); [| | |done].
    + apply compare_new_order.
    + intros a b _ _. unfold new_order. lia.
    + intros a b c. unfold new_order. lia.
  - apply (array_sort_sorted compare_old has_time old_order); [| | |done].
    + apply compare_old_order.
    + intros a b _ _. unfold old_order. lia.
    + intros a b c. unfold old_order. lia.
Qed.

Lemma sortComments_new_old_witness :
  Forall has_time [timed "1" 0 100; timed "2" 0 300; timed "3" 0 200]
  ∧ ids (sortComments [timed "1" 0 100; timed "2" 0 300; timed "3" 0 200]
           (Some "new")) = ["2"; "3"; "1"]
  ∧ StronglySorted old_order
      (sortComments [timed "1" 0 100; timed "2" 0 300; timed "3" 0 200]
         (Some "old")).
Proof.
  assert (Forall has_time [timed "1" 0 100; timed "2" 0 300; timed "3" 0 200])
    as Ht by (by apply (bool_decide_unpack _)).
  split_and!; [exact Ht|reflexivity|].
  apply (sortComments_new_old _ Ht).
Defined.

(** A list that is in the order of a consistent comparator is left as it is
    by the sort. *)
Section sorted_input.
Context {A : Type}.
Variable comparefn : A → A → option Z.
Variable P : A → Prop.
Variable R : relation A.
Hypothesis HR : ∀ a b, P a → P b → SortCompare comparefn a b ≤ 0 ↔ R a b.

Lemma sort_insert_last x l :
  P x → Forall P l → Forall (λ y, R y x) l →
  sort_insert comparefn x l = l ++ [x].
Proof.
  intros Hx. induction l as [|y l IH]; intros HP Hl; [done|].
  cbn [sort_insert]. apply Forall_cons in HP as [Hy HP].
  apply Forall_cons in Hl as [Hyx Hl].
  apply HR in Hyx; [|done..].
  cbn [forallb]. rewrite (proj2 (Z.ltb_ge _ _)) by done. cbn [andb].
  by rewrite IH.
Qed.

Lemma array_sort_fold_sorted_input l : ∀ sorted,
  Forall P (sorted ++ l) → StronglySorted R (sorted ++ l) →
  foldl (λ sorted x, sort_insert comparefn x sorted) sorted l = sorted ++ l.
Proof.
  induction l as [|x l IH]; intros sorted HP Hs; simpl; [by rewrite app_nil_r|].
  rewrite sort_insert_last.
  - rewrite IH; rewrite <- ?app_assoc; done.
  - apply Forall_app in HP as [_ HP]. by apply Forall_cons in HP as [? _].
  - by apply Forall_app in HP as [? _].
  - apply Forall_forall. intros y Hy.
    apply (StronglySorted_app_1_elem_of _ _ _ _ _ Hs Hy). by left.
Qed.

Lemma array_sort_sorted_input l :
  Forall P l → StronglySorted R l → array_sort comparefn l = l.
Proof. intros HP Hs. by apply (array_sort_fold_sorted_input l []). Qed.

End sorted_input.

(** X6: sorting twice under ['top'] is sorting once, for comments that carry
    a creation time: the sorted list is a fixed point of the sort. *)
Theorem sortComments_top_idempotent (comments : list Comment) :
  Forall has_time comments →
  sortComments (sortComments comments (Some "top")) (Some "top")
  = sortComments comments (Some "top").
Proof.
  intros Ht.
  apply (array_sort_sorted_input compare_top has_time top_order).
  - apply compare_top_order.
  - unfold sortComments. by rewrite array_sort_Permutation.
  - apply (array_sort_sorted compare_top has_time top_order); [| | |done].
    + apply compare_top_order.
    + intros a b _ _. unfold top_order. lia.
    + intros a b c. unfold top_order. lia.
Qed.

Lemma sortComments_top_idempotent_witness :
  Forall has_time [timed "1" 5 100; timed "2" 7 200; timed "3" 5 300]
  ∧ sortComments
      (sortComments [timed "1" 5 100; timed "2" 7 200; timed "3" 5 300]
         (Some "top")) (Some "top")
    = sortComments [timed "1" 5 100; timed "2" 7 200; timed "3" 5 300]
        (Some "top").
Proof.
  assert (Forall has_time [timed "1" 5 100; timed "2" 7 200; timed "3" 5 300])
    as Ht by (by apply (bool_decide_unpack _)).
  split; [exact Ht|]. apply (sortComments_top_idempotent _ Ht).
Defined.

(** ** Pages *)

Lemma slice_sublist {A} (l : list A) (start stop : Z) :
  slice l start stop `sublist_of` l.
Proof.
  unfold slice. etrans; [apply sublist_take|apply sublist_drop].
Qed.

Lemma slice_index_nonneg len k :
  0 ≤ k → slice_index len k = Z.to_nat (Z.min k len).
Proof. intros Hk. unfold slice_index. by rewrite (proj2 (Z.ltb_ge _ _)). Qed.

Lemma slice_prefix_length {A} (l : list A) (limit : Z) :
  0 ≤ limit →
  Z.of_nat (length (slice l 0 limit)) = Z.min limit (Z.of_nat (length l)).
Proof.
  intros Hl. unfold slice. rewrite !slice_index_nonneg by lia.
  rewrite length_take, length_drop. lia.
Qed.

Lemma slice_length_le {A} (l : list A) (start stop : Z) :
  0 ≤ start → start ≤ stop →
  Z.of_nat (length (slice l start stop)) ≤ stop - start.
Proof.
  intros H0 Hs. unfold slice. rewrite !slice_index_nonneg by lia.
  rewrite length_take, length_drop. lia.
Qed.

Lemma slice_pages {A} (l : list A) (a b c : Z) :
  0 ≤ a → a ≤ b → b ≤ c → slice l a b ++ slice l b c = slice l a c.
Proof.
  intros Ha Hab Hbc. unfold slice. rewrite !slice_index_nonneg by lia.
  set (len := Z.of_nat (length l)).
  set (A' := Z.to_nat (Z.min a len)). set (B' := Z.to_nat (Z.min b len)).
  set (C' := Z.to_nat (Z.min c len)).
  assert (A' ≤ B' ≤ C')%nat as [HAB HBC] by (subst A' B' C'; lia).
  replace (drop B' l) with (drop (B' - A') (drop A' l))
    by (rewrite drop_drop; f_equal; lia).
  rewrite take_take_drop. f_equal. lia.
Qed.

Lemma memory_getComments postId query now st :
  MemoryAdapter.getComments postId query now st
  = (inr (slice (sortComments (post_comments st postId)
                   (Some (nullish (sort query) "top")))
                (nullish (offset query) 0)
                (nullish (offset query) 0 + nullish (limit query) 100)),
     st).
Proof. done. Qed.

(** X7: the in-memory [getComments] never fails and leaves the store as it
    is; with an offset and a limit that are not negative, the page holds at
    most [limit] comments, all of them stored comments of the post and in
    the order of the sorted thread; and a page followed by the next page is
    the page of both limits together. *)
Theorem memory_getComments_page (st : MemoryAdapter.State)
    (postId sort : option string) (offset limit limit' : Z) (now : Z) :
  0 ≤ offset → 0 ≤ limit → 0 ≤ limit' →
  MemoryAdapter.getComments postId
    {| sort := sort; limit := Some limit; offset := Some offset |}
    now st
  = (inr (page st postId sort offset limit), st)
  ∧ Z.of_nat (length (page st postId sort offset limit)) ≤ limit
  ∧ page st postId sort offset limit
    `sublist_of` sortComments (post_comments st postId)
                   (Some (nullish sort "top"))
  ∧ (∀ c, c ∈ page st postId sort offset limit →
       Comment.postId c = postId
       ∧ c ∈ MemoryAdapter._getAll st)
  ∧ page st postId sort offset limit
    ++ page st postId sort (offset + limit) limit'
    = page st postId sort offset (limit + limit').
Proof.
  intros Ho Hl Hl'. unfold page. rewrite !memory_getComments. simpl.
  split_and!.
  - done.
  - etrans; [apply slice_length_le; lia|lia].
  - apply slice_sublist.
  - intros c Hc.
    assert (c ∈ post_comments st postId) as Hin.
    { eapply elem_of_submseteq in Hc; [|apply sublist_submseteq, slice_sublist].
      unfold sortComments in Hc. by rewrite array_sort_Permutation in Hc. }
    by apply list_elem_of_filter in Hin.
  - rewrite slice_pages by lia. f_equal. lia.
Qed.

Lemma memory_getComments_page_witness :
  0 ≤ 0 ∧ 0 ≤ 1 ∧ 0 ≤ 5
  ∧ ids (page (storage one_comment_world) (Some "post_1") None 0 1)
    = ["comment_1"]
  ∧ page (storage one_comment_world) (Some "post_1") None 0 1
    ++ page (storage one_comment_world) (Some "post_1") None (0 + 1) 5
    = page (storage one_comment_world) (Some "post_1") None 0 (1 + 5).
Proof.
  split_and!; [lia|lia|lia|reflexivity|].
  apply (memory_getComments_page (storage one_comment_world) (Some "post_1")
           None 0 1 5 0); lia.
Defined.

(** ** The in-memory store *)

Lemma map_get_Some_elem k c m :
  MemoryAdapter.map_get k m = Some c → (k, c) ∈ m.
Proof.
  induction m as [|[k' v'] m IH]; simpl; [done|].
  destruct (String.eqb_spec k' k) as [->|Hne].
  - intros [= ->]. by left.
  - intros H. right. by apply IH.
Qed.

Lemma map_get_None k m : MemoryAdapter.map_get k m = None ↔ k ∉ m.*1.
Proof.
  induction m as [|[k' v'] m IH]; simpl.
  - split; [intros _; apply not_elem_of_nil|done].
  - rewrite not_elem_of_cons. destruct (String.eqb_spec k' k) as [->|Hne].
    + split; [done|]. by intros [? _].
    + rewrite IH. split; [by intros ?; split|by intros [_ ?]].
Qed.

Lemma map_get_elem k c m :
  NoDup m.*1 → (k, c) ∈ m → MemoryAdapter.map_get k m = Some c.
Proof.
  induction m as [|[k' v'] m IH]; simpl; intros Hnd Hin.
  - by apply elem_of_nil in Hin.
  - apply NoDup_cons in Hnd as [Hk' Hnd].
    apply elem_of_cons in Hin as [[= -> ->]|Hin].
    + by rewrite String.eqb_refl.
    + destruct (String.eqb_spec k' k) as [->|Hne]; [|by apply IH].
      exfalso. apply Hk'. by apply (list_elem_of_fmap_2 fst _ (k, c)).
Qed.

Lemma map_set_absent k v m :
  MemoryAdapter.map_get k m = None → MemoryAdapter.map_set k v m = m ++ [(k, v)].
Proof.
  induction m as [|[k' v'] m IH]; simpl; [done|].
  destruct (String.eqb_spec k' k) as [->|Hne]; [done|].
  intros H. by rewrite IH.
Qed.

Lemma map_set_present_keys k v m :
  is_Some (MemoryAdapter.map_get k m) → (MemoryAdapter.map_set k v m).*1 = m.*1.
Proof.
  induction m as [|[k' v'] m IH]; simpl; [by intros [? ?]|].
  destruct (String.eqb_spec k' k) as [->|Hne]; [done|].
  intros H. simpl. f_equal. by apply IH.
Qed.

Lemma map_set_set k v1 v2 m :
  MemoryAdapter.map_set k v2 (MemoryAdapter.map_set k v1 m)
  = MemoryAdapter.map_set k v2 m.
Proof.
  induction m as [|[k' v'] m IH]; simpl.
  - by rewrite String.eqb_refl.
  - destruct (String.eqb_spec k' k) as [->|Hne]; simpl.
    + by rewrite String.eqb_refl.
    + rewrite (proj2 (String.eqb_neq _ _)) by done. by rewrite IH.
Qed.

Lemma comment_id_inj (n m : nat) :
  "comment_" +:+ pretty n = "comment_" +:+ pretty m → n = m.
Proof.
  intros H. apply pretty_nat_inj. revert H.
  generalize (pretty n) (pretty m). intros s1 s2. simpl. by intros [= H].
Qed.

Lemma wf_store_initial : wf_store MemoryAdapter.initial.
Proof. split; [constructor|done]. Qed.

(** An update in place of a stored comment that keeps its id. *)
Lemma wf_store_update st k c c' :
  wf_store st →
  MemoryAdapter.map_get k (MemoryAdapter.comments st) = Some c →
  Comment.id c' = Comment.id c →
  wf_store {| MemoryAdapter.comments :=
                MemoryAdapter.map_set k c' (MemoryAdapter.comments st);
              MemoryAdapter.idCounter := MemoryAdapter.idCounter st |}.
Proof.
  intros [Hnd Hwf] Hget Hid. split; simpl.
  - by rewrite map_set_present_keys by eauto.
  - intros k0 c0. destruct (decide (k = k0)) as [<-|Hne].
    + rewrite map_get_set_eq. intros [= <-]. rewrite Hid. by apply Hwf.
    + rewrite map_get_set_ne by done. apply Hwf.
Qed.

Lemma wf_store_fresh st :
  wf_store st →
  MemoryAdapter.map_get
    ("comment_" +:+ pretty (S (MemoryAdapter.idCounter st)))
    (MemoryAdapter.comments st) = None.
Proof.
  intros [_ Hwf].
  destruct (MemoryAdapter.map_get _ _) as [c|] eqn:E; [|done].
  destruct (Hwf _ _ E) as (_ & n & Hn%comment_id_inj & Hle). lia.
Qed.

Lemma wf_store_save st draft now :
  wf_store st → wf_store (MemoryAdapter.saveComment draft now st).2.
Proof.
  intros Hst. pose proof (wf_store_fresh st Hst) as Hfresh.
  destruct Hst as [Hnd Hwf]. split; simpl.
  - rewrite map_set_absent by done. rewrite fmap_app. simpl.
    apply NoDup_app. split_and!; [done| |apply NoDup_singleton].
    intros k Hk ->%list_elem_of_singleton. by apply map_get_None in Hfresh.
  - intros k c.
    destruct (decide ("comment_" +:+ pretty (S (MemoryAdapter.idCounter st)) = k))
      as [<-|Hne].
    + rewrite map_get_set_eq. intros [= <-]. split; [done|].
      exists (S (MemoryAdapter.idCounter st)). split; [done|lia].
    + rewrite map_get_set_ne by done. intros Hget.
      destruct (Hwf _ _ Hget) as (Hid & n & Hn & Hle).
      split; [done|]. exists n. split; [done|lia].
Qed.

Lemma wf_store_delete st commentId now :
  wf_store st → wf_store (MemoryAdapter.deleteComment commentId now st).2.
Proof.
  intros Hst. unfold MemoryAdapter.deleteComment.
  destruct (MemoryAdapter.map_get _ _) as [c|] eqn:E; [|done].
  by apply (wf_store_update st commentId c).
Qed.

Lemma wf_store_updateScore st commentId delta now :
  wf_store st → wf_store (MemoryAdapter.updateScore commentId delta now st).2.
Proof.
  intros Hst. unfold MemoryAdapter.updateScore.
  destruct (MemoryAdapter.map_get _ _) as [c|] eqn:E; [|done].
  by apply (wf_store_update st commentId c).
Qed.

(** X8: every operation of the in-memory adapter keeps the store well
    formed (distinct keys, every comment under its own id, ids [comment_n]
    with [n] from 1 to the counter), starting from the empty store of
    [createMemoryAdapter]; the reading operations leave the store as it
    is. *)
Theorem memory_store_invariant (st : MemoryAdapter.State) (now : Z) :
  wf_store st →
  wf_store MemoryAdapter.initial
  ∧ (∀ draft, wf_store (MemoryAdapter.saveComment draft now st).2)
  ∧ (∀ commentId, wf_store (MemoryAdapter.deleteComment commentId now st).2)
  ∧ (∀ commentId delta,
       wf_store (MemoryAdapter.updateScore commentId delta now st).2)
  ∧ wf_store (MemoryAdapter.clear now st).2
  ∧ (∀ commentId, (MemoryAdapter.getComment commentId now st).2 = st)
  ∧ (∀ postId query, (MemoryAdapter.getComments postId query now st).2 = st)
  ∧ (∀ commentId query, (MemoryAdapter.getReplies commentId query now st).2 = st)
  ∧ (∀ postId, (MemoryAdapter.getCount postId now st).2 = st).
Proof.
  intros Hst. split_and!; try done.
  - apply wf_store_initial.
  - intros draft. by apply wf_store_save.
  - intros commentId. by apply wf_store_delete.
  - intros commentId delta. by apply wf_store_updateScore.
  - apply wf_store_initial.
Qed.

Lemma memory_store_invariant_witness :
  wf_store (storage one_comment_world)
  ∧ wf_store
      (MemoryAdapter.deleteComment "comment_1" 0 (storage one_comment_world)).2.
Proof.
  assert (wf_store (storage one_comment_world)) as Hst.
  { change (storage one_comment_world)
      with (MemoryAdapter.saveComment
              (create_draft "post_1" "agent_1" "My comment" 0) 0
              MemoryAdapter.initial).2.
    apply wf_store_save, wf_store_initial. }
  split; [exact Hst|].
  apply (memory_store_invariant (storage one_comment_world) 0 Hst).
Defined.

(** X9: in a well-formed store [saveComment] takes an id that no stored
    comment has: it returns the record it stores, [getComment] of the new id
    finds that record, every comment stored before is found as before, and
    the new record comes last in the map. *)
Theorem memory_saveComment_fresh (st : MemoryAdapter.State) (draft : Draft)
    (now : Z) :
  wf_store st →
  ∃ saved,
    (MemoryAdapter.saveComment draft now st).1 = inr saved
    ∧ Comment.id saved
      = "comment_" +:+ pretty (S (MemoryAdapter.idCounter st))
    ∧ MemoryAdapter.map_get (Comment.id saved) (MemoryAdapter.comments st) = None
    ∧ (MemoryAdapter.getComment (Comment.id saved) now
         (MemoryAdapter.saveComment draft now st).2).1
      = inr (Some saved)
    ∧ (∀ k, k ≠ Comment.id saved →
         (MemoryAdapter.getComment k now
            (MemoryAdapter.saveComment draft now st).2).1
         = (MemoryAdapter.getComment k now st).1)
    ∧ MemoryAdapter._getAll (MemoryAdapter.saveComment draft now st).2
      = MemoryAdapter._getAll st ++ [saved].
Proof.
  intros Hst. pose proof (wf_store_fresh st Hst) as Hfresh.
  destruct (memory_saveComment draft now st) as (saved & Hs & Hid & _).
  exists saved. rewrite Hs. simpl. rewrite Hid. split_and!; try done.
  - by rewrite map_get_set_eq.
  - intros k Hk. by rewrite map_get_set_ne.
  - unfold MemoryAdapter._getAll, MemoryAdapter.map_values. simpl.
    rewrite map_set_absent by done. by rewrite fmap_app.
Qed.

Lemma memory_saveComment_fresh_witness :
  wf_store MemoryAdapter.initial
  ∧ ∃ saved,
      (MemoryAdapter.saveComment (create_draft "post_1" "agent_1" "Hello" 0) 0
         MemoryAdapter.initial).1 = inr saved
      ∧ Comment.id saved = "comment_1".
Proof.
  split; [apply wf_store_initial|].
  destruct (memory_saveComment_fresh MemoryAdapter.initial
              (create_draft "post_1" "agent_1" "Hello" 0) 0 wf_store_initial)
    as (saved & Hs & Hid & _).
  exists saved. split; [exact Hs|]. rewrite Hid. reflexivity.
Defined.


Lemma mark_deleted_idemp c :
  MemoryAdapter.mark_deleted (MemoryAdapter.mark_deleted c)
  = MemoryAdapter.mark_deleted c.
Proof. done. Qed.






(** X11: the soft delete of the in-memory adapter is idempotent, and does
    nothing for an id that is not stored: deleting again leaves the store as
    the first delete left it, the comment stays stored under its id with the
    same links, and no other comment changes. *)
Theorem memory_deleteComment_idempotent (st : MemoryAdapter.State)
    (commentId : string) (now now' : Z) :
  let first := MemoryAdapter.deleteComment commentId now st in
  MemoryAdapter.deleteComment commentId now' first.2 = (inr tt, first.2)
  ∧ (MemoryAdapter.map_get commentId (MemoryAdapter.comments st) = None →
     first = (inr tt, st))
  ∧ MemoryAdapter.map_get commentId (MemoryAdapter.comments first.2)
    = MemoryAdapter.mark_deleted
        <$> MemoryAdapter.map_get commentId (MemoryAdapter.comments st)
  ∧ (∀ k, k ≠ commentId →
       MemoryAdapter.map_get k (MemoryAdapter.comments first.2)
       = MemoryAdapter.map_get k (MemoryAdapter.comments st))
  ∧ (MemoryAdapter.comments first.2).*1 = (MemoryAdapter.comments st).*1
  ∧ MemoryAdapter.idCounter first.2 = MemoryAdapter.idCounter st.
Proof.
  intros first. subst first. unfold MemoryAdapter.deleteComment.
  destruct (MemoryAdapter.map_get commentId (MemoryAdapter.comments st))
    as [comment|] eqn:E; simpl; split_and!; try done.
  - rewrite map_get_set_eq. by rewrite map_set_set, mark_deleted_idemp.
  - by rewrite map_get_set_eq.
  - intros k Hk. by rewrite map_get_set_ne.
  - apply map_set_present_keys. by rewrite E.
  - by rewrite E.
Qed.

(** ** The engine *)

Lemma validated_run {S} (this : CommentSystem.t S) content (w : World S) :
  CommentSystem.validated this content w
  = match CommentSystem._validateContent this content with
    | inl e => (Thrown e, w)
    | inr trimmed => (Returned trimmed, w)
    end.
Proof.
  unfold CommentSystem.validated.
  by destruct (CommentSystem._validateContent this content).
Qed.

Lemma create_cases {S} (this : CommentSystem.t S)
    (postId authorId : option string) (content : CommentSystem.ContentArg)
    (w : World S) :
  CommentSystem.create this postId authorId content w
  = if negb (truthy postId)
    then (Thrown (CommentError "Post ID is required" "MISSING_POST"), w)
    else if negb (truthy authorId)
    then (Thrown (CommentError "Author ID is required" "MISSING_AUTHOR"), w)
    else
      match CommentSystem._validateContent this content with
      | inl e => (Thrown e, w)
      | inr trimmed =>
          let draft :=
            {| draft_postId := postId;
               draft_authorId := authorId;
               draft_content := trimmed;
               draft_parentId := None;
               draft_depth := Some 0;
               draft_score := Some 0;
               draft_upvotes := Some 0%float;
               draft_downvotes := Some 0%float;
               draft_createdAt := Some (now w) |} in
          let saved :=
            Adapter.saveComment (CommentSystem.adapter this) draft (now w)
              (storage w) in
          (settled saved.1, called (call_saveComment draft) saved.2 w)
      end.
Proof.
  unfold CommentSystem.create.
  destruct (truthy postId); [|done]. destruct (truthy authorId); [|done].
  simpl. unfold bind at 1. rewrite validated_run.
  destruct (CommentSystem._validateContent this content) as [e|trimmed]; [done|].
  unfold bind, new_Date. rewrite await_run. simpl.
  by destruct (Adapter.saveComment _ _ _ _) as [[e|saved] st].
Qed.

(** X12: [create] checks before it stores.  A call without a post id
    throws MISSING_POST, one with a post id and without an author id throws
    MISSING_AUTHOR, one with both and a content that fails validation throws
    the validation error; in all three cases no operation of the adapter has
    been called and the storage is untouched.  Otherwise the adapter's
    [saveComment] is called exactly once, with a root draft (no parent,
    depth 0, score and votes 0) that holds the trimmed content and the
    current time, and [create] settles as that call does. *)
Theorem create_checks_first {S} (this : CommentSystem.t S)
    (postId authorId : option string) (content : CommentSystem.ContentArg)
    (w : World S) :
  let r := CommentSystem.create this postId authorId content w in
  (truthy postId = false →
   r = (Thrown (CommentError "Post ID is required" "MISSING_POST"), w))
  ∧ (truthy postId = true → truthy authorId = false →
     r = (Thrown (CommentError "Author ID is required" "MISSING_AUTHOR"), w))
  ∧ (truthy postId = true → truthy authorId = true →
     match CommentSystem._validateContent this content with
     | inl e => r = (Thrown e, w)
     | inr trimmed =>
         let draft :=
           {| draft_postId := postId;
              draft_authorId := authorId;
              draft_content := trimmed;
              draft_parentId := None;
              draft_depth := Some 0;
              draft_score := Some 0;
              draft_upvotes := Some 0%float;
              draft_downvotes := Some 0%float;
              draft_createdAt := Some (now w) |} in
         let saved :=
           Adapter.saveComment (CommentSystem.adapter this) draft (now w)
             (storage w) in
         r = (settled saved.1, called (call_saveComment draft) saved.2 w)
     end)
  ∧ (∀ e, r.1 = Thrown e → r.2 = w).
Proof.
  intros r. subst r. rewrite create_cases.
  destruct (truthy postId); [|by split_and!].
  destruct (truthy authorId); [|by split_and!].
  destruct (CommentSystem._validateContent this content) as [e|trimmed];
    [by split_and!|].
  simpl. split_and!; try done.
  intros e He. by apply settled_not_thrown in He.
Qed.


(** X14: counting on the in-memory store.  With the adapter's own
    [getCount] the engine returns the number of stored comments of the post;
    with an adapter that has only the four required methods it counts the
    page that [getComments] returns for the limit 10000, so the count is
    capped at 10000.  Neither changes the store. *)
Theorem getCount_fallback_capped (maxDepth maxLength : Z)
    (postId : option string) (w : World MemoryAdapter.State) :
  let n := Z.of_nat (length (post_comments (storage w) postId)) in
  CommentSystem.getCount (memory_system maxDepth maxLength) postId w
  = (Returned n, called (call_getCount postId) (storage w) w)
  ∧ CommentSystem.getCount required_only_system postId w
    = (Returned (Z.min 10000 n),
       called (call_getComments postId
                 {| sort := None; limit := Some 10000; offset := None |})
              (storage w) w).
Proof.
  intros n. subst n. split.
  - unfold CommentSystem.getCount. simpl. by rewrite await_run.
  - unfold CommentSystem.getCount. simpl. unfold bind. rewrite await_run.
    rewrite memory_getComments. simpl. unfold ret. f_equal. f_equal.
    rewrite slice_prefix_length by lia.
    unfold sortComments. by rewrite array_sort_Permutation.
Qed.

Lemma getReplies_fallback_run {S} (this : CommentSystem.t S)
    (commentId : string) (query : QueryOptions) (w : World S) :
  Adapter.getReplies (CommentSystem.adapter this) = None →
  CommentSystem.getReplies this commentId query w
  = let w1 := called (call_getComment commentId) (fetch this commentId w).2 w in
    match (fetch this commentId w).1 with
    | inl e => (Rejected e, w1)
    | inr None => (Thrown (CommentError "Comment not found" "NOT_FOUND"), w1)
    | inr (Some comment) =>
        let postId :=
          js_or truthy (Comment.postId comment) (Comment.post_id comment) in
        let all := {| sort := None; limit := Some 1000; offset := None |} in
        let listed :=
          Adapter.getComments (CommentSystem.adapter this) postId all (now w)
            (storage w1) in
        match listed.1 with
        | inl e => (Rejected e, called (call_getComments postId all) listed.2 w1)
        | inr allComments =>
            (Returned
               (slice (sortComments (filter (answers commentId) allComments)
                         (Some (nullish (sort query) "top")))
                      0 (nullish (limit query) 25)),
             called (call_getComments postId all) listed.2 w1)
        end
    end.
Proof.
  intros Hno. unfold CommentSystem.getReplies. rewrite Hno.
  unfold bind at 1. rewrite await_run. unfold fetch. simpl.
  destruct (Adapter.getComment _ _ _ _) as [[e|[comment|]] st]; simpl; try done.
  unfold bind. rewrite await_run. simpl.
  by destruct (Adapter.getComments _ _ _ _ _) as [[e|allComments] st'].
Qed.

(** X15: [getReplies] with an adapter that has no [getReplies] of its
    own.  The comment is looked up first: when it does not resolve the call
    throws NOT_FOUND and nothing else is asked of the adapter.  When it does,
    the comments of its post are asked for once, with the limit 1000 and no
    sort, and the result holds only comments of that answer whose parent
    reference is [commentId], each at most as often as in the answer, at most
    [limit] of them (25 when no limit is given), and all of them when the
    limit is not below their number. *)
Theorem getReplies_fallback {S} (this : CommentSystem.t S)
    (commentId : string) (query : QueryOptions) (w : World S) :
  Adapter.getReplies (CommentSystem.adapter this) = None →
  let r := CommentSystem.getReplies this commentId query w in
  let atMost := nullish (limit query) 25 in
  match (fetch this commentId w).1 with
  | inl e => r.1 = Rejected e ∧ calls r.2 = calls w ++ [call_getComment commentId]
  | inr None =>
      r.1 = Thrown (CommentError "Comment not found" "NOT_FOUND")
      ∧ calls r.2 = calls w ++ [call_getComment commentId]
  | inr (Some comment) =>
      let postId :=
        js_or truthy (Comment.postId comment) (Comment.post_id comment) in
      let all := {| sort := None; limit := Some 1000; offset := None |} in
      calls r.2
      = calls w ++ [call_getComment commentId; call_getComments postId all]
      ∧ match (Adapter.getComments (CommentSystem.adapter this) postId all
                 (now w) (fetch this commentId w).2).1 with
        | inl e => r.1 = Rejected e
        | inr allComments =>
            ∃ replies,
              r.1 = Returned replies
              ∧ replies ⊆+ filter (answers commentId) allComments
              ∧ (0 ≤ atMost → Z.of_nat (length replies) ≤ atMost)
              ∧ (Z.of_nat (length (filter (answers commentId) allComments))
                   ≤ atMost →
                 replies ≡ₚ filter (answers commentId) allComments)
        end
  end.
Proof.
  intros Hno r atMost. subst r atMost. rewrite getReplies_fallback_run by done.
  simpl. destruct (fetch this commentId w) as [[e|[comment|]] st]; simpl;
    [done| |done].
  destruct (Adapter.getComments _ _ _ _ _) as [[e|allComments] st']; simpl.
  { split; [|done]. by rewrite <- app_assoc. }
  split; [by rewrite <- app_assoc|].
  set (replies := filter (answers commentId) allComments).
  set (sorted := sortComments replies _).
  assert (sorted ≡ₚ replies) as Hperm
    by (unfold sorted, sortComments; apply array_sort_Permutation).
  exists (slice sorted 0 (nullish (limit query) 25)).
  split_and!.
  - done.
  - rewrite <- Hperm. apply sublist_submseteq, slice_sublist.
  - intros Hl. rewrite slice_prefix_length by done. lia.
  - intros Hl. rewrite <- Hperm.
    assert (slice sorted 0 (nullish (limit query) 25) = sorted)
      as ->; [|done].
    assert (length sorted = length replies) as Hlen by by rewrite Hperm.
    unfold slice. rewrite !slice_index_nonneg by lia.
    replace (Z.to_nat (0 `min` Z.of_nat (length sorted))) with 0%nat by lia.
    simpl. apply take_ge. lia.
Qed.

Lemma getReplies_fallback_witness :
  Adapter.getReplies (CommentSystem.adapter required_only_system) = None
  ∧ ∃ replies,
      (CommentSystem.getReplies required_only_system "comment_1"
         {| sort := None; limit := None; offset := None |} one_reply_world).1
      = Returned replies
      ∧ length replies = 1%nat.
Proof.
  split; [reflexivity|].
  pose proof (getReplies_fallback required_only_system "comment_1"
                {| sort := None; limit := None; offset := None |}
                one_reply_world eq_refl) as H.
  cbv zeta in H.
  change (fetch required_only_system "comment_1" one_reply_world)
    with (@inr JsError _
            (MemoryAdapter.map_get "comment_1"
               (MemoryAdapter.comments (storage one_reply_world))),
          storage one_reply_world) in H.
  assert (MemoryAdapter.map_get "comment_1"
            (MemoryAdapter.comments (storage one_reply_world))
          = Some (nullish (MemoryAdapter.map_get "comment_1"
                    (MemoryAdapter.comments (storage one_reply_world)))
                    (bare "" None))) as E by (vm_compute; reflexivity).
  rewrite E in H. cbn beta iota delta [fst snd] in H.
  destruct H as [_ H]. rewrite memory_getComments in H.
  cbn beta iota delta [fst snd] in H.
  destruct H as (replies & Hr & _ & _ & Hall).
  exists replies. split; [exact Hr|].
  rewrite Hall; vm_compute; [reflexivity|discriminate].
Defined.

(** ** Sessions on the in-memory adapter *)

Lemma truthy_Some v : truthy v = true → ∃ s, v = Some s ∧ s ≠ "".
Proof.
  destruct v as [s|]; [|done]. simpl. intros H. exists s. split; [done|].
  intros ->. done.
Qed.

Lemma truthy_true s : s ≠ "" → truthy (Some s) = true.
Proof. intros H. simpl. by destruct (String.eqb_spec s ""). Qed.

Lemma validateContent_bounds {S} (this : CommentSystem.t S) content trimmed :
  CommentSystem._validateContent this content = inr trimmed →
  trimmed ≠ "" ∧ Z.of_nat (String.length trimmed) ≤ max_length this.
Proof.
  unfold CommentSystem._validateContent.
  destruct content as [|s|truth]; [done| |done].
  destruct s as [|a s]; [done|].
  destruct (String.length (trim (String a s)) =? 0)%nat eqn:E0; [done|].
  destruct (Z.of_nat _ >? _) eqn:E1; [done|].
  intros [= <-]. split; [|lia].
  intros E. rewrite E in E0. done.
Qed.

Lemma engine_made_mono maxDepth maxLength st st' c :
  (∀ p parent,
     MemoryAdapter.map_get p (MemoryAdapter.comments st) = Some parent →
     ∃ parent',
       MemoryAdapter.map_get p (MemoryAdapter.comments st') = Some parent'
       ∧ Comment.depth parent' = Comment.depth parent
       ∧ Comment.postId parent' = Comment.postId parent) →
  engine_made maxDepth maxLength st c → engine_made maxDepth maxLength st' c.
Proof.
  intros Hst (?&?&?&?&?&?&?&?&?& d & Hd & Hp).
  split_and!; try done. exists d. split; [done|].
  destruct (Comment.parentId c) as [p|]; [|done].
  destruct Hp as (? & ? & parent & Hparent & Hpd & Hpp).
  split; [done|]. split; [done|].
  destruct (Hst _ _ Hparent) as (parent' & ? & Hd' & Hp').
  exists parent'. by rewrite Hd', Hp'.
Qed.

Lemma thread_inv_initial maxDepth maxLength :
  thread_inv maxDepth maxLength MemoryAdapter.initial.
Proof. split; [apply wf_store_initial|done]. Qed.

Lemma thread_inv_save maxDepth maxLength st draft now saved :
  thread_inv maxDepth maxLength st →
  (MemoryAdapter.saveComment draft now st).1 = inr saved →
  engine_made maxDepth maxLength st saved →
  thread_inv maxDepth maxLength (MemoryAdapter.saveComment draft now st).2.
Proof.
  intros [Hwf Hinv] Hsaved Hmade.
  pose proof (wf_store_fresh st Hwf) as Hfresh.
  assert (∀ p parent,
            MemoryAdapter.map_get p (MemoryAdapter.comments st) = Some parent →
            ∃ parent',
              MemoryAdapter.map_get p
                (MemoryAdapter.comments
                   (MemoryAdapter.saveComment draft now st).2) = Some parent'
              ∧ Comment.depth parent' = Comment.depth parent
              ∧ Comment.postId parent' = Comment.postId parent) as Hmono.
  { intros p parent Hp. exists parent. split; [|done]. simpl.
    rewrite map_get_set_ne; [done|]. intros <-. congruence. }
  split; [by apply wf_store_save|].
  intros k c Hk. simpl in Hk.
  destruct (decide ("comment_" +:+ pretty (S (MemoryAdapter.idCounter st)) = k))
    as [<-|Hne].
  - rewrite map_get_set_eq in Hk. injection Hk as <-.
    injection Hsaved as Hsaved. rewrite Hsaved.
    by apply (engine_made_mono _ _ st).
  - rewrite map_get_set_ne in Hk by done.
    apply (engine_made_mono _ _ st); [done|]. by apply (Hinv k).
Qed.

Lemma thread_inv_update maxDepth maxLength st k c c' :
  thread_inv maxDepth maxLength st →
  MemoryAdapter.map_get k (MemoryAdapter.comments st) = Some c →
  Comment.id c' = Comment.id c →
  Comment.depth c' = Comment.depth c →
  Comment.postId c' = Comment.postId c →
  (∀ st', engine_made maxDepth maxLength st' c →
          engine_made maxDepth maxLength st' c') →
  thread_inv maxDepth maxLength
    {| MemoryAdapter.comments :=
         MemoryAdapter.map_set k c' (MemoryAdapter.comments st);
       MemoryAdapter.idCounter := MemoryAdapter.idCounter st |}.
Proof.
  intros [Hwf Hinv] Hk Hid Hd Hp Hmade.
  set (st' := {| MemoryAdapter.comments := _ |}).
  assert (∀ p parent,
            MemoryAdapter.map_get p (MemoryAdapter.comments st) = Some parent →
            ∃ parent',
              MemoryAdapter.map_get p (MemoryAdapter.comments st') = Some parent'
              ∧ Comment.depth parent' = Comment.depth parent
              ∧ Comment.postId parent' = Comment.postId parent) as Hmono.
  { intros p parent Hparent. simpl. destruct (decide (k = p)) as [<-|Hne].
    - exists c'. rewrite map_get_set_eq. rewrite Hk in Hparent.
      injection Hparent as <-. by split_and!.
    - exists parent. by rewrite map_get_set_ne. }
  split; [by apply (wf_store_update st k c)|].
  intros k0 c0. simpl. destruct (decide (k = k0)) as [<-|Hne].
  - rewrite map_get_set_eq. intros [= <-]. apply Hmade.
    apply (engine_made_mono _ _ st); [done|]. by apply (Hinv k).
  - rewrite map_get_set_ne by done. intros Hk0.
    apply (engine_made_mono _ _ st); [done|]. by apply (Hinv k0).
Qed.

Lemma engine_made_mark_deleted maxDepth maxLength st c :
  engine_made maxDepth maxLength st c →
  engine_made maxDepth maxLength st (MemoryAdapter.mark_deleted c).
Proof. intros (?&?&?&?&?&?&?&?&?&?). by split_and!. Qed.

Lemma engine_made_set_score maxDepth maxLength st score c :
  engine_made maxDepth maxLength st c →
  engine_made maxDepth maxLength st (MemoryAdapter.set_score score c).
Proof. intros (?&?&?&?&?&?&?&?&?&?). by split_and!. Qed.

Lemma thread_inv_deleteComment maxDepth maxLength st commentId now :
  thread_inv maxDepth maxLength st →
  thread_inv maxDepth maxLength
    (MemoryAdapter.deleteComment commentId now st).2.
Proof.
  intros Hst. unfold MemoryAdapter.deleteComment.
  destruct (MemoryAdapter.map_get _ _) as [c|] eqn:E; [|done].
  apply (thread_inv_update _ _ st commentId c); try done.
  intros st'. apply engine_made_mark_deleted.
Qed.

Lemma thread_inv_updateScore maxDepth maxLength st commentId delta now :
  thread_inv maxDepth maxLength st →
  thread_inv maxDepth maxLength
    (MemoryAdapter.updateScore commentId delta now st).2.
Proof.
  intros Hst. unfold MemoryAdapter.updateScore.
  destruct (MemoryAdapter.map_get _ _) as [c|] eqn:E; [|done].
  apply (thread_inv_update _ _ st commentId c); try done.
  intros st'. apply engine_made_set_score.
Qed.

Lemma engine_made_depth maxDepth maxLength st c :
  engine_made maxDepth maxLength st c →
  ∃ d, Comment.depth c = Some d ∧ 0 ≤ d.
Proof.
  intros (_&_&_&_&_&_&_&_&_& d & Hd & Hp). exists d. split; [done|].
  destruct (Comment.parentId c); lia.
Qed.

Lemma create_thread_inv maxDepth maxLength postId authorId content w :
  thread_inv maxDepth maxLength (storage w) →
  thread_inv maxDepth maxLength
    (storage (CommentSystem.create (memory_system maxDepth maxLength) postId
                authorId content w).2).
Proof.
  intros Hst. rewrite create_cases.
  destruct (truthy postId) eqn:Hp; [|done].
  destruct (truthy authorId) eqn:Ha; [|done]. cbn [negb].
  destruct (CommentSystem._validateContent _ content) as [e|trimmed] eqn:Hv;
    [done|].
  apply validateContent_bounds in Hv as [Hne Hlen].
  cbv zeta. unfold called. cbn [snd storage].
  eapply thread_inv_save; [done|reflexivity|].
  split_and!; try done. by exists 0.
Qed.

Lemma reply_thread_inv maxDepth maxLength postId parentId authorId content w :
  thread_inv maxDepth maxLength (storage w) →
  thread_inv maxDepth maxLength
    (storage (CommentSystem.reply (memory_system maxDepth maxLength) postId
                parentId authorId content w).2).
Proof.
  intros Hst.
  destruct (truthy postId) eqn:Hp;
    [|by unfold CommentSystem.reply; rewrite Hp].
  destruct (truthy parentId) eqn:Hr;
    [|by unfold CommentSystem.reply; rewrite Hp, Hr].
  destruct (truthy authorId) eqn:Ha;
    [|by unfold CommentSystem.reply; rewrite Hp, Hr, Ha].
  apply truthy_Some in Hp as (post & -> & Hpost).
  apply truthy_Some in Hr as (parentRef & -> & Hparent).
  apply truthy_Some in Ha as (author & -> & Hauthor).
  rewrite reply_run by done. rewrite memory_fetch.
  cbv zeta. unfold called. cbn [fst snd storage].
  destruct (MemoryAdapter.map_get parentRef _) as [parent|] eqn:Hget; [|done].
  destruct (decide (belongs_to parent post)) as [Hbelongs|]; [|done].
  destruct (decide (_ > _)) as [|Hdepth]; [done|].
  destruct (CommentSystem._validateContent _ content) as [e|trimmed] eqn:Hv;
    [done|].
  apply validateContent_bounds in Hv as [Hne Hlen]. cbn [fst snd storage].
  eapply thread_inv_save; [done|reflexivity|].
  destruct Hst as [Hwf Hinv]. pose proof (Hinv _ _ Hget) as Hmade.
  destruct (engine_made_depth _ _ _ _ Hmade) as (dp & Hdp & Hdp0).
  destruct Hmade as (Hpost_id & _).
  rewrite Hdp in Hdepth. simpl in Hdepth.
  split_and!; try done; try by apply truthy_true.
  exists (dp + 1). rewrite Hdp. split; [done|]. simpl.
  split; [done|]. split; [lia|].
  exists parent. split_and!; [done|rewrite Hdp; f_equal; lia|].
  destruct Hbelongs as [H|H]; [done|congruence].
Qed.

Lemma perform_thread_inv maxDepth maxLength request w :
  thread_inv maxDepth maxLength (storage w) →
  thread_inv maxDepth maxLength
    (storage (perform (memory_system maxDepth maxLength) request w)).
Proof.
  intros Hst. destruct request; cbn [perform].
  - by apply create_thread_inv.
  - by apply reply_thread_inv.
  - unfold CommentSystem.getThread, bind. by rewrite await_run.
  - unfold CommentSystem.getComment, bind. rewrite await_run. simpl.
    by destruct (MemoryAdapter.map_get _ _).
  - rewrite delete_run, memory_fetch. simpl.
    destruct (MemoryAdapter.map_get _ _) as [c|]; [|done].
    destruct (decide _); [|done]. simpl.
    by apply thread_inv_deleteComment.
  - unfold CommentSystem.getReplies.
    change (Adapter.getReplies _) with (Some MemoryAdapter.getReplies). cbv beta iota.
    by rewrite await_run.
  - unfold CommentSystem.getCount.
    change (Adapter.getCount _) with (Some MemoryAdapter.getCount). cbv beta iota.
    by rewrite await_run.
  - unfold CommentSystem.updateScore.
    change (Adapter.updateScore _) with (Some MemoryAdapter.updateScore). cbv beta iota.
    rewrite await_run. cbn [snd storage called].
    by apply thread_inv_updateScore.
Qed.

Lemma session_thread_inv maxDepth maxLength requests : ∀ w,
  thread_inv maxDepth maxLength (storage w) →
  thread_inv maxDepth maxLength
    (storage (session (memory_system maxDepth maxLength) requests w)).
Proof.
  induction requests as [|[time request] requests IH]; intros w Hst; [done|].
  simpl. apply IH. by apply perform_thread_inv.
Qed.

Lemma stored_elem st c :
  wf_store st → c ∈ MemoryAdapter._getAll st →
  MemoryAdapter.map_get (Comment.id c) (MemoryAdapter.comments st) = Some c.
Proof.
  intros [Hnd Hwf] Hc.
  apply list_elem_of_fmap in Hc as ([k c'] & -> & Hin). simpl.
  pose proof (map_get_elem _ _ _ Hnd Hin) as Hget.
  destruct (Hwf _ _ Hget) as [-> _]. done.
Qed.

Lemma wf_store_ids st :
  wf_store st
  → ids (MemoryAdapter._getAll st) = (MemoryAdapter.comments st).*1.
Proof.
  intros [Hnd Hwf].
  assert (Forall (λ kc, Comment.id kc.2 = kc.1) (MemoryAdapter.comments st))
    as Hall.
  { apply Forall_forall. intros [k c] Hin. simpl.
    by destruct (Hwf _ _ (map_get_elem _ _ _ Hnd Hin)). }
  unfold ids, MemoryAdapter._getAll, MemoryAdapter.map_values.
  clear Hnd Hwf. revert Hall. generalize (MemoryAdapter.comments st).
  intros l Hall. induction Hall as [|[k c] l Hkc _ IH]; [done|].
  rewrite !fmap_cons. simpl in Hkc. simpl. by f_equal.
Qed.

Lemma wf_store_NoDup_ids st :
  wf_store st → NoDup (ids (MemoryAdapter._getAll st)).
Proof. intros Hst. rewrite wf_store_ids by done. apply Hst. Qed.

Lemma page_sublist st postId sort offset limit :
  page st postId sort offset limit
  `sublist_of` sortComments (post_comments st postId) (Some (nullish sort "top")).
Proof. unfold page. rewrite memory_getComments. simpl. apply slice_sublist. Qed.

Lemma page_stored st postId sort offset limit c :
  c ∈ page st postId sort offset limit →
  c ∈ MemoryAdapter._getAll st ∧ Comment.postId c = postId.
Proof.
  intros Hc.
  eapply elem_of_submseteq in Hc; [|apply sublist_submseteq, page_sublist].
  unfold sortComments in Hc. rewrite array_sort_Permutation in Hc.
  apply list_elem_of_filter in Hc as [? ?]. done.
Qed.

Lemma page_NoDup st postId sort offset limit :
  wf_store st → NoDup (ids (page st postId sort offset limit)).
Proof.
  intros Hst. eapply sublist_NoDup; last (apply fmap_sublist, page_sublist).
  unfold ids, sortComments. rewrite array_sort_Permutation.
  apply NoDup_ids_filter. by apply wf_store_NoDup_ids.
Qed.

Lemma parentKey_engine_made maxDepth maxLength st c :
  engine_made maxDepth maxLength st c → parentKey c = Comment.parentId c.
Proof.
  intros (_ & _ & Hpid & _ & _ & _ & _ & _ & _ & d & _ & Hp).
  unfold parentKey, js_or. rewrite Hpid.
  destruct (Comment.parentId c) as [p|]; [|done].
  destruct Hp as [Hp _]. by rewrite !(truthy_true p Hp).
Qed.

Lemma thread_inv_acyclic maxDepth maxLength st C :
  thread_inv maxDepth maxLength st →
  (∀ c, c ∈ C → c ∈ MemoryAdapter._getAll st) →
  acyclic C (stored_depth st).
Proof.
  intros [Hwf Hinv] Hsub c p Hc Hp _.
  pose proof (stored_elem st c Hwf (Hsub c Hc)) as Hget.
  pose proof (Hinv _ _ Hget) as Hmade.
  rewrite (parentKey_engine_made _ _ _ _ Hmade) in Hp.
  destruct Hmade as (_ & _ & _ & _ & _ & _ & _ & _ & _ & d & Hd & Hparent).
  rewrite Hp in Hparent.
  destruct Hparent as (_ & Hle & parent & Hpget & Hpd & _).
  unfold stored_depth. rewrite Hget, Hpget, Hd, Hpd. simpl. lia.
Qed.

(** X16: the threads that the engine builds on the in-memory adapter.
    After any session that starts with a new adapter, whatever the requests
    and whether they succeed or fail: the ids of the stored comments are
    distinct, every comment is stored under its id, every root has depth 0,
    every reply has a parent that is stored, belongs to the same post and
    lies one level up, no depth exceeds [maxDepth] except 0, and every
    content is non-empty and, unless deleted, within [maxLength]. *)
Theorem session_thread_invariant (maxDepth maxLength : Z)
    (requests : list (Z * Request)) :
  thread_inv maxDepth maxLength
    (storage (session (memory_system maxDepth maxLength) requests fresh_world)).
Proof. apply session_thread_inv, thread_inv_initial. Qed.

(** X17: [getThread] loses nothing.  After any session on the in-memory
    adapter, the forest that [getThread] returns for a post holds every
    comment of the page that [getComments] lists, each once: counting the
    forest gives the length of the page and flattening it gives the comments
    of the page.  The store is not changed. *)
Theorem getThread_complete (maxDepth maxLength : Z)
    (requests : list (Z * Request)) (postId : option string)
    (query : QueryOptions) (fuel : nat) :
  let this := memory_system maxDepth maxLength in
  let w := session this requests fresh_world in
  let sort := Some (nullish (sort query) "top") in
  let listed :=
    page (storage w) postId sort (nullish (offset query) 0)
      (nullish (limit query) 100) in
  ∃ forest w',
    CommentSystem.getThread this postId query w = (Returned forest, w')
    ∧ storage w' = storage w
    ∧ forest = buildTree (sortComments listed sort)
    ∧ ((length listed < fuel)%nat →
       countComments fuel forest = Some (length listed)
       ∧ ∃ flat, flattenTree fuel forest = Some flat ∧ flat ≡ₚ listed).
Proof.
  intros this w sort listed.
  pose proof (session_thread_inv maxDepth maxLength requests fresh_world
                (thread_inv_initial _ _)) as Hst.
  fold this in Hst. fold w in Hst.
  exists (buildTree (sortComments listed sort)). eexists. split_and!.
  - unfold CommentSystem.getThread, bind. rewrite await_run.
    subst this. simpl. reflexivity.
  - done.
  - done.
  - intros Hfuel.
    set (C := sortComments listed sort).
    assert (C ≡ₚ listed) as Hperm
      by (unfold C, sortComments; apply array_sort_Permutation).
    assert (NoDup (ids C)) as Hnd.
    { unfold ids. rewrite Hperm. apply page_NoDup, Hst. }
    assert (acyclic C (stored_depth (storage w))) as Hrank.
    { apply (thread_inv_acyclic maxDepth maxLength); [done|].
      intros c Hc. rewrite Hperm in Hc. by apply page_stored in Hc as [? _]. }
    destruct (generations_exist C _ Hnd Hrank) as (lvl & Hlvl & Hbound).
    destruct (flattenTree_Permutation C lvl Hnd Hlvl Hbound fuel)
      as (flat & Hflat & Hflat_perm).
    { by rewrite Hperm. }
    rewrite countComments_length, Hflat. simpl. split.
    + by rewrite Hflat_perm, Hperm.
    + exists flat. split; [done|]. by rewrite Hflat_perm.
Qed.

Lemma slice_all {A} (l : list A) (limit : Z) :
  Z.of_nat (length l) ≤ limit → slice l 0 (0 + limit) = l.
Proof.
  intros Hl. unfold slice. rewrite !slice_index_nonneg by lia.
  replace (Z.to_nat (0 `min` Z.of_nat (length l))) with 0%nat by lia.
  simpl. apply take_ge. lia.
Qed.

(** X18: a page that holds the whole post mirrors the stored links.  After
    any session on the in-memory adapter, when [getThread] is asked for a
    post from offset 0 with a limit that is not below the number of its
    comments, the roots of the forest are exactly the comments of the post
    without a parent, and the replies of every node are exactly the comments
    whose [parentId] is the id of the node, both in the order of the sorted
    thread. *)
Theorem getThread_whole_post (maxDepth maxLength : Z)
    (requests : list (Z * Request)) (postId : option string)
    (query : QueryOptions) :
  let this := memory_system maxDepth maxLength in
  let w := session this requests fresh_world in
  let sort := Some (nullish (sort query) "top") in
  let thread :=
    sortComments (sortComments (post_comments (storage w) postId) sort) sort in
  nullish (offset query) 0 = 0 →
  Z.of_nat (length (post_comments (storage w) postId))
    ≤ nullish (limit query) 100 →
  ∃ forest w',
    CommentSystem.getThread this postId query w = (Returned forest, w')
    ∧ roots forest = ids (filter (λ c, Comment.parentId c = None) thread)
    ∧ ∀ c, c ∈ thread →
        nodes forest !! Comment.id c
        = Some {| data := c;
                  replies :=
                    ids (filter (λ r, Comment.parentId r = Some (Comment.id c))
                           thread) |}.
Proof.
  intros this w policy thread Hoffset Hlimit.
  pose proof (session_thread_inv maxDepth maxLength requests fresh_world
                (thread_inv_initial _ _)) as Hst.
  fold this in Hst. fold w in Hst.
  assert (thread ≡ₚ post_comments (storage w) postId) as Hperm.
  { unfold thread, sortComments. by rewrite !array_sort_Permutation. }
  assert (∀ c, c ∈ thread →
            c ∈ MemoryAdapter._getAll (storage w)
            ∧ Comment.postId c = postId) as Hstored.
  { intros c Hc. rewrite Hperm in Hc.
    by apply list_elem_of_filter in Hc as [? ?]. }
  assert (NoDup (ids thread)) as Hnd.
  { unfold ids. rewrite Hperm. apply NoDup_ids_filter.
    apply wf_store_NoDup_ids, Hst. }
  assert (∀ c, c ∈ thread → parentKey c = Comment.parentId c) as Hkey.
  { intros c Hc. destruct (Hstored c Hc) as [Hin _].
    apply (parentKey_engine_made maxDepth maxLength (storage w)).
    apply (proj2 Hst (Comment.id c)). by apply stored_elem; [apply Hst|]. }
  exists (buildTree thread). eexists. split_and!.
  - unfold CommentSystem.getThread, bind. rewrite await_run.
    subst this. rewrite memory_getComments. cbn [fst snd settled].
    unfold ret. do 3 f_equal. cbn [sort offset limit nullish].
    rewrite Hoffset. rewrite slice_all; [done|].
    unfold sortComments. by rewrite array_sort_Permutation.
  - destruct (buildTree_shape thread) as [-> _]. f_equal.
    apply filter_ext_elem. intros c Hc. unfold attached.
    rewrite (Hkey c Hc).
    destruct (Comment.parentId c) as [p|] eqn:Hp;
      [|by split; [|intros _ []]].
    split; [|done]. intros Hno. exfalso. apply Hno.
    destruct (Hstored c Hc) as [Hin Hpost].
    pose proof (stored_elem _ _ (proj1 Hst) Hin) as Hget.
    destruct (proj2 Hst _ _ Hget)
      as (_ & _ & _ & _ & _ & _ & _ & _ & _ & d & _ & Hparent).
    rewrite Hp in Hparent.
    destruct Hparent as (_ & _ & parent & Hpget & _ & Hppost).
    destruct (proj2 (proj1 Hst) _ _ Hpget) as [Hpid _].
    apply list_elem_of_fmap. exists parent. split; [done|].
    rewrite Hperm. apply list_elem_of_filter. split; [congruence|].
    apply list_elem_of_fmap. exists (p, parent). split; [done|].
    by apply map_get_Some_elem.
  - intros c Hc. rewrite (node_of_comment thread Hnd c Hc). do 3 f_equal.
    apply filter_ext_elem. intros r Hr. by rewrite (Hkey r Hr).
Qed.

Lemma getThread_whole_post_witness :
  ∃ forest w',
    CommentSystem.getThread (memory_system 10 10000) (Some "post_1")
      {| sort := None; limit := None; offset := None |}
      (session (memory_system 10 10000) small_session fresh_world)
    = (Returned forest, w')
    ∧ roots forest = ["comment_3"; "comment_1"]
    ∧ replies <$> nodes forest !! "comment_1" = Some ["comment_2"].
Proof.
  destruct (getThread_whole_post 10 10000 small_session (Some "post_1")
              {| sort := None; limit := None; offset := None |})
    as (forest & w' & Hthread & Hroots & Hnodes);
    [reflexivity|vm_compute; discriminate|].
  exists forest, w'. split; [exact Hthread|]. split.
  - rewrite Hroots. vm_compute. reflexivity.
  - set (c := nullish
                (MemoryAdapter.map_get "comment_1"
                   (MemoryAdapter.comments
                      (storage (session (memory_system 10 10000)
                                  small_session fresh_world))))
                (bare "" None)).
    assert (Comment.id c = "comment_1") as Hid by (vm_compute; reflexivity).
    specialize (Hnodes c). rewrite Hid in Hnodes. rewrite Hnodes.
    + vm_compute. reflexivity.
    + vm_compute. apply list_elem_of_lookup. by exists 2%nat.
Defined.

Lemma comment_map_lookup st k :
  comment_map st !! k = MemoryAdapter.map_get k (MemoryAdapter.comments st).
Proof.
  unfold comment_map. induction (MemoryAdapter.comments st) as [|[k' v] l IH];
    simpl; [done|].
  destruct (String.eqb_spec k' k) as [->|Hne].
  - by rewrite lookup_insert_eq.
  - by rewrite lookup_insert_ne.
Qed.

Lemma getDepth_thread_inv maxDepth maxLength st fuel :
  thread_inv maxDepth maxLength st → (101 ≤ fuel)%nat →
  ∀ n k c,
    MemoryAdapter.map_get k (MemoryAdapter.comments st) = Some c →
    Comment.depth c = Some (Z.of_nat n) →
    getDepth fuel k (comment_map st) = Some (Z.min 101 (Z.of_nat n)).
Proof.
  intros [Hwf Hinv] Hfuel. induction n as [|n IH]; intros k c Hget Hdepth.
  - pose proof (Hinv _ _ Hget) as Hmade.
    pose proof (parentKey_engine_made _ _ _ _ Hmade) as Hkey.
    destruct Hmade as (_ & _ & _ & _ & _ & _ & _ & _ & _ & d & Hd & Hparent).
    rewrite Hdepth in Hd. injection Hd as <-.
    destruct (Comment.parentId c) as [p|]; [lia|].
    unfold getDepth. rewrite comment_map_lookup, Hget.
    destruct fuel as [|fuel]; [lia|]. simpl. by rewrite Hkey.
  - pose proof (Hinv _ _ Hget) as Hmade.
    pose proof (parentKey_engine_made _ _ _ _ Hmade) as Hkey.
    destruct Hmade as (_ & _ & _ & _ & _ & _ & _ & _ & _ & d & Hd & Hparent).
    rewrite Hdepth in Hd. injection Hd as <-.
    destruct (Comment.parentId c) as [p|]; [|lia].
    destruct Hparent as (_ & _ & parent & Hpget & Hpd & _).
    replace (Z.of_nat (S n) - 1) with (Z.of_nat n) in Hpd by lia.
    rewrite (getDepth_parent fuel k (comment_map st) c p
               (Z.min 101 (Z.of_nat n))).
    + f_equal. lia.
    + done.
    + by rewrite comment_map_lookup.
    + done.
    + by apply (IH p parent).
Qed.

(** X19: on the threads of the engine [getDepth] finds the stored depth.
    After any session on the in-memory adapter, for every stored comment,
    [getDepth] of its id over the map of the store returns the [depth] field
    of the comment, capped at 101 (the safety limit of the loop): the field
    itself when [maxDepth] is at most 101. *)
Theorem getDepth_stored_depth (maxDepth maxLength : Z)
    (requests : list (Z * Request)) (fuel : nat) (k : string) (c : Comment) :
  let st :=
    storage (session (memory_system maxDepth maxLength) requests fresh_world) in
  (101 ≤ fuel)%nat →
  MemoryAdapter.map_get k (MemoryAdapter.comments st) = Some c →
  ∃ d, Comment.depth c = Some d
       ∧ 0 ≤ d
       ∧ getDepth fuel k (comment_map st) = Some (Z.min 101 d)
       ∧ (maxDepth ≤ 101 → getDepth fuel k (comment_map st) = Some d).
Proof.
  intros st Hfuel Hget.
  pose proof (session_thread_inv maxDepth maxLength requests fresh_world
                (thread_inv_initial _ _)) as Hst.
  fold st in Hst.
  pose proof (proj2 Hst _ _ Hget) as Hmade.
  destruct (engine_made_depth _ _ _ _ Hmade) as (d & Hd & Hd0).
  exists d. split; [done|]. split; [done|].
  assert (getDepth fuel k (comment_map st) = Some (Z.min 101 d)) as Hdepth.
  { rewrite <- (Z2Nat.id d) by done.
    apply (getDepth_thread_inv maxDepth maxLength st fuel Hst Hfuel _ k c);
      [done|].
    by rewrite Z2Nat.id. }
  split; [done|]. intros Hmax. rewrite Hdepth. f_equal.
  destruct Hmade as (_ & _ & _ & _ & _ & _ & _ & _ & _ & d' & Hd' & Hparent).
  assert (d' = d) as -> by congruence.
  destruct (Comment.parentId c); lia.
Qed.

Lemma getDepth_stored_depth_witness :
  getDepth 101 "comment_2"
    (comment_map
       (storage (session (memory_system 10 10000) small_session fresh_world)))
  = Some 1.
Proof.
  destruct (getDepth_stored_depth 10 10000 small_session 101 "comment_2"
              (nullish
                 (MemoryAdapter.map_get "comment_2"
                    (MemoryAdapter.comments
                       (storage (session (memory_system 10 10000)
                                   small_session fresh_world))))
                 (bare "" None)))
    as (d & Hd & _ & _ & Hdepth); [lia|vm_compute; reflexivity|].
  rewrite Hdepth by lia. vm_compute in Hd. by injection Hd as <-.
Defined.

Lemma memory_deleteComment_ok commentId now st :
  (MemoryAdapter.deleteComment commentId now st).1 = inr tt.
Proof.
  unfold MemoryAdapter.deleteComment. by destruct (MemoryAdapter.map_get _ _).
Qed.

Lemma memory_deleteComment_twice commentId now now' st :
  (MemoryAdapter.deleteComment commentId now'
     (MemoryAdapter.deleteComment commentId now st).2).2
  = (MemoryAdapter.deleteComment commentId now st).2.
Proof.
  unfold MemoryAdapter.deleteComment.
  destruct (MemoryAdapter.map_get commentId (MemoryAdapter.comments st))
    as [comment|] eqn:E; simpl; [|by rewrite E].
  rewrite map_get_set_eq. simpl. by rewrite map_set_set, mark_deleted_idemp.
Qed.

(** X20: a deleted comment keeps its place in the thread.  On the
    in-memory adapter, when a stored comment of a post is deleted by its
    author, it is still found under its id, marked deleted and with the
    content [[deleted]]; a reply to it is accepted as before and is stored
    one level below it; and deleting it once more succeeds and changes
    nothing. *)
Theorem reply_after_delete (maxDepth maxLength : Z)
    (postId authorId agentId trimmed : string)
    (content : CommentSystem.ContentArg) (parent : Comment) (d : Z)
    (w : World MemoryAdapter.State) :
  let this := memory_system maxDepth maxLength in
  postId ≠ "" → authorId ≠ "" →
  CommentSystem._validateContent this content = inr trimmed →
  stored_at parent postId d w →
  effective_author parent = Some agentId →
  d + 1 ≤ maxDepth →
  ∃ w1 c w2,
    CommentSystem.delete this (Comment.id parent) agentId w = (Returned tt, w1)
    ∧ (CommentSystem.getComment this (Comment.id parent) w1).1
      = Returned (MemoryAdapter.mark_deleted parent)
    ∧ storage (CommentSystem.delete this (Comment.id parent) agentId w1).2
      = storage w1
    ∧ CommentSystem.reply this (Some postId) (Some (Comment.id parent))
        (Some authorId) content w1 = (Returned c, w2)
    ∧ Comment.parentId c = Some (Comment.id parent)
    ∧ Comment.depth c = Some (d + 1)
    ∧ MemoryAdapter.map_get (Comment.id c) (MemoryAdapter.comments (storage w2))
      = Some c.
Proof.
  intros this Hpost Hauthor Hcontent (Hget & Hid & Hp & Hd) Hagent Hdepth.
  assert (∀ w0 stored,
            MemoryAdapter.map_get (Comment.id parent)
              (MemoryAdapter.comments (storage w0)) = Some stored →
            effective_author stored = Some agentId →
            CommentSystem.delete this (Comment.id parent) agentId w0
            = (Returned tt,
               called (call_deleteComment (Comment.id parent))
                 (MemoryAdapter.deleteComment (Comment.id parent) (now w0)
                    (storage w0)).2
                 (called (call_getComment (Comment.id parent)) (storage w0) w0)))
    as Hdelete.
  { intros w0 stored Hget0 Hagent0. rewrite delete_run. subst this.
    rewrite memory_fetch. cbv zeta. cbn [fst snd]. rewrite Hget0.
    rewrite decide_True by done. cbn [storage called].
    change (Adapter.deleteComment _) with MemoryAdapter.deleteComment.
    by rewrite memory_deleteComment_ok. }
  set (w1 := called (call_deleteComment (Comment.id parent))
               (MemoryAdapter.deleteComment (Comment.id parent) (now w)
                  (storage w)).2
               (called (call_getComment (Comment.id parent)) (storage w) w)).
  assert (MemoryAdapter.map_get (Comment.id parent)
            (MemoryAdapter.comments (storage w1))
          = Some (MemoryAdapter.mark_deleted parent)) as Hget1.
  { unfold w1. cbn [storage called]. unfold MemoryAdapter.deleteComment.
    rewrite Hget. cbn [snd MemoryAdapter.comments]. apply map_get_set_eq. }
  destruct (memory_reply maxDepth maxLength postId authorId trimmed content
              Hpost Hauthor Hcontent (MemoryAdapter.mark_deleted parent) d w1)
    as (c & w2 & Hreply & (Hc & _ & _ & Hcd) & Hparent); [by split_and!|done|].
  exists w1, c, w2. split_and!.
  - by apply (Hdelete w parent).
  - unfold CommentSystem.getComment, bind. rewrite await_run. subst this.
    change (Adapter.getComment _) with MemoryAdapter.getComment.
    unfold MemoryAdapter.getComment. cbn [fst snd settled]. by rewrite Hget1.
  - rewrite (Hdelete w1 (MemoryAdapter.mark_deleted parent)) by done.
    cbn [snd storage called]. unfold w1 at 1 3. cbn [storage called].
    apply memory_deleteComment_twice.
  - done.
  - done.
  - done.
  - done.
Qed.

Lemma reply_after_delete_witness :
  ∃ w1 c w2,
    CommentSystem.delete (memory_system 10 10000) "comment_1" "agent_1"
      one_comment_world = (Returned tt, w1)
    ∧ CommentSystem.reply (memory_system 10 10000) (Some "post_1")
        (Some "comment_1") (Some "agent_2")
        (CommentSystem.content_string " A reply ") w1 = (Returned c, w2)
    ∧ Comment.depth c = Some 1.
Proof.
  destruct (reply_after_delete 10 10000 "post_1" "agent_2" "agent_1" "A reply"
              (CommentSystem.content_string " A reply ")
              (nullish
                 (MemoryAdapter.map_get "comment_1"
                    (MemoryAdapter.comments (storage one_comment_world)))
                 (bare "" None))
              0 one_comment_world)
    as (w1 & c & w2 & Hdelete & _ & _ & Hreply & _ & Hdepth & _);
    [done|done|reflexivity|by split_and!|reflexivity|lia|].
  exists w1, c, w2. split_and!; [exact Hdelete|exact Hreply|exact Hdepth].
Defined.

Lemma StronglySorted_sublist {A} (R : relation A) (k l : list A) :
  k `sublist_of` l → StronglySorted R l → StronglySorted R k.
Proof.
  induction 1 as [|x k l Hkl IH|x k l Hkl IH]; intros Hl; [done|..].
  - apply StronglySorted_cons in Hl as [Hx Hl].
    apply StronglySorted_cons. split; [|by apply IH].
    apply Forall_forall. intros y Hy. rewrite Forall_forall in Hx.
    apply Hx. eapply elem_of_submseteq; [done|by apply sublist_submseteq].
  - apply StronglySorted_cons in Hl as [_ Hl]. by apply IH.
Qed.

Lemma policy_consistent (sort : option string) :
  nullish sort "top" ≠ "controversial" →
  (∀ a b, has_time a → has_time b →
     SortCompare (compareFn sort) a b ≤ 0 ↔ policy_order sort a b)
  ∧ (∀ a b, policy_order sort a b ∨ policy_order sort b a)
  ∧ (∀ a b c, policy_order sort a b → policy_order sort b c →
       policy_order sort a c).
Proof.
  intros Hs. unfold compareFn, policy_order. cbv zeta.
  destruct (String.eqb_spec (nullish sort "top") "new") as [_|_];
    [|destruct (String.eqb_spec (nullish sort "top") "old") as [_|_];
      [|destruct (String.eqb_spec (nullish sort "top") "controversial")
          as [|_]; [done|]]].
  - split_and!; [apply compare_new_order|..]; unfold new_order; lia.
  - split_and!; [apply compare_old_order|..]; unfold old_order; lia.
  - split_and!; [apply compare_top_order|..]; unfold top_order; lia.
Qed.

Lemma sortComments_policy_sorted (comments : list Comment) (sort : option string) :
  nullish sort "top" ≠ "controversial" → Forall has_time comments →
  StronglySorted (policy_order sort) (sortComments comments sort).
Proof.
  intros Hs Ht. destruct (policy_consistent sort Hs) as (HR & Htotal & Htrans).
  by apply (array_sort_sorted (compareFn sort) has_time (policy_order sort)).
Qed.

Lemma sortComments_policy_fixed (comments : list Comment) (sort : option string) :
  nullish sort "top" ≠ "controversial" → Forall has_time comments →
  StronglySorted (policy_order sort) comments →
  sortComments comments sort = comments.
Proof.
  intros Hs Ht Hsorted. destruct (policy_consistent sort Hs) as (HR & _ & _).
  by apply (array_sort_sorted_input (compareFn sort) has_time (policy_order sort)).
Qed.

Lemma engine_made_has_time maxDepth maxLength st c :
  engine_made maxDepth maxLength st c → has_time c.
Proof.
  intros (_ & _ & _ & _ & _ & _ & [t Ht] & _). unfold has_time, getTime, js_or.
  by rewrite Ht.
Qed.

(** X21: the forest of [getThread] is sorted at every level.  After any
    session on the in-memory adapter and for a policy other than
    ['controversial'], the second sort of [getThread] leaves the page as
    [getComments] listed it, so the forest is built from the page itself;
    the page is in the order of the policy (['new']: newest first, ['old']:
    oldest first, otherwise highest score first and newest first at equal
    scores), and so are the roots of the forest and the replies of each of
    its nodes. *)
Theorem getThread_sorted (maxDepth maxLength : Z)
    (requests : list (Z * Request)) (postId : option string)
    (query : QueryOptions) :
  let this := memory_system maxDepth maxLength in
  let w := session this requests fresh_world in
  let policy := Some (nullish (sort query) "top") in
  let listed :=
    page (storage w) postId policy (nullish (offset query) 0)
      (nullish (limit query) 100) in
  nullish (sort query) "top" ≠ "controversial" →
  ∃ w',
    CommentSystem.getThread this postId query w
    = (Returned (buildTree listed), w')
    ∧ StronglySorted (policy_order policy) listed
    ∧ roots (buildTree listed) = ids (root_comments listed)
    ∧ StronglySorted (policy_order policy) (root_comments listed)
    ∧ ∀ c, c ∈ listed →
        replies <$> nodes (buildTree listed) !! Comment.id c
        = Some (ids (children listed (Comment.id c)))
        ∧ StronglySorted (policy_order policy) (children listed (Comment.id c)).
Proof.
  intros this w policy listed Hpolicy.
  pose proof (session_thread_inv maxDepth maxLength requests fresh_world
                (thread_inv_initial _ _)) as Hst.
  fold this in Hst. fold w in Hst.
  assert (Forall has_time (post_comments (storage w) postId)) as Htimes.
  { apply Forall_forall. intros c Hc. apply list_elem_of_filter in Hc as [_ Hc].
    apply (engine_made_has_time maxDepth maxLength (storage w)).
    apply (proj2 Hst (Comment.id c)). by apply stored_elem; [apply Hst|]. }
  assert (listed `sublist_of` sortComments (post_comments (storage w) postId)
                                policy) as Hsub by apply page_sublist.
  assert (StronglySorted (policy_order policy) listed) as Hsorted.
  { apply (StronglySorted_sublist _ _ _ Hsub).
    by apply sortComments_policy_sorted. }
  assert (Forall has_time listed) as Hlisted.
  { apply Forall_forall. intros c Hc. rewrite Forall_forall in Htimes.
    apply Htimes. eapply elem_of_submseteq in Hc;
      [|apply sublist_submseteq, Hsub].
    unfold sortComments in Hc. by rewrite array_sort_Permutation in Hc. }
  assert (NoDup (ids listed)) as Hnd by apply page_NoDup, Hst.
  eexists. split_and!.
  - unfold CommentSystem.getThread, bind. rewrite await_run.
    subst this. cbn [fst snd settled memory_system memory_adapter
                     CommentSystem.adapter Adapter.getComments].
    rewrite memory_getComments. cbn [fst snd settled]. unfold ret.
    f_equal. f_equal. f_equal.
    by apply (sortComments_policy_fixed listed policy).
  - done.
  - by destruct (buildTree_shape listed) as [-> _].
  - apply (StronglySorted_sublist _ _ listed); [apply sublist_filter|done].
  - intros c Hc. split.
    + by rewrite (node_of_comment listed Hnd c Hc).
    + apply (StronglySorted_sublist _ _ listed); [apply sublist_filter|done].
Qed.

Lemma getThread_sorted_witness :
  ∃ forest w',
    CommentSystem.getThread (memory_system 10 10000) (Some "post_1")
      {| sort := Some "old"; limit := None; offset := None |}
      (session (memory_system 10 10000) small_session fresh_world)
    = (Returned forest, w')
    ∧ roots forest = ["comment_1"; "comment_3"].
Proof.
  destruct (getThread_sorted 10 10000 small_session (Some "post_1")
              {| sort := Some "old"; limit := None; offset := None |})
    as (w' & Hthread & _ & Hroots & _); [done|].
  eexists _, w'. split; [exact Hthread|].
  rewrite Hroots. vm_compute. reflexivity.
Defined.

(** ** Trimming and validation *)

















(** ** What a session never does *)

Lemma evolves_refl c : evolves c c.
Proof. split_and!; auto. Qed.

Lemma evolves_trans c1 c2 c3 : evolves c1 c2 → evolves c2 c3 → evolves c1 c3.
Proof.
  intros (Hl1 & Ht1 & Hd1 & Hc1) (Hl2 & Ht2 & Hd2 & Hc2).
  split_and!; [congruence|congruence|auto|].
  destruct Hc2 as [Hc2|Hc2]; [|by right]. rewrite Hc2. done.
Qed.

Lemma store_extends_refl st : store_extends st st.
Proof.
  split; [done|]. intros k c Hk. exists c. split; [done|apply evolves_refl].
Qed.

Lemma store_extends_trans st1 st2 st3 :
  store_extends st1 st2 → store_extends st2 st3 → store_extends st1 st3.
Proof.
  intros [Hk1 Hc1] [Hk2 Hc2]. split; [by etrans|].
  intros k c Hk. destruct (Hc1 _ _ Hk) as (c' & Hk' & He).
  destruct (Hc2 _ _ Hk') as (c'' & Hk'' & He').
  exists c''. split; [done|]. by apply (evolves_trans _ c').
Qed.

Lemma store_extends_save st draft now :
  wf_store st → store_extends st (MemoryAdapter.saveComment draft now st).2.
Proof.
  intros Hwf. pose proof (wf_store_fresh st Hwf) as Hfresh. split; simpl.
  - rewrite map_set_absent by done. rewrite fmap_app. by apply prefix_app_r.
  - intros k c Hk. exists c. split; [|apply evolves_refl].
    rewrite map_get_set_ne; [done|]. intros <-. congruence.
Qed.

Lemma store_extends_update st k c c' :
  MemoryAdapter.map_get k (MemoryAdapter.comments st) = Some c →
  evolves c c' →
  store_extends st
    {| MemoryAdapter.comments :=
         MemoryAdapter.map_set k c' (MemoryAdapter.comments st);
       MemoryAdapter.idCounter := MemoryAdapter.idCounter st |}.
Proof.
  intros Hk He. split; simpl.
  - by rewrite map_set_present_keys by eauto.
  - intros k0 c0 Hk0. destruct (decide (k = k0)) as [<-|Hne].
    + exists c'. rewrite map_get_set_eq. split; [done|]. congruence.
    + exists c0. rewrite map_get_set_ne by done. split; [done|apply evolves_refl].
Qed.

Lemma store_extends_deleteComment st commentId now :
  store_extends st (MemoryAdapter.deleteComment commentId now st).2.
Proof.
  unfold MemoryAdapter.deleteComment.
  destruct (MemoryAdapter.map_get _ _) as [c|] eqn:E;
    [|apply store_extends_refl].
  apply (store_extends_update st commentId c); [done|].
  split_and!; auto.
Qed.

Lemma store_extends_updateScore st commentId delta now :
  store_extends st (MemoryAdapter.updateScore commentId delta now st).2.
Proof.
  unfold MemoryAdapter.updateScore.
  destruct (MemoryAdapter.map_get _ _) as [c|] eqn:E;
    [|apply store_extends_refl].
  apply (store_extends_update st commentId c); [done|].
  split_and!; auto.
Qed.

(** What a request does to the in-memory store: nothing, or one save, one
    soft delete or one score update. *)
Lemma perform_storage maxDepth maxLength request w :
  let st' := storage (perform (memory_system maxDepth maxLength) request w) in
  st' = storage w
  ∨ (∃ draft, st' = (MemoryAdapter.saveComment draft (now w) (storage w)).2)
  ∨ (∃ commentId,
       st' = (MemoryAdapter.deleteComment commentId (now w) (storage w)).2)
  ∨ (∃ commentId delta,
       st' = (MemoryAdapter.updateScore commentId delta (now w) (storage w)).2).
Proof.
  intros st'. subst st'. destruct request; cbn [perform].
  - rewrite create_cases.
    destruct (truthy postId); [|by left].
    destruct (truthy authorId); [|by left]. cbn [negb].
    destruct (CommentSystem._validateContent _ content) as [e|trimmed];
      [by left|].
    right. left. by eexists.
  - destruct (truthy postId) eqn:Hp;
      [|by left; unfold CommentSystem.reply; rewrite Hp].
    destruct (truthy parentId) eqn:Hr;
      [|by left; unfold CommentSystem.reply; rewrite Hp, Hr].
    destruct (truthy authorId) eqn:Ha;
      [|by left; unfold CommentSystem.reply; rewrite Hp, Hr, Ha].
    apply truthy_Some in Hp as (post & -> & Hpost).
    apply truthy_Some in Hr as (parentRef & -> & Hparent).
    apply truthy_Some in Ha as (author & -> & Hauthor).
    rewrite reply_run by done. rewrite memory_fetch.
    cbv zeta. unfold called. cbn [fst snd storage].
    destruct (MemoryAdapter.map_get parentRef _) as [parent|]; [|by left].
    destruct (decide (belongs_to parent post)); [|by left].
    destruct (decide (_ > _)); [by left|].
    destruct (CommentSystem._validateContent _ content) as [e|trimmed];
      [by left|].
    right. left. by eexists.
  - left. unfold CommentSystem.getThread, bind. by rewrite await_run.
  - left. unfold CommentSystem.getComment, bind. rewrite await_run. simpl.
    by destruct (MemoryAdapter.map_get _ _).
  - rewrite delete_run, memory_fetch. cbv zeta. unfold called.
    cbn [fst snd storage].
    destruct (MemoryAdapter.map_get _ _) as [c|]; [|by left].
    destruct (decide _); [|by left].
    right. right. left. by eexists.
  - left. unfold CommentSystem.getReplies.
    change (Adapter.getReplies _) with (Some MemoryAdapter.getReplies).
    cbv beta iota. by rewrite await_run.
  - left. unfold CommentSystem.getCount.
    change (Adapter.getCount _) with (Some MemoryAdapter.getCount).
    cbv beta iota. by rewrite await_run.
  - right. right. right. unfold CommentSystem.updateScore.
    change (Adapter.updateScore _) with (Some MemoryAdapter.updateScore).
    cbv beta iota. rewrite await_run. by eexists _, _.
Qed.

Lemma perform_store_extends maxDepth maxLength request w :
  wf_store (storage w) →
  store_extends (storage w)
    (storage (perform (memory_system maxDepth maxLength) request w)).
Proof.
  intros Hwf.
  destruct (perform_storage maxDepth maxLength request w)
    as [->|[[draft ->]|[[commentId ->]|(commentId & delta & ->)]]].
  - apply store_extends_refl.
  - by apply store_extends_save.
  - apply store_extends_deleteComment.
  - apply store_extends_updateScore.
Qed.

Lemma session_store_extends maxDepth maxLength requests : ∀ w,
  thread_inv maxDepth maxLength (storage w) →
  store_extends (storage w)
    (storage (session (memory_system maxDepth maxLength) requests w)).
Proof.
  induction requests as [|[time request] requests IH]; intros w Hst;
    [apply store_extends_refl|].
  simpl. eapply store_extends_trans; [|apply IH].
  - apply (perform_store_extends _ _ request (at_time time w)), Hst.
  - by apply perform_thread_inv.
Qed.

(** X23: the engine never removes or rewrites a comment.  In a session on
    the in-memory adapter, whatever requests follow: the map keeps the keys
    it has, in their order, and new comments come after them; every stored
    comment stays stored under its id with the same post, author, parent
    links, depth and creation time; a deleted comment stays deleted; and a
    content changes only by becoming [[deleted]]. *)
Theorem session_never_removes (maxDepth maxLength : Z)
    (requests more : list (Z * Request)) :
  let this := memory_system maxDepth maxLength in
  let w := session this requests fresh_world in
  let w' := session this more w in
  (MemoryAdapter.comments (storage w)).*1
    `prefix_of` (MemoryAdapter.comments (storage w')).*1
  ∧ ∀ k c,
      MemoryAdapter.map_get k (MemoryAdapter.comments (storage w)) = Some c →
      ∃ c',
        MemoryAdapter.map_get k (MemoryAdapter.comments (storage w')) = Some c'
        ∧ links c' = links c
        ∧ Comment.createdAt c' = Comment.createdAt c
        ∧ (Comment.isDeleted c = true → Comment.isDeleted c' = true)
        ∧ (Comment.content c' = Comment.content c
           ∨ Comment.content c' = "[deleted]").
Proof.
  intros this w w'.
  apply (session_store_extends maxDepth maxLength more w).
  apply session_thread_inv, thread_inv_initial.
Qed.

(** X24: asking for the replies of a comment that is not stored.  After
    any session on the in-memory adapter, the adapter's own [getReplies]
    answers with the empty list, while the engine's fallback for an adapter
    without [getReplies] throws NOT_FOUND on the same store. *)
Theorem getReplies_unknown_comment (maxDepth maxLength : Z)
    (requests : list (Z * Request)) (commentId : string)
    (query : QueryOptions) :
  let w := session (memory_system maxDepth maxLength) requests fresh_world in
  MemoryAdapter.map_get commentId (MemoryAdapter.comments (storage w)) = None →
  (CommentSystem.getReplies (memory_system maxDepth maxLength) commentId
     query w).1 = Returned []
  ∧ (CommentSystem.getReplies required_only_system commentId query w).1
    = Thrown (CommentError "Comment not found" "NOT_FOUND").
Proof.
  intros w Hnone.
  pose proof (session_thread_inv maxDepth maxLength requests fresh_world
                (thread_inv_initial _ _)) as Hst.
  fold w in Hst. split.
  - unfold CommentSystem.getReplies.
    change (Adapter.getReplies _) with (Some MemoryAdapter.getReplies).
    cbv beta iota. rewrite await_run. unfold MemoryAdapter.getReplies.
    cbn [fst snd settled].
    rewrite filter_none.
    { f_equal. apply sublist_nil_r. apply (slice_sublist []). }
    intros c Hc Hparent.
    pose proof (stored_elem _ _ (proj1 Hst) Hc) as Hget.
    destruct (proj2 Hst _ _ Hget)
      as (_ & _ & _ & _ & _ & _ & _ & _ & _ & d & _ & Hp).
    rewrite Hparent in Hp. destruct Hp as (_ & _ & parent & Hpget & _).
    congruence.
  - rewrite getReplies_fallback_run by done.
    change (fetch required_only_system commentId w)
      with (@inr JsError _
              (MemoryAdapter.map_get commentId
                 (MemoryAdapter.comments (storage w))), storage w).
    cbv zeta. cbn [fst snd]. by rewrite Hnone.
Qed.

Lemma getReplies_unknown_comment_witness :
  (CommentSystem.getReplies (memory_system 10 10000) "fake_id"
     {| sort := None; limit := None; offset := None |}
     (session (memory_system 10 10000) small_session fresh_world)).1
  = Returned []
  ∧ (CommentSystem.getReplies required_only_system "fake_id"
       {| sort := None; limit := None; offset := None |}
       (session (memory_system 10 10000) small_session fresh_world)).1
    = Thrown (CommentError "Comment not found" "NOT_FOUND").
Proof.
  apply (getReplies_unknown_comment 10 10000 small_session "fake_id"
           {| sort := None; limit := None; offset := None |}).
  reflexivity.
Defined.
